(** * labyrinth.js: the random-content generator of the web labyrinth

    A shallow embedding of [random_content] (js/labyrinth.js) and the
    properties of its sampling loop, its whitespace normalisation, its
    argument validation and its file-descriptor handling.

    Modelling conventions
    - a JavaScript string is the list of its UTF-16 code units;
    - a JavaScript number is an exact integer or [NaN]: the sizes and
      counters of the script are integers below 2^53, where doubles are
      exact; a draw of [Math.random()] is a fraction over 2^53; a product
      or a sum of doubles that is not exact is rounded to the nearest
      double, ties to even ([round_double]);
    - [fs], [console], [Math.random] and [r.return] act on an explicit
      state; what the outside world decides (file contents, failing system
      calls, random draws) is read from a [world];
    - the [while] loop runs on fuel that is independent of the loop's own
      counter; running out of fuel is a result of its own. *)

From Stdlib Require Import ZArith Lia String Ascii.
From Stdlib Require Strings.Byte.
From stdpp Require Import base list strings gmap.

Local Open Scope Z_scope.

(** ** JavaScript strings *)

Module JsString.

Abbreviation jsstring := (list Z) (only parsing).

(** a literal of the script *)
Definition lit (s : string) : jsstring :=
  map (fun a => Z.of_N (N_of_ascii a)) (list_ascii_of_string s).

Definition CR : Z := 13.
Definition LF : Z := 10.
Definition SP : Z := 32.
Definition DQUOTE : Z := 34.

(** [s.length] *)
Definition js_length (s : jsstring) : Z := Z.of_nat (length s).

(** [s.slice(0, e)]: a negative [e] counts from the end of [s] *)
Definition slice0 (s : jsstring) (e : Z) : jsstring :=
  let len := js_length s in
  let to := if e <? 0 then Z.max (len + e) 0 else Z.min e len in
  take (Z.to_nat to) s.

(** [s.slice(b)]: a negative [b] counts from the end of [s] *)
Definition slice_from (s : jsstring) (b : Z) : jsstring :=
  let len := js_length s in
  let from := if b <? 0 then Z.max (len + b) 0 else Z.min b len in
  drop (Z.to_nat from) s.

(** [s.substring(n)] for a constant [n >= 0] *)
Definition substring_from (n : nat) (s : jsstring) : jsstring := drop n s.

End JsString.
Export JsString.

(** ** Regular-expression replacement

    [s.replace(/re/g, rep)] scans [s] from the left; where the expression
    matches at the current position the match is replaced and the scan goes
    on behind it, otherwise the character is kept.  A matcher returns the
    text behind the match that starts at the head of its argument. *)

Module Regex.

Definition matcher := jsstring -> option jsstring.

Fixpoint replace_all (m : matcher) (rep : jsstring) (fuel : nat)
    (s : jsstring) : jsstring :=
  match fuel with
  | O => s
  | S fuel' =>
      match s with
      | [] => []
      | c :: t =>
          match m s with
          | Some rest => rep ++ replace_all m rep fuel' rest
          | None => c :: replace_all m rep fuel' t
          end
      end
  end.

(** neither expression of the script matches the empty string, so every
    step consumes a character and [length s] steps are enough *)
Definition js_replace (m : matcher) (rep : jsstring) (s : jsstring) : jsstring :=
  replace_all m rep (length s) s.

(** [/(\r*\n)+/]: [\r*] is tried greedily and the group is repeated
    greedily; [committed] is the text behind the last complete group,
    to which the match backtracks when a further group does not finish *)
Fixpoint crlf_run (committed : option jsstring) (s : jsstring) : option jsstring :=
  match s with
  | c :: t =>
      if Z.eqb c CR then crlf_run committed t
      else if Z.eqb c LF then crlf_run (Some t) t
      else committed
  | [] => committed
  end.

Definition re_newlines : matcher := crlf_run None.

(** [/ +/]: one space, then as many as follow *)
Fixpoint skip_spaces (s : jsstring) : jsstring :=
  match s with
  | c :: t => if Z.eqb c SP then skip_spaces t else s
  | [] => []
  end.

Definition re_spaces : matcher := fun s =>
  match s with
  | c :: t => if Z.eqb c SP then Some (skip_spaces t) else None
  | [] => None
  end.

End Regex.
Export Regex.

(** lines 266-267 of labyrinth.js *)
Definition strip_newlines (line_read : jsstring) : jsstring :=
  js_replace re_newlines (lit " ") line_read.

Definition strip_spaces (line_read : jsstring) : jsstring :=
  js_replace re_spaces (lit " ") line_read.

Definition normalize (line_read : jsstring) : jsstring :=
  strip_spaces (strip_newlines line_read).

(** ** JavaScript numbers *)

Module JsNum.

Inductive jsnum := NaN | Num (z : Z).

(** comparisons: every comparison with [NaN] is false *)
Definition js_lt (a b : jsnum) : bool :=
  match a, b with Num x, Num y => x <? y | _, _ => false end.

Definition js_le (a b : jsnum) : bool :=
  match a, b with Num x, Num y => x <=? y | _, _ => false end.

Definition js_gt (a b : jsnum) : bool :=
  match a, b with Num x, Num y => y <? x | _, _ => false end.

(** [Math.min(a, b)] *)
Definition Math_min (a b : jsnum) : jsnum :=
  match a, b with Num x, Num y => Num (Z.min x y) | _, _ => NaN end.

(** [Math.ceil(a / b)] for integers [a] and [b <> 0] *)
Definition ceil_div (a b : Z) : Z := - ((- a) / b).

(** The double nearest to [m >= 0], ties to even: a double has 53
    significant bits, so above 2^53 the bits below the 53rd are rounded
    away.  Scaling by a power of two does not change the rounding, so this
    also rounds [m / 2^k] when [m] counts units of [2^-k]. *)
Definition round_double (m : Z) : Z :=
  let s := Z.log2 m - 52 in
  if s <=? 0 then m
  else
    let q := m / 2 ^ s in
    let rem := m mod 2 ^ s in
    let half := 2 ^ (s - 1) in
    if (half <? rem) || ((rem =? half) && Z.odd q) then (q + 1) * 2 ^ s
    else q * 2 ^ s.

(** [StrWhiteSpaceChar]: white space and line terminators *)
Definition is_white_space (c : Z) : bool :=
  (c =? 9) || (c =? 10) || (c =? 11) || (c =? 12) || (c =? 13) || (c =? 32)
  || (c =? 160) || (c =? 5760) || ((8192 <=? c) && (c <=? 8202))
  || (c =? 8232) || (c =? 8233) || (c =? 8239) || (c =? 8287)
  || (c =? 12288) || (c =? 65279).

Fixpoint trim_start (s : jsstring) : jsstring :=
  match s with
  | c :: t => if is_white_space c then trim_start t else s
  | [] => []
  end.

Definition digit_value (c : Z) : option Z :=
  if (48 <=? c) && (c <=? 57) then Some (c - 48) else None.

(** the value of the longest prefix of decimal digits, if it is not empty *)
Fixpoint leading_digits (acc : option Z) (s : jsstring) : option Z :=
  match s with
  | c :: t =>
      match digit_value c with
      | Some d => leading_digits (Some (10 * default 0 acc + d)) t
      | None => acc
      end
  | [] => acc
  end.

(** [parseInt(s, 10)] *)
Definition parseInt (s : jsstring) : jsnum :=
  let s := trim_start s in
  let '(sign, s) :=
    match s with
    | c :: t => if c =? 45 then (-1, t) else if c =? 43 then (1, t) else (1, s)
    | [] => (1, s)
    end in
  match leading_digits None s with
  | Some n => Num (sign * n)
  | None => NaN
  end.

End JsNum.
Export JsNum.

(** ** [Buffer.prototype.toString('utf8')]

    The UTF-8 decoder of the Encoding Standard: an ill-formed sequence
    yields U+FFFD and decoding resumes at the offending byte. *)

Module Utf8.

Definition byte_value (b : Byte.byte) : Z := Z.of_N (Byte.to_N b).

Record decoder := {
  code_point : Z;
  bytes_needed : nat;
  lower_boundary : Z;
  upper_boundary : Z
}.

Definition idle : decoder :=
  {| code_point := 0; bytes_needed := 0; lower_boundary := 128; upper_boundary := 191 |}.

(** a byte that arrives while no sequence is pending *)
Definition lead_byte (b : Z) : list Z * decoder :=
  if b <=? 127 then ([b], idle)
  else if (194 <=? b) && (b <=? 223) then
    ([], {| code_point := Z.land b 31; bytes_needed := 1;
            lower_boundary := 128; upper_boundary := 191 |})
  else if (224 <=? b) && (b <=? 239) then
    ([], {| code_point := Z.land b 15; bytes_needed := 2;
            lower_boundary := if b =? 224 then 160 else 128;
            upper_boundary := if b =? 237 then 159 else 191 |})
  else if (240 <=? b) && (b <=? 244) then
    ([], {| code_point := Z.land b 7; bytes_needed := 3;
            lower_boundary := if b =? 240 then 144 else 128;
            upper_boundary := if b =? 244 then 143 else 191 |})
  else ([65533], idle).

Definition decode_byte (d : decoder) (b : Z) : list Z * decoder :=
  match bytes_needed d with
  | O => lead_byte b
  | S k =>
      if (lower_boundary d <=? b) && (b <=? upper_boundary d) then
        let cp := Z.lor (Z.shiftl (code_point d) 6) (Z.land b 63) in
        match k with
        | O => ([cp], idle)
        | S _ => ([], {| code_point := cp; bytes_needed := k;
                         lower_boundary := 128; upper_boundary := 191 |})
        end
      else
        let '(out, d') := lead_byte b in (65533 :: out, d')
  end.

Fixpoint decode_from (d : decoder) (bs : list Byte.byte) : list Z :=
  match bs with
  | [] => match bytes_needed d with O => [] | S _ => [65533] end
  | b :: t =>
      let '(out, d') := decode_byte d (byte_value b) in
      out ++ decode_from d' t
  end.

(** the code units of a code point *)
Definition utf16 (cp : Z) : list Z :=
  if cp <? 65536 then [cp]
  else [55296 + Z.shiftr (cp - 65536) 10; 56320 + Z.land (cp - 65536) 1023].

Definition toString_utf8 (buf : list Byte.byte) : jsstring :=
  concat (map utf16 (decode_from idle buf)).

End Utf8.
Export Utf8.

(** ** The world outside the script *)

Inductive error :=
| RangeError (msg : string)
| SyntaxError (msg : string)
| Error (msg : string)
| SystemError (syscall : string).

(** One call of [Math.random()]: the value [numer / 2^53]. *)
Record draw := { numer : Z }.

Record world := {
  files : jsstring -> option (list Byte.byte);  (* path to contents *)
  open_fails : bool;                    (* openSync throws *)
  read_fails : nat -> bool;             (* the n-th readSync throws *)
  close_fails : bool;                   (* closeSync throws *)
  alloc_rejects_nan : bool;             (* Buffer.alloc(NaN) throws *)
  new_fd : Z;                           (* the descriptor openSync returns *)
  random : nat -> draw                  (* the n-th Math.random() *)
}.

Inductive fs_call :=
| StatSync (path : jsstring)
| OpenSync (path : jsstring)
| ReadSync (fd offset len position : Z)
| CloseSync (fd : Z).

Inductive console_line :=
| LogValidatedBlock (block_size : jsnum)
| LogValidatedTotal (total_size : jsnum)
| LogOpened
| LogClosed
| ErrCaught (e : error)
| ErrUnableToClose (e : error).

(** What one pass of the loop did; kept beside the program state for the
    statements below, the script itself only keeps [built_contents]. *)
Record sample := {
  s_offset : Z;                  (* read_offset *)
  s_block : list Byte.byte;      (* read_buffer when it is decoded *)
  s_text : jsstring;             (* line_read as it is put in the anchor *)
  s_id : jsstring;               (* the random page name *)
  s_href : jsstring              (* the target of the anchor *)
}.

Record state := {
  fd_table : gmap Z (list Byte.byte);   (* open descriptors *)
  reads : nat;                          (* readSync calls so far *)
  draws : nat;                          (* Math.random calls so far *)
  calls : list fs_call;                 (* fs calls, oldest first *)
  console : list console_line;          (* oldest first *)
  response : option (Z * jsstring);     (* r.return(status, body) *)
  var_fd : option Z;                    (* the variable fd *)
  samples : list sample                 (* passes of the loop, oldest first *)
}.

Definition initial_state : state :=
  {| fd_table := ∅; reads := 0; draws := 0; calls := []; console := [];
     response := None; var_fd := None; samples := [] |}.

Definition with_fd_table (t : gmap Z (list Byte.byte)) (st : state) : state :=
  {| fd_table := t; reads := reads st; draws := draws st; calls := calls st;
     console := console st; response := response st; var_fd := var_fd st;
     samples := samples st |}.

Definition with_reads (n : nat) (st : state) : state :=
  {| fd_table := fd_table st; reads := n; draws := draws st; calls := calls st;
     console := console st; response := response st; var_fd := var_fd st;
     samples := samples st |}.

Definition with_draws (n : nat) (st : state) : state :=
  {| fd_table := fd_table st; reads := reads st; draws := n; calls := calls st;
     console := console st; response := response st; var_fd := var_fd st;
     samples := samples st |}.

Definition with_calls (c : list fs_call) (st : state) : state :=
  {| fd_table := fd_table st; reads := reads st; draws := draws st; calls := c;
     console := console st; response := response st; var_fd := var_fd st;
     samples := samples st |}.

Definition with_console (c : list console_line) (st : state) : state :=
  {| fd_table := fd_table st; reads := reads st; draws := draws st; calls := calls st;
     console := c; response := response st; var_fd := var_fd st;
     samples := samples st |}.

Definition with_response (r : option (Z * jsstring)) (st : state) : state :=
  {| fd_table := fd_table st; reads := reads st; draws := draws st; calls := calls st;
     console := console st; response := r; var_fd := var_fd st;
     samples := samples st |}.

Definition with_var_fd (fd : option Z) (st : state) : state :=
  {| fd_table := fd_table st; reads := reads st; draws := draws st; calls := calls st;
     console := console st; response := response st; var_fd := fd;
     samples := samples st |}.

Definition with_samples (l : list sample) (st : state) : state :=
  {| fd_table := fd_table st; reads := reads st; draws := draws st; calls := calls st;
     console := console st; response := response st; var_fd := var_fd st;
     samples := l |}.

(** ** Computations: state, exceptions, fuel *)

Inductive result (A : Type) :=
| Ret (a : A)
| Throw (e : error)
| OutOfFuel.
Arguments Ret {A} a.
Arguments Throw {A} e.
Arguments OutOfFuel {A}.

Definition M (A : Type) : Type := state -> result A * state.

Definition ret {A} (a : A) : M A := fun st => (Ret a, st).

Definition bind {A B} (m : M A) (k : A -> M B) : M B := fun st =>
  match m st with
  | (Ret a, st') => k a st'
  | (Throw e, st') => (Throw e, st')
  | (OutOfFuel, st') => (OutOfFuel, st')
  end.

Definition throw {A} (e : error) : M A := fun st => (Throw e, st).

Definition out_of_fuel {A} : M A := fun st => (OutOfFuel, st).

Notation "x <- m ;; k" := (bind m (fun x => k))
  (at level 20, m at level 99, k at level 200, only parsing).
Notation "' pat <- m ;; k" := (bind m (fun x => match x with pat => k end))
  (at level 20, pat pattern, m at level 99, k at level 200, only parsing).
Notation "m ;;; k" := (bind m (fun _ => k))
  (at level 100, k at level 200, right associativity, only parsing).

(** [try { body } catch (e) { handler e }] *)
Definition try_catch {A} (body : M A) (handler : error -> M A) : M A := fun st =>
  match body st with
  | (Throw e, st') => handler e st'
  | other => other
  end.

(** [try { body } finally { final }]: [final] runs however [body] ends,
    and an exception of [final] replaces the outcome of [body] *)
Definition try_finally {A} (body : M A) (final : M unit) : M A := fun st =>
  match body st with
  | (OutOfFuel, st') => (OutOfFuel, st')
  | (outcome, st') =>
      match final st' with
      | (Ret _, st'') => (outcome, st'')
      | (Throw e, st'') => (Throw e, st'')
      | (OutOfFuel, st'') => (OutOfFuel, st'')
      end
  end.

(** [while (cond) { body }] over the variables [V] of the loop *)
Fixpoint while {V} (fuel : nat) (cond : V -> bool) (body : V -> M V) (v : V) : M V :=
  if cond v then
    match fuel with
    | O => out_of_fuel
    | S fuel' => v' <- body v ;; while fuel' cond body v'
    end
  else ret v.

(** ** What the script calls: [fs], [Buffer], [Math], [console], [r] *)

Definition record_call (c : fs_call) : M unit := fun st =>
  (Ret tt, with_calls (calls st ++ [c]) st).

Definition console_log (l : console_line) : M unit := fun st =>
  (Ret tt, with_console (console st ++ [l]) st).

Definition console_error (l : console_line) : M unit := console_log l.

(** [fs.statSync(path).size] *)
Definition statSync (w : world) (path : jsstring) : M Z :=
  record_call (StatSync path) ;;;
  match files w path with
  | Some bytes => ret (Z.of_nat (length bytes))
  | None => throw (SystemError "stat")
  end.

(** [fs.openSync(path, 'r')] *)
Definition openSync (w : world) (path : jsstring) : M Z :=
  record_call (OpenSync path) ;;;
  match files w path with
  | Some bytes =>
      if open_fails w then throw (SystemError "open")
      else fun st =>
        (Ret (new_fd w), with_fd_table (<[new_fd w := bytes]> (fd_table st)) st)
  | None => throw (SystemError "open")
  end.

(** [Buffer.alloc(size)]: zero-filled; what an engine does with [NaN] is
    left to the world, and sizes above its limit are not considered *)
Definition Buffer_alloc (w : world) (size : jsnum) : M (list Byte.byte) :=
  match size with
  | Num n =>
      if n <? 0 then throw (RangeError "invalid size")
      else ret (replicate (Z.to_nat n) Byte.x00)
  | NaN =>
      if alloc_rejects_nan w then throw (RangeError "invalid size") else ret []
  end.

(** [fs.readSync(fd, buffer, offset, length, position)]: reads what the
    file has from [position] on, at most [length] bytes, into [buffer] at
    [offset]; returns the number of bytes read and the buffer *)
Definition readSync (w : world) (fd : Z) (buffer : list Byte.byte)
    (offset len position : Z) : M (Z * list Byte.byte) := fun st =>
  let st' := with_reads (S (reads st))
               (with_calls (calls st ++ [ReadSync fd offset len position]) st) in
  match fd_table st !! fd with
  | None => (Throw (SystemError "read"), st')
  | Some bytes =>
      if read_fails w (reads st) then (Throw (SystemError "read"), st')
      else if position <? 0 then (Throw (SystemError "read"), st')
      else if (offset <? 0) || (len <? 0)
              || (Z.of_nat (length buffer) <? offset + len)
      then (Throw (RangeError "offset or length out of range"), st')
      else
        let data := take (Z.to_nat len) (drop (Z.to_nat position) bytes) in
        let off := Z.to_nat offset in
        (Ret (Z.of_nat (length data),
              take off buffer ++ data ++ drop (off + length data) buffer), st')
  end.

(** [fs.closeSync(fd)] *)
Definition closeSync (w : world) (fd : Z) : M unit := fun st =>
  let st' := with_calls (calls st ++ [CloseSync fd]) st in
  match fd_table st !! fd with
  | None => (Throw (SystemError "close"), st')
  | Some _ =>
      if close_fails w then (Throw (SystemError "close"), st')
      else (Ret tt, with_fd_table (delete fd (fd_table st)) st')
  end.

(** [Math.random()] *)
Definition Math_random (w : world) : M draw := fun st =>
  (Ret (random w (draws st)), with_draws (S (draws st)) st).

(** [Math.floor(r * size)]: the product of the two doubles, rounded as a
    double, then the floor; in units of [2^-53] *)
Definition floor_times (r : draw) (size : Z) : Z :=
  round_double (numer r * size) / 2 ^ 53.

(** the character of a digit below 36 *)
Definition digit36 (d : Z) : Z := if d <? 10 then 48 + d else 87 + d.

(** [r.toString(36)] rounds up at [digit]: the digits behind it are
    dropped and it is raised by one, unless it is the last digit [z]; then
    it is dropped too and the digit before it is raised *)
Definition carry_into (digit : Z) : list Z * bool :=
  if digit + 1 <? 36 then ([digit + 1], false) else ([], true).

(** The digits behind the point of [r.toString(36)], found as V8 finds
    them and njs after it: [fraction] (in units of [2^-53]) and [delta]
    (half the distance to the next double, in units of [2^-106]) are
    multiplied by 36, each product rounded as a double; the integer part
    of the fraction is the next digit, and the loop goes on while the
    fraction that is left is at least [delta]; where the fraction left is
    above one half (or is one half behind an odd digit) and within [delta]
    of 1, the digits are rounded up.  The result is the digits and whether
    the rounding carried into the integer part.

    [delta] at least doubles in every turn ([radix_digits_fuel]), so 110
    turns are more than the loop makes. *)
Fixpoint radix_digits (fuel : nat) (fraction delta : Z) : list Z * bool :=
  match fuel with
  | O => ([], false)
  | S fuel' =>
      let fraction := round_double (fraction * 36) in
      let delta := round_double (delta * 36) in
      let digit := fraction / 2 ^ 53 in
      let fraction := fraction - digit * 2 ^ 53 in
      if ((2 ^ 52 <? fraction) || ((fraction =? 2 ^ 52) && Z.odd digit))
         && (2 ^ 106 <? round_double (fraction * 2 ^ 53 + delta))
      then carry_into digit
      else if delta <=? fraction * 2 ^ 53 then
        let '(rest, carry) := radix_digits fuel' fraction delta in
        if carry then carry_into digit else (digit :: rest, false)
      else ([digit], false)
  end.

(** [r.toString(36)] for [0 <= r < 1]: the integer part, and the point and
    the digits behind it when the fraction is at least [delta] *)
Definition toString36 (r : draw) : jsstring :=
  let fraction := numer r in
  let delta := 2 ^ Z.log2 (numer r) in
  let '(digits, carry) :=
    if delta <=? fraction * 2 ^ 53 then radix_digits 110 fraction delta
    else ([], false) in
  (if carry then lit "1" else lit "0")
  ++ match digits with
     | [] => []
     | _ => lit "." ++ map digit36 digits
     end.

(** [r.return(status, body)] *)
Definition r_return (status : Z) (body : jsstring) : M unit := fun st =>
  (Ret tt, with_response (Some (status, body)) st).

Definition assign_fd (fd : Z) : M unit := fun st =>
  (Ret tt, with_var_fd (Some fd) st).

Definition note_sample (s : sample) : M unit := fun st =>
  (Ret tt, with_samples (samples st ++ [s]) st).

(** ** [random_content] *)

(** [r.variables]: the arguments of the script by name, each a text *)
Abbreviation arguments := (list (string * jsstring)) (only parsing).

(** the value of [r.variables.name] where [hasOwnProperty(name)] holds *)
Fixpoint own_property (name : string) (variables : arguments) : option jsstring :=
  match variables with
  | [] => None
  | (n, v) :: rest => if String.eqb name n then Some v else own_property name rest
  end.

(** lines 149-197: the arguments *)
Definition validate (variables : arguments)
    : M (jsstring * jsstring * jsnum * jsnum) :=
  bp <- match own_property "base_path" variables with
        | Some v =>
            if bool_decide (v = lit "")
            then throw (RangeError "random_content() error: base_path argument is empty")
            else ret v
        | None => throw (SyntaxError "random_content() error: base_path argument missing")
        end ;;
  let base_path :=
    if bool_decide (slice_from bp (-1) = lit "/") then bp else bp ++ lit "/" in
  corpus <- match own_property "corpus" variables with
            | Some v =>
                if bool_decide (v = lit "")
                then throw (RangeError "random_content() error: corpus argument is empty")
                else ret v
            | None => throw (SyntaxError "random_content() error: corpus argument missing")
            end ;;
  block_size <- match own_property "block_size" variables with
                | Some v =>
                    let block_size := parseInt v in
                    if js_le block_size (Num 0)
                    then throw (RangeError "random_content() error: block_size argument is not a positive integer")
                    else ret block_size
                | None => ret (Num 80)
                end ;;
  total_size <- match own_property "total_size" variables with
                | Some v =>
                    let total_size := parseInt v in
                    if js_le total_size (Num 0)
                    then throw (RangeError "random_content() error: total_size argument is not a positive integer")
                    else ret total_size
                | None => ret (Num 500)
                end ;;
  ret (base_path, corpus, block_size, total_size).

(** the variables the loop changes *)
Record loop_vars := {
  built_contents : jsstring;
  concatenated_text_length : Z;
  loop_limiter : Z;
  read_buffer : list Byte.byte
}.

(** lines 241-257: a block from a random offset, wrapping around *)
Definition read_block (w : world) (fd size block_size : Z)
    (read_buffer : list Byte.byte) : M (Z * list Byte.byte) :=
  r <- Math_random w ;;
  let read_offset := floor_times r size in
  '(bytes_read, read_buffer) <- readSync w fd read_buffer 0 block_size read_offset ;;
  '(bytes_read, read_buffer) <-
    (if bytes_read <? block_size
     then readSync w fd read_buffer bytes_read (block_size - bytes_read) 0
     else ret (bytes_read, read_buffer)) ;;
  ret (read_offset, read_buffer).

(** lines 272-281: the line and the running total *)
Definition trim_to_total (total_size concatenated_text_length : Z)
    (line_read : jsstring) : jsstring * Z :=
  if total_size <? concatenated_text_length + js_length line_read
  then (slice0 line_read
          (total_size - (concatenated_text_length + js_length line_read)),
        total_size)
  else (line_read, concatenated_text_length + js_length line_read).

Definition page_name (r : draw) : jsstring := substring_from 2 (toString36 r).

Definition anchor (href text : jsstring) : jsstring :=
  lit "<a href=" ++ [DQUOTE] ++ href ++ [DQUOTE] ++ lit ">" ++ text ++ lit "</a>".

(** lines 237-294: one pass of the loop *)
Definition pass (w : world) (fd size block_size total_size : Z)
    (base_path : jsstring) (v : loop_vars) : M loop_vars :=
  '(read_offset, read_buffer) <- read_block w fd size block_size (read_buffer v) ;;
  let line_read := toString_utf8 read_buffer in
  let line_read := strip_newlines line_read in
  let line_read := strip_spaces line_read in
  let '(line_read, concatenated_text_length) :=
    trim_to_total total_size (concatenated_text_length v) line_read in
  r <- Math_random w ;;
  let href := base_path ++ page_name r ++ lit ".html" in
  note_sample {| s_offset := read_offset; s_block := read_buffer;
                 s_text := line_read; s_id := page_name r; s_href := href |} ;;;
  ret {| built_contents := built_contents v ++ anchor href line_read;
         concatenated_text_length := concatenated_text_length;
         loop_limiter := loop_limiter v - 1;
         read_buffer := read_buffer |}.

Definition loop_condition (total_size : Z) (v : loop_vars) : bool :=
  (concatenated_text_length v <? total_size) && (0 <? loop_limiter v).

(** lines 225-294.  When [block_size] or [total_size] is [NaN] so is
    [loop_limiter], [loop_limiter > 0] is false and the body never runs. *)
Definition sampling_loop (fuel : nat) (w : world) (fd size : Z)
    (block_size total_size : jsnum) (base_path : jsstring)
    (read_buffer : list Byte.byte) : M jsstring :=
  match block_size, total_size with
  | Num b, Num t =>
      v <- while fuel (loop_condition t) (pass w fd size b t base_path)
             {| built_contents := []; concatenated_text_length := 0;
                loop_limiter := ceil_div t b * 2; read_buffer := read_buffer |} ;;
      ret (built_contents v)
  | _, _ => ret []
  end.

(** lines 299-309: the page around the anchors *)
Definition page_head : jsstring :=
  lit "<!DOCTYPE html>" ++ [LF] ++
  lit "<html lang=" ++ [DQUOTE] ++ lit "en" ++ [DQUOTE] ++ lit ">" ++ [LF] ++
  lit "    <head>" ++ [LF] ++
  lit "        <meta charset=" ++ [DQUOTE] ++ lit "UTF-8" ++ [DQUOTE] ++ lit ">" ++ [LF] ++
  lit "        <title>Replicant EPHI</title>" ++ [LF] ++
  lit "        <link rel=" ++ [DQUOTE] ++ lit "stylesheet" ++ [DQUOTE] ++
  lit " href=" ++ [DQUOTE] ++ lit "/css/style.css" ++ [DQUOTE] ++ lit ">" ++ [LF] ++
  lit "    </head>" ++ [LF] ++
  lit "    <body>" ++ [LF] ++
  lit "        <div id=" ++ [DQUOTE] ++ lit "container" ++ [DQUOTE] ++ lit "><p>".

Definition page_tail : jsstring :=
  lit "</p></div>" ++ [LF] ++ lit "    </body>" ++ [LF] ++ lit "</html>".

Definition page (built_contents : jsstring) : jsstring :=
  page_head ++ built_contents ++ page_tail.

Definition generic_message : jsstring :=
  lit "Replicant data could not be loaded. Please contact a system administrator.".

(** lines 143-311 *)
Definition try_block (fuel : nat) (w : world) (variables : arguments)
    : M unit :=
  '(base_path, corpus, block_size, total_size) <- validate variables ;;
  size <- statSync w corpus ;;
  if size =? 0
  then throw (Error "random_content() error: corpus file size is empty")
  else
    let block_size := Math_min (Num size) block_size in
    console_log (LogValidatedBlock block_size) ;;;
    let total_size := Math_min (Num size) total_size in
    console_log (LogValidatedTotal total_size) ;;;
    fd <- openSync w corpus ;;
    assign_fd fd ;;;
    console_log LogOpened ;;;
    read_buffer <- Buffer_alloc w block_size ;;
    built_contents <-
      sampling_loop fuel w fd size block_size total_size base_path read_buffer ;;
    r_return 200 (page built_contents).

(** lines 314-321 *)
Definition catch_block (e : error) : M unit :=
  console_error (ErrCaught e) ;;;
  r_return 500 generic_message.

(** lines 323-334 *)
Definition finally_block (w : world) : M unit := fun st =>
  match var_fd st with
  | Some fd =>
      try_catch (closeSync w fd ;;; console_log LogClosed)
                (fun inner_error => console_error (ErrUnableToClose inner_error)) st
  | None => (Ret tt, st)
  end.

Definition random_content (fuel : nat) (w : world)
    (variables : arguments) : M unit :=
  try_finally (try_catch (try_block fuel w variables) catch_block)
              (finally_block w).

(** one request, from a fresh state *)
Definition serve (fuel : nat) (w : world) (variables : arguments)
    : result unit * state :=
  random_content fuel w variables initial_state.

(** ** Vocabulary of the statements *)

(** a carriage-return/line-feed sequence, [\r*\n], and a run of them *)
Definition crlf_sequence (k : nat) : jsstring := replicate k CR ++ [LF].

Definition crlf_sequences (ks : list nat) : jsstring := flat_map crlf_sequence ks.

Fixpoint no_adjacent_spaces (s : jsstring) : Prop :=
  match s with
  | c :: t => (c = SP -> head t <> Some SP) /\ no_adjacent_spaces t
  | [] => True
  end.

(** the arguments as the script reads them *)
Definition validate_result (variables : arguments)
    : result (jsstring * jsstring * jsnum * jsnum) :=
  (validate variables initial_state).1.

Definition configured_block_size (variables : arguments) : jsnum :=
  match own_property "block_size" variables with
  | Some v => parseInt v
  | None => Num 80
  end.

Definition configured_total_size (variables : arguments) : jsnum :=
  match own_property "total_size" variables with
  | Some v => parseInt v
  | None => Num 500
  end.

Definition base_path_of (variables : arguments) : jsstring :=
  match own_property "base_path" variables with
  | Some bp => if bool_decide (last bp = Some 47) then bp else bp ++ lit "/"
  | None => []
  end.

Definition corpus_bytes (w : world) (variables : arguments)
    : option (list Byte.byte) :=
  match own_property "corpus" variables with
  | Some path => files w path
  | None => None
  end.

(** a configured size clamped to the length of the corpus *)
Definition effective_size (corpus : list Byte.byte) (configured : jsnum) : jsnum :=
  Math_min (Num (Z.of_nat (length corpus))) configured.

Definition effective_block_size (w : world) (variables : arguments) : jsnum :=
  match corpus_bytes w variables with
  | Some corpus => effective_size corpus (configured_block_size variables)
  | None => NaN
  end.

Definition effective_total_size (w : world) (variables : arguments) : jsnum :=
  match corpus_bytes w variables with
  | Some corpus => effective_size corpus (configured_total_size variables)
  | None => NaN
  end.

(** [ceil(effective_total_size / effective_block_size) * 2], and 0 where
    the loop is not reached with numbers *)
Definition iteration_budget (w : world) (variables : arguments) : Z :=
  match effective_block_size w variables, effective_total_size w variables with
  | Num b, Num t => ceil_div t b * 2
  | _, _ => 0
  end.

(** what a request leaves behind *)
Definition observe (st : state) :=
  (fd_table st, calls st, console st, response st, var_fd st, samples st).

Definition anchors (l : list sample) : jsstring :=
  flat_map (fun s => anchor (s_href s) (s_text s)) l.

Definition total_text (l : list sample) : Z :=
  foldr (fun s n => js_length (s_text s) + n) 0 l.

(** [b] bytes of the corpus from [offset], continued from its start *)
Definition block_at (corpus : list Byte.byte) (b offset : Z) : list Byte.byte :=
  let first := take (Z.to_nat b) (drop (Z.to_nat offset) corpus) in
  first ++ take (Z.to_nat b - length first) corpus.

(** the [i]-th pass of the loop, entered with [acc] characters gathered *)
Definition pass_sample (w : world) (corpus : list Byte.byte) (b t : Z)
    (base_path : jsstring) (i : nat) (acc : Z) (s : sample) : Prop :=
  s_offset s = floor_times (random w (2 * i)) (Z.of_nat (length corpus))
  /\ 0 <= s_offset s
  /\ s_block s = block_at corpus b (s_offset s)
  /\ s_text s = (trim_to_total t acc (normalize (toString_utf8 (s_block s)))).1
  /\ s_id s = page_name (random w (2 * i + 1))
  /\ s_href s = base_path ++ s_id s ++ lit ".html".

Inductive passes (w : world) (corpus : list Byte.byte) (b t : Z)
    (base_path : jsstring) : list sample -> Prop :=
| passes_nil : passes w corpus b t base_path []
| passes_snoc l s :
    passes w corpus b t base_path l ->
    total_text l < t ->
    pass_sample w corpus b t base_path (length l) (total_text l) s ->
    passes w corpus b t base_path (l ++ [s]).

Definition is_read (c : fs_call) : Prop :=
  match c with ReadSync _ _ _ _ => True | _ => False end.

Definition is_close (c : fs_call) : Prop :=
  match c with CloseSync _ => True | _ => False end.

(** no read fails and no draw is negative *)
Definition quiet (w : world) : Prop :=
  (forall n, read_fails w n = false) /\ (forall n, 0 <= numer (random w n)).

Definition closing_line (w : world) : console_line :=
  if close_fails w then ErrUnableToClose (SystemError "close") else LogClosed.

Definition closed_table (w : world) (corpus : list Byte.byte)
    : gmap Z (list Byte.byte) :=
  if close_fails w then {[ new_fd w := corpus ]} else ∅.

(** The ways out of [random_content]. *)
Inductive exit_path (fuel : nat) (w : world) (variables : arguments)
    : result unit -> state -> Prop :=
| Exit_invalid e st :
    validate_result variables = Throw e ->
    observe st = (∅, [], [ErrCaught e], Some (500, generic_message), None, []) ->
    exit_path fuel w variables (Ret tt) st
| Exit_stat_error bp path B0 T0 st :
    validate_result variables = Ret (bp, path, B0, T0) ->
    files w path = None ->
    observe st = (∅, [StatSync path], [ErrCaught (SystemError "stat")],
                  Some (500, generic_message), None, []) ->
    exit_path fuel w variables (Ret tt) st
| Exit_empty_corpus bp path B0 T0 st :
    validate_result variables = Ret (bp, path, B0, T0) ->
    files w path = Some [] ->
    observe st = (∅, [StatSync path],
                  [ErrCaught (Error "random_content() error: corpus file size is empty")],
                  Some (500, generic_message), None, []) ->
    exit_path fuel w variables (Ret tt) st
| Exit_open_error bp path B0 T0 corpus st :
    validate_result variables = Ret (bp, path, B0, T0) ->
    files w path = Some corpus -> corpus <> [] ->
    open_fails w = true ->
    observe st = (∅, [StatSync path; OpenSync path],
                  [LogValidatedBlock (effective_size corpus B0);
                   LogValidatedTotal (effective_size corpus T0);
                   ErrCaught (SystemError "open")],
                  Some (500, generic_message), None, []) ->
    exit_path fuel w variables (Ret tt) st
| Exit_alloc_error bp path B0 T0 corpus st :
    validate_result variables = Ret (bp, path, B0, T0) ->
    files w path = Some corpus -> corpus <> [] ->
    open_fails w = false ->
    effective_size corpus B0 = NaN ->
    alloc_rejects_nan w = true ->
    observe st = (closed_table w corpus,
                  [StatSync path; OpenSync path; CloseSync (new_fd w)],
                  [LogValidatedBlock (effective_size corpus B0);
                   LogValidatedTotal (effective_size corpus T0);
                   LogOpened; ErrCaught (RangeError "invalid size");
                   closing_line w],
                  Some (500, generic_message), Some (new_fd w), []) ->
    exit_path fuel w variables (Ret tt) st
| Exit_no_pass bp path B0 T0 corpus st :
    validate_result variables = Ret (bp, path, B0, T0) ->
    files w path = Some corpus -> corpus <> [] ->
    open_fails w = false ->
    effective_size corpus B0 = NaN /\ alloc_rejects_nan w = false
    \/ effective_size corpus B0 <> NaN /\ effective_size corpus T0 = NaN ->
    observe st = (closed_table w corpus,
                  [StatSync path; OpenSync path; CloseSync (new_fd w)],
                  [LogValidatedBlock (effective_size corpus B0);
                   LogValidatedTotal (effective_size corpus T0);
                   LogOpened; closing_line w],
                  Some (200, page []), Some (new_fd w), []) ->
    exit_path fuel w variables (Ret tt) st
| Exit_read_error bp path B0 T0 corpus b t rs l e st :
    validate_result variables = Ret (bp, path, B0, T0) ->
    files w path = Some corpus -> corpus <> [] ->
    open_fails w = false ->
    effective_size corpus B0 = Num b -> effective_size corpus T0 = Num t ->
    Forall is_read rs ->
    passes w corpus b t bp l ->
    Z.of_nat (length l) < ceil_div t b * 2 ->
    ~ quiet w ->
    observe st = (closed_table w corpus,
                  [StatSync path; OpenSync path] ++ rs ++ [CloseSync (new_fd w)],
                  [LogValidatedBlock (Num b); LogValidatedTotal (Num t);
                   LogOpened; ErrCaught e; closing_line w],
                  Some (500, generic_message), Some (new_fd w), l) ->
    exit_path fuel w variables (Ret tt) st
| Exit_completed bp path B0 T0 corpus b t rs l st :
    validate_result variables = Ret (bp, path, B0, T0) ->
    files w path = Some corpus -> corpus <> [] ->
    open_fails w = false ->
    effective_size corpus B0 = Num b -> effective_size corpus T0 = Num t ->
    Forall is_read rs ->
    passes w corpus b t bp l ->
    total_text l <= t ->
    Z.of_nat (length l) <= ceil_div t b * 2 ->
    total_text l = t \/ Z.of_nat (length l) = ceil_div t b * 2 ->
    observe st = (closed_table w corpus,
                  [StatSync path; OpenSync path] ++ rs ++ [CloseSync (new_fd w)],
                  [LogValidatedBlock (Num b); LogValidatedTotal (Num t);
                   LogOpened; closing_line w],
                  Some (200, page (anchors l)), Some (new_fd w), l) ->
    exit_path fuel w variables (Ret tt) st
| Exit_out_of_fuel bp path B0 T0 corpus b t rs l st :
    validate_result variables = Ret (bp, path, B0, T0) ->
    files w path = Some corpus -> corpus <> [] ->
    open_fails w = false ->
    effective_size corpus B0 = Num b -> effective_size corpus T0 = Num t ->
    Forall is_read rs ->
    passes w corpus b t bp l ->
    (fuel < Z.to_nat (ceil_div t b * 2))%nat ->
    observe st = (<[new_fd w := corpus]> ∅,
                  [StatSync path; OpenSync path] ++ rs,
                  [LogValidatedBlock (Num b); LogValidatedTotal (Num t); LogOpened],
                  None, Some (new_fd w), l) ->
    exit_path fuel w variables OutOfFuel st.

(** the outcome and the final state of one request *)
Definition outcome (fuel : nat) (w : world) (variables : arguments)
    : result unit :=
  (serve fuel w variables).1.

Definition final_state (fuel : nat) (w : world) (variables : arguments)
    : state :=
  (serve fuel w variables).2.

(** the [try] and [catch] blocks, before [finally] *)
Definition attempt (fuel : nat) (w : world) (variables : arguments)
    : result unit * state :=
  try_catch (try_block fuel w variables) catch_block initial_state.

(** a draw of [Math.random()]: a value in [0, 1) *)
Definition wf_draw (r : draw) : Prop := 0 <= numer r < 2 ^ 53.

Definition wf_world (w : world) : Prop := forall n, wf_draw (random w n).

(** digits and lower-case letters *)
Definition is_base36_char (c : Z) : Prop := 48 <= c <= 57 \/ 97 <= c <= 122.

(** a request that passes validation against a corpus that can be read *)
Definition healthy (w : world) (variables : arguments) : Prop :=
  (exists bp, own_property "base_path" variables = Some bp /\ bp <> [])
  /\ (exists path corpus,
        own_property "corpus" variables = Some path /\ path <> []
        /\ files w path = Some corpus /\ corpus <> [])
  /\ js_gt (configured_block_size variables) (Num 0) = true
  /\ js_gt (configured_total_size variables) (Num 0) = true
  /\ open_fails w = false
  /\ quiet w.

(** the same world, where [closeSync] fails or not *)
Definition with_close_fails (flag : bool) (w : world) : world :=
  {| files := files w; open_fails := open_fails w; read_fails := read_fails w;
     close_fails := flag; alloc_rejects_nan := alloc_rejects_nan w;
     new_fd := new_fd w; random := random w |}.

(** ** States met in the proofs *)

(** [st] after some reads and draws *)
Definition after_reads (n : nat) (d : nat) (rs : list fs_call) (st : state) : state :=
  with_reads n (with_draws d (with_calls (calls st ++ rs) st)).

(** the state in the loop, [l] being the passes made since [st0] *)
Definition loop_state (st0 : state) (l : list sample) (st : state) : Prop :=
  exists n d rs, Forall is_read rs
    /\ st = with_samples l (after_reads n d rs st0).

Definition loop_inv (w : world) (corpus : list Byte.byte) (b t : Z)
    (base_path : jsstring) (st0 : state) (v : loop_vars) (st : state) : Prop :=
  exists l, loop_state st0 l st
    /\ draws st = (2 * length l)%nat
    /\ built_contents v = anchors l
    /\ concatenated_text_length v = total_text l
    /\ total_text l <= t
    /\ loop_limiter v = ceil_div t b * 2 - Z.of_nat (length l)
    /\ 0 <= loop_limiter v
    /\ length (read_buffer v) = Z.to_nat b
    /\ passes w corpus b t base_path l.

(** [st] after the [finally] block closed [fd] *)
Definition closed (w : world) (fd : Z) (st : state) : state :=
  with_console (console st ++ [closing_line w])
    (with_fd_table (if close_fails w then fd_table st else delete fd (fd_table st))
       (with_calls (calls st ++ [CloseSync fd]) st)).

(** the state in which the buffer is allocated *)
Definition entry_state (w : world) (path : jsstring) (corpus : list Byte.byte)
    (B T : jsnum) : state :=
  {| fd_table := <[new_fd w := corpus]> ∅; reads := 0; draws := 0;
     calls := [StatSync path; OpenSync path];
     console := [LogValidatedBlock B; LogValidatedTotal T; LogOpened];
     response := None; var_fd := Some (new_fd w); samples := [] |}.

(** ** Sample requests *)

Definition corpus_path : jsstring := lit "/etc/nginx/data/bladerunner.txt".

Definition request (l : list (string * string)) : arguments :=
  map (fun '(k, v) => (k, lit v)) l.

Definition sample_draw (n : nat) : draw :=
  {| numer := 2 ^ 50 * Z.of_nat (n mod 7) + 1 |}.

Definition zero_draw : draw := {| numer := 0 |}.

(** a world with one file, where nothing fails *)
Definition plain_world (bytes : list Byte.byte) (random : nat -> draw) : world :=
  {| files := fun p => if bool_decide (p = corpus_path) then Some bytes else None;
     open_fails := false; read_fails := fun _ => false; close_fails := false;
     alloc_rejects_nan := true; new_fd := 3; random := random |}.

Definition ephi_request : arguments :=
  request [("base_path", "/ephi"); ("corpus", "/etc/nginx/data/bladerunner.txt");
           ("block_size", "5"); ("total_size", "12")]%string.

Definition tears_in_rain : list Byte.byte :=
  list_byte_of_string "All those moments will be lost in time, like tears in rain.".

Definition wrapping_draw (n : nat) : draw :=
  {| numer := 2 ^ 53 - 2 ^ 48 |}.

Definition zero_second_draw (n : nat) : draw :=
  if (n =? 1)%nat then zero_draw else sample_draw n.

(** a draw whose product with 59 is rounded up to 5 *)
Definition rounded_draw : draw := {| numer := 763321970740762 |}.

(** a draw that is rendered as [0.undefined] *)
Definition undefined_draw : draw := {| numer := 7668436476503526 |}.

Definition undefined_second_draw (n : nat) : draw :=
  if (n =? 1)%nat then undefined_draw else sample_draw n.

Definition newline_corpus : list Byte.byte := replicate 40 Byte.x0a.

Definition newline_request : arguments :=
  request [("base_path", "/ephi/"); ("corpus", "/etc/nginx/data/bladerunner.txt");
           ("block_size", "8"); ("total_size", "20")]%string.

Definition markup_corpus : list Byte.byte :=
  list_byte_of_string "<b>Tom & Jerry</b> said " ++ [Byte.x22]
  ++ list_byte_of_string "hi" ++ [Byte.x22].

Definition default_request : arguments :=
  request [("base_path", "/ephi/");
           ("corpus", "/etc/nginx/data/bladerunner.txt")]%string.

Definition letters_corpus : list Byte.byte := replicate 500 Byte.x61.

Definition large_request : arguments :=
  request [("base_path", "/ephi/"); ("corpus", "/etc/nginx/data/bladerunner.txt");
           ("total_size", "10000")]%string.

Definition unparsable_request : arguments :=
  request [("base_path", "/ephi/"); ("corpus", "/etc/nginx/data/bladerunner.txt");
           ("block_size", "abc")]%string.

Definition unparsable_total_request : arguments :=
  request [("base_path", "/ephi/"); ("corpus", "/etc/nginx/data/bladerunner.txt");
           ("total_size", "abc")]%string.

(** an engine whose [Buffer.alloc] lets [NaN] through *)
Definition lenient_world (bytes : list Byte.byte) (random : nat -> draw) : world :=
  {| files := files (plain_world bytes random); open_fails := false;
     read_fails := fun _ => false; close_fails := false;
     alloc_rejects_nan := false; new_fd := 3; random := random |}.

(** ** Further vocabulary *)

(** the [readSync] calls of a pass that reads at [offset]: the block, and,
    when the file ends before the block is full, the rest of the block from
    the start of the file *)
Definition block_reads (fd size block_size offset : Z) : list fs_call :=
  let bytes_read := Z.min block_size (size - offset) in
  ReadSync fd 0 block_size offset
  :: (if bytes_read <? block_size
      then [ReadSync fd bytes_read (block_size - bytes_read) 0] else []).

(** the reads of the passes [l] *)
Definition reads_of (fd size block_size : Z) (l : list sample) : list fs_call :=
  flat_map (fun s => block_reads fd size block_size (s_offset s)) l.

(** every draw of [Math.random()] is in [0, 1) *)
Definition draws_in_range (w : world) : Prop :=
  forall n, 0 <= numer (random w n) < 2 ^ 53.

(** a character that neither replacement of the script touches *)
Definition is_visible (c : Z) : Prop := c <> CR /\ c <> LF /\ c <> SP.

(** the code units of a list of code points *)
Definition units (l : list Z) : nat := length (concat (map utf16 l)).

(** the input a pending sequence has taken without output: a sequence that
    is completed or abandoned gives at most two code units for it *)
Definition pending (d : decoder) : nat :=
  match bytes_needed d with O => 0 | S _ => 1 end.


(** a decimal digit *)
Definition is_digit (c : Z) : Prop := 48 <= c <= 57.

(** ** Further sample requests *)

Definition corpus_only_request : arguments :=
  request [("corpus", "/etc/nginx/data/bladerunner.txt")]%string.

Definition zero_block_request : arguments :=
  request [("base_path", "/ephi/"); ("corpus", "/etc/nginx/data/bladerunner.txt");
           ("block_size", "0"); ("total_size", "-5")]%string.

(** a world whose corpus can be examined but not opened *)
Definition locked_world (bytes : list Byte.byte) (random : nat -> draw) : world :=
  {| files := files (plain_world bytes random); open_fails := true;
     read_fails := fun _ => false; close_fails := false;
     alloc_rejects_nan := true; new_fd := 3; random := random |}.

(** a world where the [k]-th [readSync] fails *)
Definition failing_read_world (k : nat) (bytes : list Byte.byte)
    (random : nat -> draw) : world :=
  {| files := files (plain_world bytes random); open_fails := false;
     read_fails := fun n => (n =? k)%nat; close_fails := false;
     alloc_rejects_nan := true; new_fd := 3; random := random |}.

(** a request whose sizes carry a unit *)
Definition units_request : arguments :=
  request [("base_path", "/ephi/"); ("corpus", "/etc/nginx/data/bladerunner.txt");
           ("block_size", " 5 bytes"); ("total_size", "12.5")]%string.

(** ** The nginx configuration (default.conf) *)

(** lines 17-28: the variables the labyrinth location sets *)
Definition nginx_variables : arguments :=
  request [("base_path", "/ephi/"); ("corpus", "/etc/nginx/data/bladerunner.txt");
           ("block_size", "80"); ("total_size", "500")]%string.







(** ** Tactics *)

(** the ways out of a run, from [exit_path] *)
Ltac exit_cases H :=
  destruct H
    as [e st Hv Hobs|bp path B0 T0 st Hv Hf Hobs|bp path B0 T0 st Hv Hf Hobs
       |bp path B0 T0 corpus st Hv Hf Hne Hopen Hobs
       |bp path B0 T0 corpus st Hv Hf Hne Hopen HB Hrej Hobs
       |bp path B0 T0 corpus st Hv Hf Hne Hopen Hnan Hobs
       |bp path B0 T0 corpus b t rs l e st Hv Hf Hne Hopen HB HT Hrs Hp Hlen Hq Hobs
       |bp path B0 T0 corpus b t rs l st Hv Hf Hne Hopen HB HT Hrs Hp Hle Hlen Hend Hobs
       |bp path B0 T0 corpus b t rs l st Hv Hf Hne Hopen HB HT Hrs Hp Hshort Hobs].

(** which line of a known console [H] speaks of *)
Ltac console_cases H :=
  repeat (apply elem_of_cons in H as [H|H]; [try discriminate H|]);
  try (by apply elem_of_nil in H).

(** induction on the length of a text *)
Ltac length_induction s IH :=
  let n := fresh "n" in
  let Hn := fresh "Hn" in
  remember (length s) as n eqn:Hn; revert s Hn;
  induction n as [n IH] using lt_wf_ind; intros s Hn; subst n.

(** Literals and the pure steps of the loop stay folded under [simpl]. *)
Arguments lit : simpl never.
Arguments anchor : simpl never.
Arguments page : simpl never.
Arguments page_name : simpl never.
Arguments generic_message : simpl never.
Arguments toString_utf8 : simpl never.
Arguments strip_newlines : simpl never.
Arguments strip_spaces : simpl never.
Arguments normalize : simpl never.
Arguments trim_to_total : simpl never.
Arguments block_at : simpl never.
Arguments floor_times : simpl never.
Arguments ceil_div : simpl never.
Arguments effective_size : simpl never.

(** * Proofs *)

(** ** Doubles *)

(** what [round_double] does above 53 significant bits *)
Lemma round_double_cases (m : Z) :
  let s := Z.log2 m - 52 in
  s <= 0 /\ round_double m = m
  \/ 0 < s
     /\ (round_double m = m / 2 ^ s * 2 ^ s
         \/ round_double m = (m / 2 ^ s + 1) * 2 ^ s
            /\ 2 ^ (s - 1) <= m mod 2 ^ s).
Proof.
  intros s. unfold round_double. fold s.
  destruct (Z.leb_spec s 0) as [Hs|Hs]; [by left|right]. split; [done|].
  destruct (Z.ltb_spec (2 ^ (s - 1)) (m mod 2 ^ s)) as [Hlt|Hge]; simpl.
  { right. split; [done|lia]. }
  destruct (Z.eqb_spec (m mod 2 ^ s) (2 ^ (s - 1))) as [E|_]; simpl; [|by left].
  destruct (Z.odd (m / 2 ^ s)); [|by left]. right. split; [done|lia].
Qed.

Lemma round_double_nonneg (m : Z) : 0 <= m -> 0 <= round_double m.
Proof.
  intros Hm. destruct (round_double_cases m) as [[_ ->]|[Hs H]]; [done|].
  assert (0 < 2 ^ (Z.log2 m - 52)) by (apply Z.pow_pos_nonneg; lia).
  assert (0 <= m / 2 ^ (Z.log2 m - 52)) by (apply Z.div_pos; lia).
  destruct H as [->|[-> _]]; nia.
Qed.

(** rounding does not pass a number of the grid *)
Lemma round_double_le (x y e : Z) :
  0 <= x <= y -> Z.log2 x - 52 <= e -> (2 ^ e | y) -> round_double x <= y.
Proof.
  intros Hxy He [k Hk].
  destruct (round_double_cases x) as [[_ ->]|[Hs H]]; [lia|].
  set (s := Z.log2 x - 52) in *.
  assert (Hp : 0 < 2 ^ s) by (apply Z.pow_pos_nonneg; lia).
  pose proof (Z.div_mod x (2 ^ s) ltac:(lia)) as Hdiv.
  pose proof (Z.mod_pos_bound x (2 ^ s) Hp) as Hrem.
  assert (Hy : exists k', y = k' * 2 ^ s).
  { exists (k * 2 ^ (e - s)). rewrite Hk, <- Z.mul_assoc, <- Z.pow_add_r by lia.
    do 2 f_equal. lia. }
  destruct Hy as [k' Hy].
  destruct H as [->|[-> Hhalf]]; [nia|].
  assert (0 < 2 ^ (s - 1)) by (apply Z.pow_pos_nonneg; lia).
  assert (x / 2 ^ s < k') by nia. nia.
Qed.

Lemma round_double_exact (m e : Z) :
  0 <= m -> Z.log2 m - 52 <= e -> (2 ^ e | m) -> round_double m = m.
Proof.
  intros Hm He [k Hk].
  destruct (round_double_cases m) as [[_ ->]|[Hs H]]; [done|].
  set (s := Z.log2 m - 52) in *.
  assert (Hp : 0 < 2 ^ s) by (apply Z.pow_pos_nonneg; lia).
  assert (Hmod : m mod 2 ^ s = 0).
  { apply Z.mod_divide; [lia|]. exists (k * 2 ^ (e - s)).
    rewrite Hk, <- Z.mul_assoc, <- Z.pow_add_r by lia. do 2 f_equal. lia. }
  pose proof (Z.div_mod m (2 ^ s) ltac:(lia)) as Hdiv.
  assert (0 < 2 ^ (s - 1)) by (apply Z.pow_pos_nonneg; lia).
  destruct H as [->|[_ Hhalf]]; lia.
Qed.

(** above 53 bits the result is on the grid *)
Lemma round_double_grid (m : Z) :
  0 < Z.log2 m - 52 -> (2 ^ (Z.log2 m - 52) | round_double m).
Proof.
  intros Hs. destruct (round_double_cases m) as [[? _]|[_ H]]; [lia|].
  destruct H as [->|[-> _]]; by eexists.
Qed.

(** the product of a double below 1 and an integer rounds below the integer *)
Lemma round_double_below (m size : Z) :
  0 <= m -> 0 < size -> m + size <= 2 ^ 53 * size ->
  round_double m < 2 ^ 53 * size.
Proof.
  intros Hm Hsize Hle.
  destruct (round_double_cases m) as [[_ ->]|[Hs H]]; [lia|].
  set (s := Z.log2 m - 52) in *.
  assert (Hp : 0 < 2 ^ s) by (apply Z.pow_pos_nonneg; lia).
  pose proof (Z.div_mod m (2 ^ s) ltac:(lia)) as Hdiv.
  pose proof (Z.mod_pos_bound m (2 ^ s) Hp) as Hrem.
  destruct H as [->|[-> Hhalf]]; [lia|].
  assert (Hm0 : 0 < m).
  { destruct (Z.eq_dec m 0) as [->|]; [|lia]. unfold s in Hs. simpl in Hs. lia. }
  pose proof (Z.log2_spec m Hm0) as [Hlog _].
  assert (E : 2 ^ Z.log2 m = 2 ^ (s - 1) * 2 ^ 53).
  { rewrite <- Z.pow_add_r by lia. f_equal. lia. }
  assert (E2 : 2 ^ s = 2 * 2 ^ (s - 1)).
  { rewrite <- (Z.pow_succ_r 2 (s - 1)) by lia. f_equal. lia. }
  assert (2 ^ (s - 1) < size) by nia.
  nia.
Qed.

(** rounding keeps more than half *)
Lemma round_double_half (m : Z) : 0 <= m -> m <= 2 * round_double m.
Proof.
  intros Hm. destruct (round_double_cases m) as [[_ ->]|[Hs H]]; [lia|].
  set (s := Z.log2 m - 52) in *.
  assert (Hp : 0 < 2 ^ s) by (apply Z.pow_pos_nonneg; lia).
  pose proof (Z.div_mod m (2 ^ s) ltac:(lia)) as Hdiv.
  pose proof (Z.mod_pos_bound m (2 ^ s) Hp) as Hrem.
  assert (Hm0 : 0 < m).
  { destruct (Z.eq_dec m 0) as [->|]; [|lia]. unfold s in Hs. simpl in Hs. lia. }
  pose proof (Z.log2_spec m Hm0) as [Hlog _].
  assert (Hq : 1 <= m / 2 ^ s).
  { apply Z.div_le_lower_bound; [lia|].
    assert (2 ^ s <= 2 ^ Z.log2 m) by (apply Z.pow_le_mono_r; lia). lia. }
  destruct H as [->|[-> _]]; nia.
Qed.

Lemma floor_times_nonneg (r : draw) (size : Z) :
  0 <= numer r -> 0 <= size -> 0 <= floor_times r size.
Proof.
  intros Hr Hsize. unfold floor_times.
  apply Z.div_pos; [apply round_double_nonneg; nia|lia].
Qed.

(** ** Replacing matches *)
Section Replace.
Variable m : matcher.
Variable rep : jsstring.
Hypothesis m_shrinks : forall s r, m s = Some r -> (length r < length s)%nat.

Lemma replace_all_fuel (f1 f2 : nat) (s : jsstring) :
  (length s <= f1)%nat -> (length s <= f2)%nat ->
  replace_all m rep f1 s = replace_all m rep f2 s.
Proof.
  revert f2 s. induction f1 as [|f1 IH]; intros f2 s H1 H2.
  - destruct s; simpl in *; [|lia]. destruct f2; reflexivity.
  - destruct f2 as [|f2].
    + destruct s; simpl in *; [reflexivity|lia].
    + destruct s as [|c t]; [reflexivity|]. simpl.
      destruct (m (c :: t)) as [r|] eqn:Hm.
      * apply m_shrinks in Hm. simpl in *. f_equal. apply IH; lia.
      * f_equal. simpl in *. apply IH; lia.
Qed.

Lemma js_replace_match (s r : jsstring) :
  s <> [] -> m s = Some r -> js_replace m rep s = rep ++ js_replace m rep r.
Proof.
  intros Hs Hm. destruct s as [|c t]; [done|].
  unfold js_replace. simpl. rewrite Hm. f_equal.
  apply m_shrinks in Hm. simpl in Hm. apply replace_all_fuel; lia.
Qed.

Lemma js_replace_skip (c : Z) (t : jsstring) :
  m (c :: t) = None -> js_replace m rep (c :: t) = c :: js_replace m rep t.
Proof. intros Hm. unfold js_replace. simpl. rewrite Hm. reflexivity. Qed.

End Replace.

Lemma crlf_run_shrinks (s : jsstring) (c : option jsstring) (r : jsstring) :
  crlf_run c s = Some r -> c = Some r \/ (length r < length s)%nat.
Proof.
  revert c. induction s as [|x t IH]; intros c H; simpl in H.
  - by left.
  - destruct (x =? CR).
    + destruct (IH _ H); [by left | right; simpl; lia].
    + destruct (x =? LF).
      * destruct (IH _ H) as [E|E]; right; simpl; [|lia].
        injection E as ->. lia.
      * by left.
Qed.

Lemma re_newlines_shrinks (s r : jsstring) :
  re_newlines s = Some r -> (length r < length s)%nat.
Proof. intros H. by destruct (crlf_run_shrinks _ _ _ H). Qed.

Lemma skip_spaces_length (s : jsstring) : (length (skip_spaces s) <= length s)%nat.
Proof.
  induction s as [|x t IH]; simpl; [lia|].
  destruct (x =? SP); simpl; lia.
Qed.

Lemma re_spaces_shrinks (s r : jsstring) :
  re_spaces s = Some r -> (length r < length s)%nat.
Proof.
  destruct s as [|x t]; simpl; [done|].
  destruct (x =? SP); [|done]. intros [= <-].
  pose proof (skip_spaces_length t). lia.
Qed.

Lemma strip_newlines_match (s r : jsstring) :
  s <> [] -> re_newlines s = Some r -> strip_newlines s = SP :: strip_newlines r.
Proof. intros. unfold strip_newlines. by rewrite (js_replace_match _ _ re_newlines_shrinks s r). Qed.

Lemma strip_newlines_skip (c : Z) (t : jsstring) :
  re_newlines (c :: t) = None -> strip_newlines (c :: t) = c :: strip_newlines t.
Proof. intros. unfold strip_newlines. by rewrite js_replace_skip. Qed.

Lemma strip_spaces_match (s r : jsstring) :
  s <> [] -> re_spaces s = Some r -> strip_spaces s = SP :: strip_spaces r.
Proof. intros. unfold strip_spaces. by rewrite (js_replace_match _ _ re_spaces_shrinks s r). Qed.

Lemma strip_spaces_skip (c : Z) (t : jsstring) :
  re_spaces (c :: t) = None -> strip_spaces (c :: t) = c :: strip_spaces t.
Proof. intros. unfold strip_spaces. by rewrite js_replace_skip. Qed.

(** *** line feeds *)

Lemma crlf_run_no_lf (s : jsstring) (c : option jsstring) :
  LF ∉ s -> crlf_run c s = c.
Proof.
  induction s as [|x t IH]; intros H; simpl; [done|].
  apply not_elem_of_cons in H as [Hx Ht].
  destruct (x =? CR); [by apply IH|].
  destruct (Z.eqb_spec x LF); [congruence|done].
Qed.

Lemma strip_newlines_no_lf (s : jsstring) : LF ∉ s -> strip_newlines s = s.
Proof.
  induction s as [|x t IH]; intros H; [done|].
  rewrite strip_newlines_skip.
  - apply not_elem_of_cons in H as [_ Ht]. by rewrite IH.
  - by apply crlf_run_no_lf.
Qed.

Lemma crlf_run_committed (s x : jsstring) : is_Some (crlf_run (Some x) s).
Proof.
  revert x. induction s as [|y t IH]; intros x; simpl; [by eexists|].
  destruct (y =? CR); [apply IH|]. destruct (y =? LF); [apply IH|by eexists].
Qed.

Lemma strip_newlines_lf_free (s : jsstring) : LF ∉ strip_newlines s.
Proof.
  remember (length s) as n eqn:Hn. revert s Hn.
  induction n as [n IH] using lt_wf_ind. intros s ->.
  destruct s as [|x t]; [apply not_elem_of_nil|].
  destruct (re_newlines (x :: t)) as [r|] eqn:Hm.
  - rewrite (strip_newlines_match _ r); [|done|done].
    apply not_elem_of_cons. split; [done|].
    apply (IH (length r)); [|done]. by apply re_newlines_shrinks in Hm.
  - rewrite strip_newlines_skip; [|done].
    apply not_elem_of_cons. split.
    + intros <-. change (re_newlines (LF :: t)) with (crlf_run (Some t) t) in Hm.
      destruct (crlf_run_committed t t) as [? E]. congruence.
    + apply (IH (length t)); [simpl; lia|done].
Qed.

Lemma crlf_run_app_stop (a : jsstring) (x : Z) (w : jsstring) (c : option jsstring) :
  x <> CR -> x <> LF ->
  crlf_run ((.++ x :: w) <$> c) (a ++ x :: w) = (.++ x :: w) <$> crlf_run c a.
Proof.
  intros Hcr Hlf. revert c. induction a as [|y t IH]; intros c; simpl.
  - destruct (Z.eqb_spec x CR); [done|]. by destruct (Z.eqb_spec x LF).
  - destruct (y =? CR); [apply IH|].
    destruct (y =? LF); [apply (IH (Some t))|done].
Qed.

Lemma strip_newlines_app_stop (a : jsstring) (x : Z) (w : jsstring) :
  x <> CR -> x <> LF ->
  strip_newlines (a ++ x :: w) = strip_newlines (a ++ [x]) ++ strip_newlines w.
Proof.
  intros Hcr Hlf.
  remember (length a) as n eqn:Hn. revert a Hn.
  induction n as [n IH] using lt_wf_ind. intros a ->.
  assert (Hstop : forall v, re_newlines (a ++ x :: v) = (.++ x :: v) <$> crlf_run None a).
  { intros v. apply (crlf_run_app_stop a x v None Hcr Hlf). }
  destruct (crlf_run None a) as [r|] eqn:Hm.
  - assert (length r < length a)%nat by (by apply re_newlines_shrinks).
    rewrite (strip_newlines_match (a ++ x :: w) (r ++ x :: w)).
    + rewrite (strip_newlines_match (a ++ [x]) (r ++ [x])).
      * simpl. f_equal. by apply (IH (length r)).
      * by destruct a.
      * apply Hstop.
    + by destruct a.
    + apply Hstop.
  - destruct a as [|y t]; simpl.
    + rewrite !strip_newlines_skip; [done| |]; apply (Hstop []) || apply (Hstop w).
    + rewrite !strip_newlines_skip; [|apply (Hstop [])|apply (Hstop w)].
      simpl. f_equal. apply (IH (length t)); simpl; [lia|done].
Qed.

Lemma strip_newlines_app (u w : jsstring) :
  last u <> Some CR -> last u <> Some LF ->
  strip_newlines (u ++ w) = strip_newlines u ++ strip_newlines w.
Proof.
  intros Hcr Hlf. destruct u as [|y t] using rev_ind; [done|].
  rewrite last_snoc in Hcr, Hlf.
  rewrite <- app_assoc. simpl. apply strip_newlines_app_stop; congruence.
Qed.

Lemma crlf_run_sequence (k : nat) (rest : jsstring) (c : option jsstring) :
  crlf_run c (crlf_sequence k ++ rest) = crlf_run (Some rest) rest.
Proof. induction k as [|k IH]; [done|]. apply IH. Qed.

Lemma crlf_run_sequences (ks : list nat) (v : jsstring) (c : option jsstring) :
  ks <> [] ->
  crlf_run c (crlf_sequences ks ++ v) = crlf_run (Some v) v.
Proof.
  intros Hks. revert c. induction ks as [|k ks IH]; [done|]. intros c.
  simpl. rewrite <- app_assoc, crlf_run_sequence.
  destruct ks as [|k' ks']; [done|]. by apply IH.
Qed.

Lemma crlf_run_no_sequence (v : jsstring) (c : option jsstring) :
  (forall k v', v <> crlf_sequence k ++ v') -> crlf_run c v = c.
Proof.
  induction v as [|x t IH]; intros Hv; simpl; [done|].
  destruct (Z.eqb_spec x CR) as [->|].
  - apply IH. intros k v' ->. by apply (Hv (S k) v').
  - destruct (Z.eqb_spec x LF) as [->|]; [|done].
    by destruct (Hv 0%nat t).
Qed.

Lemma strip_newlines_run (u : jsstring) (ks : list nat) (v : jsstring) :
  ks <> [] -> last u <> Some CR -> last u <> Some LF ->
  (forall k v', v <> crlf_sequence k ++ v') ->
  strip_newlines (u ++ crlf_sequences ks ++ v)
  = strip_newlines u ++ [SP] ++ strip_newlines v.
Proof.
  intros Hks Hcr Hlf Hv. rewrite strip_newlines_app by done. f_equal.
  apply strip_newlines_match.
  - destruct ks as [|k ks]; [done|]. simpl. destruct k; done.
  - unfold re_newlines. rewrite crlf_run_sequences by done.
    by apply crlf_run_no_sequence.
Qed.

(** *** spaces *)

Lemma skip_spaces_head (s : jsstring) : head (skip_spaces s) <> Some SP.
Proof.
  induction s as [|x t IH]; simpl; [done|].
  destruct (Z.eqb_spec x SP); [done|]. simpl. congruence.
Qed.

Lemma skip_spaces_id (s : jsstring) : head s <> Some SP -> skip_spaces s = s.
Proof.
  destruct s as [|x t]; simpl; [done|].
  destruct (Z.eqb_spec x SP); congruence.
Qed.

Lemma skip_spaces_suffix (s : jsstring) : skip_spaces s `suffix_of` s.
Proof.
  induction s as [|x t IH]; simpl; [done|].
  destruct (x =? SP); [by apply suffix_cons_r|done].
Qed.

Lemma strip_spaces_head (s : jsstring) :
  head s <> Some SP -> head (strip_spaces s) <> Some SP.
Proof.
  destruct s as [|x t]; [done|]. intros H.
  rewrite strip_spaces_skip; [done|].
  simpl in *. destruct (Z.eqb_spec x SP); congruence.
Qed.

Lemma strip_spaces_single_spaced (s : jsstring) : no_adjacent_spaces (strip_spaces s).
Proof.
  remember (length s) as n eqn:Hn. revert s Hn.
  induction n as [n IH] using lt_wf_ind. intros s ->.
  destruct s as [|x t]; [done|].
  destruct (re_spaces (x :: t)) as [r|] eqn:Hm.
  - rewrite (strip_spaces_match _ r); [|done|done]. split.
    + intros _. apply strip_spaces_head.
      simpl in Hm. destruct (x =? SP); [|done]. injection Hm as <-.
      apply skip_spaces_head.
    + apply (IH (length r)); [|done]. by apply re_spaces_shrinks in Hm.
  - rewrite strip_spaces_skip; [|done]. split.
    + intros ->. done.
    + apply (IH (length t)); [simpl; lia|done].
Qed.

Lemma strip_spaces_fixed (s : jsstring) : no_adjacent_spaces s -> strip_spaces s = s.
Proof.
  induction s as [|x t IH]; [done|]. intros [Hx Ht].
  destruct (Z.eqb_spec x SP) as [->|Hne].
  - rewrite (strip_spaces_match _ t); [by rewrite IH|done|].
    change (re_spaces (SP :: t)) with (Some (skip_spaces t)).
    by rewrite skip_spaces_id by auto.
  - rewrite strip_spaces_skip; [by rewrite IH|].
    simpl. by destruct (Z.eqb_spec x SP).
Qed.

Lemma strip_spaces_no_sp (s : jsstring) : SP ∉ s -> strip_spaces s = s.
Proof.
  intros H. apply strip_spaces_fixed.
  induction s as [|x t IH]; [done|].
  apply not_elem_of_cons in H as [Hx Ht]. split; [congruence|auto].
Qed.

Lemma strip_spaces_elem (x : Z) (s : jsstring) :
  x ∈ strip_spaces s -> x = SP \/ x ∈ s.
Proof.
  remember (length s) as n eqn:Hn. revert s Hn.
  induction n as [n IH] using lt_wf_ind. intros s ->.
  destruct s as [|y t]; [by right|].
  destruct (re_spaces (y :: t)) as [r|] eqn:Hm.
  - rewrite (strip_spaces_match _ r); [|done|done].
    intros [->|H]%elem_of_cons; [by left|].
    apply (IH (length r)) in H; [| by apply re_spaces_shrinks in Hm | done].
    destruct H as [->|H]; [by left|right].
    simpl in Hm. destruct (y =? SP); [|done]. injection Hm as <-.
    apply elem_of_cons. right.
    destruct (skip_spaces_suffix t) as [p E]. rewrite E. apply elem_of_app. by right.
  - rewrite strip_spaces_skip; [|done].
    intros [->|H]%elem_of_cons; [right; by left|].
    apply (IH (length t)) in H; [|simpl; lia|done].
    destruct H; [by left|right; by right].
Qed.

Lemma skip_spaces_app_stop (a : jsstring) (x : Z) (w : jsstring) :
  x <> SP ->
  exists a', (length a' <= length a)%nat /\
    forall v, skip_spaces (a ++ x :: v) = a' ++ x :: v.
Proof.
  intros Hx. induction a as [|y t IH]; simpl.
  - exists []. split; [done|]. intros v. simpl. by destruct (Z.eqb_spec x SP).
  - destruct (y =? SP).
    + destruct IH as (a' & Hl & E). exists a'. split; [lia|done].
    + by exists (y :: t).
Qed.

Lemma strip_spaces_app_stop (a : jsstring) (x : Z) (w : jsstring) :
  x <> SP ->
  strip_spaces (a ++ x :: w) = strip_spaces (a ++ [x]) ++ strip_spaces w.
Proof.
  intros Hx.
  remember (length a) as n eqn:Hn. revert a Hn.
  induction n as [n IH] using lt_wf_ind. intros a ->.
  destruct a as [|y t]; simpl.
  - rewrite !strip_spaces_skip; [done| |]; simpl; by destruct (Z.eqb_spec x SP).
  - destruct (Z.eqb_spec y SP) as [->|Hy].
    + destruct (skip_spaces_app_stop t x w Hx) as (a' & Hl & E).
      rewrite (strip_spaces_match (SP :: t ++ x :: w) (a' ++ x :: w)); [|done|].
      * rewrite (strip_spaces_match (SP :: t ++ [x]) (a' ++ [x])); [|done|].
        -- simpl. f_equal. apply (IH (length a')); [simpl; lia|done].
        -- change (re_spaces (SP :: t ++ [x])) with (Some (skip_spaces (t ++ [x]))).
           by rewrite E.
      * change (re_spaces (SP :: t ++ x :: w)) with (Some (skip_spaces (t ++ x :: w))).
        by rewrite E.
    + rewrite !strip_spaces_skip; [| simpl; by destruct (Z.eqb_spec y SP) ..].
      simpl. f_equal. apply (IH (length t)); [simpl; lia|done].
Qed.

Lemma strip_spaces_app (u w : jsstring) :
  last u <> Some SP ->
  strip_spaces (u ++ w) = strip_spaces u ++ strip_spaces w.
Proof.
  intros Hsp. destruct u as [|y t] using rev_ind; [done|].
  rewrite last_snoc in Hsp.
  rewrite <- app_assoc. simpl. apply strip_spaces_app_stop; congruence.
Qed.

Lemma skip_spaces_replicate (k : nat) (v : jsstring) :
  head v <> Some SP -> skip_spaces (replicate k SP ++ v) = v.
Proof. intros Hv. induction k as [|k IH]; [by apply skip_spaces_id|done]. Qed.

Lemma strip_spaces_run (u : jsstring) (k : nat) (v : jsstring) :
  last u <> Some SP -> head v <> Some SP ->
  strip_spaces (u ++ replicate (S k) SP ++ v)
  = strip_spaces u ++ [SP] ++ strip_spaces v.
Proof.
  intros Hu Hv. rewrite strip_spaces_app by done. f_equal.
  apply strip_spaces_match; [done|].
  change (Some (skip_spaces (replicate k SP ++ v)) = Some v).
  by rewrite skip_spaces_replicate.
Qed.

Lemma adjacent_spaces_absurd (a b : jsstring) :
  no_adjacent_spaces (a ++ [SP; SP] ++ b) -> False.
Proof.
  induction a as [|x t IH]; simpl.
  - intros [H _]. by apply H.
  - intros [_ H]. by apply IH.
Qed.

Lemma normalize_lf_free (s : jsstring) : LF ∉ normalize s.
Proof.
  intros H. apply strip_spaces_elem in H as [H|H]; [done|].
  by apply strip_newlines_lf_free in H.
Qed.

(** ** Normalisation *)

(** C7: The first replacement puts one space for every run of
    carriage-return/line-feed sequences (a run that is not preceded by a
    carriage return or a line feed and not followed by a further sequence)
    and changes nothing else, the second puts one space for every run of
    spaces and changes nothing else; no line feed and no two adjacent
    spaces are left in a normalised line, and a line with such a run
    normalises as the line with one space in its place. *)
Theorem normalize_collapses_runs :
  (forall (u : jsstring) (ks : list nat) (v : jsstring),
      ks <> [] -> last u <> Some CR -> last u <> Some LF ->
      (forall k v', v <> crlf_sequence k ++ v') ->
      strip_newlines (u ++ crlf_sequences ks ++ v)
      = strip_newlines u ++ [SP] ++ strip_newlines v)
  /\ (forall s : jsstring, LF ∉ s -> strip_newlines s = s)
  /\ (forall (u : jsstring) (k : nat) (v : jsstring),
      last u <> Some SP -> head v <> Some SP ->
      strip_spaces (u ++ replicate (S k) SP ++ v)
      = strip_spaces u ++ [SP] ++ strip_spaces v)
  /\ (forall s : jsstring, SP ∉ s -> strip_spaces s = s)
  /\ (forall s : jsstring,
      (LF ∉ normalize s) /\ forall a b, normalize s <> a ++ [SP; SP] ++ b)
  /\ (forall (u : jsstring) (ks : list nat) (v : jsstring),
      ks <> [] -> last u <> Some CR -> last u <> Some LF ->
      (forall k v', v <> crlf_sequence k ++ v') ->
      normalize (u ++ crlf_sequences ks ++ v) = normalize (u ++ [SP] ++ v)).
Proof.
  split; [exact strip_newlines_run|].
  split; [exact strip_newlines_no_lf|].
  split; [exact strip_spaces_run|].
  split; [exact strip_spaces_no_sp|].
  split.
  - intros s. split; [apply normalize_lf_free|].
    intros a b E. apply (adjacent_spaces_absurd a b). rewrite <- E.
    apply strip_spaces_single_spaced.
  - intros u ks v Hks Hcr Hlf Hv. unfold normalize.
    rewrite strip_newlines_run by done.
    rewrite (strip_newlines_app u) by done.
    change ([SP] ++ v) with (SP :: v).
    by rewrite (strip_newlines_skip SP v).
Qed.

(** C8: Normalising a line that is already normalised changes nothing. *)
Theorem normalize_idempotent (s : jsstring) : normalize (normalize s) = normalize s.
Proof.
  unfold normalize at 1.
  rewrite (strip_newlines_no_lf (normalize s)) by apply normalize_lf_free.
  apply strip_spaces_fixed, strip_spaces_single_spaced.
Qed.

(** ** The arguments *)

Lemma validate_run (variables : arguments) (st : state) :
  validate variables st = (validate_result variables, st).
Proof.
  unfold validate_result, validate, bind, ret, throw.
  destruct (own_property "base_path" variables) as [bp|]; [|done].
  destruct (bool_decide (bp = lit "")); [done|].
  destruct (own_property "corpus" variables) as [c|]; [|done].
  destruct (bool_decide (c = lit "")); [done|].
  destruct (own_property "block_size" variables) as [bs|];
    [destruct (js_le (parseInt bs) (Num 0)); [done|] |];
    (destruct (own_property "total_size" variables) as [ts|];
     [destruct (js_le (parseInt ts) (Num 0)); done | done]).
Qed.

Lemma slice_last_slash (bp : jsstring) :
  bool_decide (slice_from bp (-1) = lit "/") = bool_decide (last bp = Some 47).
Proof.
  apply bool_decide_ext. unfold slice_from, js_length.
  change (-1 <? 0) with true. cbv iota.
  destruct bp as [|x t] using rev_ind.
  - simpl. split; discriminate.
  - rewrite last_snoc, length_app. simpl.
    replace (Z.to_nat (Z.max (Z.of_nat (length t + 1) + -1) 0)) with (length t) by lia.
    rewrite drop_app_length. split; intros [= ->]; done.
Qed.

Lemma validate_result_ok (variables : arguments) bp path B0 T0 :
  validate_result variables = Ret (bp, path, B0, T0) ->
  own_property "corpus" variables = Some path /\ path <> []
  /\ bp = base_path_of variables
  /\ B0 = configured_block_size variables /\ js_le B0 (Num 0) = false
  /\ T0 = configured_total_size variables /\ js_le T0 (Num 0) = false.
Proof.
  unfold validate_result, validate, bind, ret, throw, base_path_of,
    configured_block_size, configured_total_size.
  destruct (own_property "base_path" variables) as [v|]; [|done].
  destruct (bool_decide (v = lit "")); [done|].
  rewrite slice_last_slash.
  destruct (own_property "corpus" variables) as [c|]; [|done].
  destruct (bool_decide_reflect (c = lit "")); [done|].
  destruct (own_property "block_size" variables) as [bs|];
    [destruct (js_le (parseInt bs) (Num 0)) eqn:Hb; [done|] |];
    (destruct (own_property "total_size" variables) as [ts|];
     [destruct (js_le (parseInt ts) (Num 0)) eqn:Ht; [done|] |]);
    simpl; intros [= <- <- <- <-]; repeat split; done.
Qed.

Lemma validate_result_total (variables : arguments) :
  validate_result variables <> OutOfFuel.
Proof.
  unfold validate_result, validate, bind, ret, throw.
  destruct (own_property "base_path" variables) as [bp|]; [|done].
  destruct (bool_decide (bp = lit "")); [done|].
  destruct (own_property "corpus" variables) as [c|]; [|done].
  destruct (bool_decide (c = lit "")); [done|].
  destruct (own_property "block_size" variables) as [bs|];
    [destruct (js_le (parseInt bs) (Num 0)); [done|] |];
    (destruct (own_property "total_size" variables) as [ts|];
     [destruct (js_le (parseInt ts) (Num 0)); done | done]).
Qed.


Lemma readSync_cases (w : world) (fd : Z) (bytes buffer : list Byte.byte)
    (offset len position : Z) (st : state) :
  fd_table st !! fd = Some bytes ->
  0 <= offset -> 0 <= len -> offset + len <= Z.of_nat (length buffer) ->
  let st' := with_reads (S (reads st))
               (with_calls (calls st ++ [ReadSync fd offset len position]) st) in
  let data := take (Z.to_nat len) (drop (Z.to_nat position) bytes) in
  (exists e, readSync w fd buffer offset len position st = (Throw e, st')
             /\ (read_fails w (reads st) = true \/ position < 0))
  \/ (0 <= position /\
      readSync w fd buffer offset len position st
      = (Ret (Z.of_nat (length data),
              take (Z.to_nat offset) buffer ++ data
                ++ drop (Z.to_nat offset + length data) buffer), st')).
Proof.
  intros Hfd Ho Hl Hbuf st' data. unfold readSync. rewrite Hfd.
  destruct (read_fails w (reads st)) eqn:Hrf; [left; eauto|].
  destruct (Z.ltb_spec position 0); [left; eauto|].
  destruct (Z.ltb_spec offset 0); [lia|].
  destruct (Z.ltb_spec len 0); [lia|].
  destruct (Z.ltb_spec (Z.of_nat (length buffer)) (offset + len)); [lia|].
  right. split; [done|]. reflexivity.
Qed.

Lemma block_at_first (corpus buffer : list Byte.byte) (b offset : Z) :
  0 < b <= Z.of_nat (length corpus) -> length buffer = Z.to_nat b -> 0 <= offset ->
  let data := take (Z.to_nat b) (drop (Z.to_nat offset) corpus) in
  length data = Z.to_nat b ->
  take (Z.to_nat 0) buffer ++ data ++ drop (Z.to_nat 0 + length data) buffer
  = block_at corpus b offset.
Proof.
  intros Hb Hbuf Ho data Hd. unfold block_at. fold data.
  rewrite Hd. simpl. rewrite <- Hbuf, drop_all. f_equal.
  by rewrite Nat.sub_diag, take_0.
Qed.

Lemma block_at_second (corpus buffer : list Byte.byte) (b offset : Z) :
  0 < b <= Z.of_nat (length corpus) -> length buffer = Z.to_nat b -> 0 <= offset ->
  let data := take (Z.to_nat b) (drop (Z.to_nat offset) corpus) in
  let buffer1 := take (Z.to_nat 0) buffer ++ data ++ drop (Z.to_nat 0 + length data) buffer in
  let n1 := Z.of_nat (length data) in
  let data2 := take (Z.to_nat (b - n1)) (drop (Z.to_nat 0) corpus) in
  n1 < b ->
  n1 + (b - n1) <= Z.of_nat (length buffer1)
  /\ take (Z.to_nat n1) buffer1 ++ data2 ++ drop (Z.to_nat n1 + length data2) buffer1
     = block_at corpus b offset.
Proof.
  intros Hb Hbuf Ho data buffer1 n1 data2 Hlt. unfold n1 in *.
  assert (Hl1 : length buffer1 = Z.to_nat b).
  { unfold buffer1. simpl. rewrite length_app, length_drop.
    lia. }
  split; [lia|].
  unfold block_at. fold data.
  assert (Hd2 : length data2 = (Z.to_nat b - length data)%nat).
  { unfold data2. change (Z.to_nat 0) with 0%nat. rewrite drop_0, length_take. lia. }
  replace (Z.to_nat (Z.of_nat (length data))) with (length data) by lia.
  rewrite (drop_ge buffer1) by lia. rewrite app_nil_r.
  unfold buffer1. change (Z.to_nat 0) with 0%nat. rewrite take_0. simpl.
  rewrite take_app_length. f_equal.
  unfold data2. change (Z.to_nat 0) with 0%nat. rewrite drop_0. f_equal. lia.
Qed.

Lemma read_block_spec (w : world) (fd : Z) (corpus buffer : list Byte.byte)
    (b : Z) (st : state) :
  0 < b <= Z.of_nat (length corpus) ->
  fd_table st !! fd = Some corpus ->
  length buffer = Z.to_nat b ->
  exists res n rs,
    read_block w fd (Z.of_nat (length corpus)) b buffer st
    = (res, after_reads n (S (draws st)) rs st)
    /\ Forall is_read rs
    /\ match res with
       | Ret (off, buffer') =>
           off = floor_times (random w (draws st)) (Z.of_nat (length corpus))
           /\ 0 <= off /\ buffer' = block_at corpus b off
       | Throw e => ~ quiet w
       | OutOfFuel => False
       end.
Proof.
  intros Hb Hfd Hbuf. unfold read_block, bind, Math_random.
  set (off := floor_times (random w (draws st)) (Z.of_nat (length corpus))).
  set (st1 := with_draws (S (draws st)) st).
  destruct (readSync_cases w fd corpus buffer 0 b off st1)
    as [(e & -> & Hwhy) | (Hoff & ->)]; [done|lia|lia|lia| |].
  { exists (Throw e), (S (reads st)), [ReadSync fd 0 b off].
    split; [done|]. split; [repeat constructor|].
    intros [Hq1 Hq2]. destruct Hwhy as [Hwhy|Hwhy].
    - simpl in Hwhy. by rewrite Hq1 in Hwhy.
    - specialize (Hq2 (draws st)).
      pose proof (floor_times_nonneg (random w (draws st))
                    (Z.of_nat (length corpus)) Hq2 ltac:(lia)).
      unfold off in Hwhy. lia. }
  set (data := take (Z.to_nat b) (drop (Z.to_nat off) corpus)).
  set (st2 := with_reads _ _).
  destruct (Z.ltb_spec (Z.of_nat (length data)) b) as [Hshort|Hfull].
  - destruct (block_at_second corpus buffer b off Hb Hbuf Hoff Hshort) as [Hfit Hblock].
    match goal with |- context [readSync w fd ?buf ?o ?l 0 st2] =>
      destruct (readSync_cases w fd corpus buf o l 0 st2)
        as [(e & -> & Hwhy) | (_ & ->)]; [done|lia|lia|exact Hfit| |]
    end.
    + exists (Throw e), (S (S (reads st))),
        [ReadSync fd 0 b off; ReadSync fd (Z.of_nat (length data)) (b - Z.of_nat (length data)) 0].
      split; [unfold after_reads, st2, st1; simpl; by rewrite <- app_assoc|].
      split; [repeat constructor|].
      intros [Hq1 Hq2]. destruct Hwhy as [Hwhy|Hwhy]; [|lia].
      simpl in Hwhy. by rewrite Hq1 in Hwhy.
    + exists (Ret (off, block_at corpus b off)), (S (S (reads st))),
        [ReadSync fd 0 b off; ReadSync fd (Z.of_nat (length data)) (b - Z.of_nat (length data)) 0].
      split; [unfold after_reads, st2, st1, ret; simpl; rewrite <- app_assoc; by rewrite <- Hblock|].
      split; [repeat constructor|]. done.
  - exists (Ret (off, block_at corpus b off)), (S (reads st)), [ReadSync fd 0 b off].
    assert (Hd : length data = Z.to_nat b).
    { pose proof (length_take_le corpus (Z.to_nat b)).
      unfold data in *. rewrite length_take in *. lia. }
    split; [unfold ret; by rewrite <- (block_at_first corpus buffer b off Hb Hbuf Hoff Hd)|].
    split; [repeat constructor|]. done.
Qed.



Lemma total_text_snoc (l : list sample) (s : sample) :
  total_text (l ++ [s]) = total_text l + js_length (s_text s).
Proof. induction l as [|x l IH]; simpl; lia. Qed.

Lemma anchors_snoc (l : list sample) (s : sample) :
  anchors (l ++ [s]) = anchors l ++ anchor (s_href s) (s_text s).
Proof. unfold anchors. rewrite flat_map_app. simpl. by rewrite app_nil_r. Qed.

Lemma trim_to_total_spec (t acc : Z) (line : jsstring) :
  acc < t ->
  let '(text, acc') := trim_to_total t acc line in
  acc' = acc + js_length text /\ acc' <= t
  /\ (t < acc + js_length line -> text = take (Z.to_nat (t - acc)) line /\ acc' = t)
  /\ (acc + js_length line <= t -> text = line).
Proof.
  intros Hacc. unfold trim_to_total.
  destruct (Z.ltb_spec t (acc + js_length line)) as [Hover|Hfit].
  - unfold slice0.
    destruct (Z.ltb_spec (t - (acc + js_length line)) 0); [|lia].
    replace (Z.max (js_length line + (t - (acc + js_length line))) 0) with (t - acc) by lia.
    unfold js_length in *. rewrite length_take.
    repeat split; lia.
  - repeat split; lia.
Qed.

Lemma block_at_length (corpus : list Byte.byte) (b offset : Z) :
  0 < b <= Z.of_nat (length corpus) ->
  length (block_at corpus b offset) = Z.to_nat b.
Proof.
  intros Hb. unfold block_at. rewrite length_app, !length_take, length_drop. lia.
Qed.

Lemma after_reads_pass (l l' : list sample) (n d n' d' d'' : nat)
    (rs rs' : list fs_call) (st0 : state) :
  with_samples l' (with_draws d''
    (after_reads n' d' rs' (with_samples l (after_reads n d rs st0))))
  = with_samples l' (after_reads n' d'' (rs ++ rs') st0).
Proof.
  destruct st0 as [tb rd dr cl co re vf sa]. cbv [with_samples after_reads with_reads with_draws with_calls
    fd_table reads draws calls console response var_fd samples].
  by rewrite <- app_assoc.
Qed.

Lemma after_reads_throw (l : list sample) (n d n' d' : nat)
    (rs rs' : list fs_call) (st0 : state) :
  after_reads n' d' rs' (with_samples l (after_reads n d rs st0))
  = with_samples l (after_reads n' d' (rs ++ rs') st0).
Proof.
  destruct st0 as [tb rd dr cl co re vf sa]. cbv [with_samples after_reads with_reads with_draws with_calls
    fd_table reads draws calls console response var_fd samples].
  by rewrite <- app_assoc.
Qed.

Section Loop.

Context (w : world) (fd : Z) (corpus : list Byte.byte) (b t : Z)
  (base_path : jsstring) (st0 : state).
Hypothesis Hb : 0 < b <= Z.of_nat (length corpus).
Hypothesis Hfd : fd_table st0 !! fd = Some corpus.

Lemma pass_spec (v : loop_vars) (st : state) :
  loop_inv w corpus b t base_path st0 v st ->
  loop_condition t v = true ->
  match pass w fd (Z.of_nat (length corpus)) b t base_path v st with
  | (Ret v', st') =>
      loop_inv w corpus b t base_path st0 v' st'
      /\ loop_limiter v' = loop_limiter v - 1
  | (Throw e, st') =>
      (exists l, loop_state st0 l st' /\ passes w corpus b t base_path l
                 /\ Z.of_nat (length l) < ceil_div t b * 2)
      /\ ~ quiet w
  | (OutOfFuel, _) => False
  end.
Proof.
  intros (l & (n & d & rs & Hrs & ->) & Hd & Hbuilt & Hacc & Hle & Hlim & Hpos & Hlen & Hp) Hcond.
  apply andb_true_iff in Hcond as [Hlt%Z.ltb_lt Hmore%Z.ltb_lt].
  unfold pass, bind.
  destruct (read_block_spec w fd corpus (read_buffer v) b
              (with_samples l (after_reads n d rs st0)) Hb Hfd Hlen)
    as (res & n' & rs' & -> & Hrs' & Hres).
  destruct res as [[off buffer']|e|]; [|split|done].
  - destruct Hres as (Hoff & Hoff0 & Hblock).
    pose proof (trim_to_total_spec t (concatenated_text_length v)
                  (strip_spaces (strip_newlines (toString_utf8 buffer')))
                  Hlt) as Htrim.
    destruct (trim_to_total _ _ _) as [text acc'] eqn:Etrim.
    destruct Htrim as (Hacc' & Hle' & _).
    cbn. split; [|done].
    set (s := {| s_offset := off; s_block := buffer'; s_text := text;
                 s_id := page_name (random w (S d)); s_href := _ |}).
    exists (l ++ [s]). split; [|split; [|split; [|split; [|split; [|split; [|split; [|split]]]]]]].
    + exists n', (S (S d)), (rs ++ rs'). split; [by apply Forall_app|].
      apply after_reads_pass.
    + simpl in *. rewrite length_app. simpl. lia.
    + simpl. by rewrite anchors_snoc, Hbuilt.
    + simpl. rewrite total_text_snoc. simpl. lia.
    + rewrite total_text_snoc. simpl. lia.
    + simpl. rewrite length_app. simpl. lia.
    + simpl. lia.
    + simpl. rewrite Hblock. by apply block_at_length.
    + apply passes_snoc; [done|lia|].
      simpl in Hd. subst d.
      unfold pass_sample. simpl.
      replace (length l + (length l + 0))%nat with (2 * length l)%nat in * by lia.
      repeat split; try done.
      * unfold normalize. rewrite <- Hacc. by rewrite Etrim.
      * do 2 f_equal. lia.
  - exists l. split; [|split; [done|lia]].
    exists n', (S d), (rs ++ rs'). split; [by apply Forall_app|].
    apply after_reads_throw.
  - done.
Qed.

Lemma while_spec (fuel : nat) (v : loop_vars) (st : state) :
  loop_inv w corpus b t base_path st0 v st ->
  match while fuel (loop_condition t)
          (pass w fd (Z.of_nat (length corpus)) b t base_path) v st with
  | (Ret v', st') =>
      loop_inv w corpus b t base_path st0 v' st' /\ loop_condition t v' = false
  | (Throw e, st') =>
      (exists l, loop_state st0 l st' /\ passes w corpus b t base_path l
                 /\ Z.of_nat (length l) < ceil_div t b * 2)
      /\ ~ quiet w
  | (OutOfFuel, st') =>
      (fuel < Z.to_nat (loop_limiter v))%nat
      /\ exists l, loop_state st0 l st' /\ passes w corpus b t base_path l
  end.
Proof.
  revert v st. induction fuel as [|fuel IH]; intros v st Hinv; simpl.
  - destruct (loop_condition t v) eqn:Hc; [|done].
    apply andb_true_iff in Hc as [_ Hmore%Z.ltb_lt]. simpl.
    split; [lia|]. destruct Hinv as (l & Hl & _ & _ & _ & _ & _ & _ & _ & Hp).
    by exists l.
  - destruct (loop_condition t v) eqn:Hc; [|done].
    pose proof (pass_spec v st Hinv Hc) as Hpass. unfold bind.
    destruct (pass _ _ _ _ _ _ _ _) as [[v'|e|] st']; [|done|done].
    destruct Hpass as [Hinv' Hlim].
    specialize (IH v' st' Hinv').
    destruct (while _ _ _ _ _) as [[v''|e|] st'']; [done|done|].
    destruct IH as [IH Hl]. split; [|done].
    apply andb_true_iff in Hc as [_ Hmore%Z.ltb_lt]. lia.
Qed.

End Loop.


Lemma finally_block_opened (w : world) (fd : Z) (c : list Byte.byte) (st : state) :
  var_fd st = Some fd -> fd_table st !! fd = Some c ->
  finally_block w st = (Ret tt, closed w fd st).
Proof.
  intros Hvar Hfd. unfold finally_block, closed, closing_line. rewrite Hvar.
  unfold try_catch, bind, closeSync. rewrite Hfd.
  destruct (close_fails w); reflexivity.
Qed.

Lemma closed_table_after (w : world) (fd : Z) (corpus : list Byte.byte) :
  fd = new_fd w ->
  (if close_fails w then <[fd := corpus]> (∅ : gmap Z (list Byte.byte))
   else delete fd (<[fd := corpus]> ∅)) = closed_table w corpus.
Proof.
  intros ->. unfold closed_table. destruct (close_fails w).
  - apply insert_empty.
  - by rewrite delete_insert_eq, delete_empty.
Qed.


Lemma not_positive_cases (n : jsnum) :
  js_le n (Num 0) = false -> n = NaN \/ exists c, n = Num c /\ 0 < c.
Proof.
  destruct n as [|c]; [by left|]. simpl. intros H%Z.leb_gt. right. eauto.
Qed.

Lemma ceil_div_pos (t b : Z) : 0 < b -> 0 < t -> 0 < ceil_div t b.
Proof.
  intros Hb Ht. unfold ceil_div.
  assert (- t / b < 0) by (apply Z.div_lt_upper_bound; lia). lia.
Qed.

(** ** The ways out *)

Lemma try_block_opened (fuel : nat) (w : world) (variables : arguments)
    bp path B0 T0 corpus :
  validate_result variables = Ret (bp, path, B0, T0) ->
  files w path = Some corpus -> corpus <> [] -> open_fails w = false ->
  let size := Z.of_nat (length corpus) in
  let B := effective_size corpus B0 in
  let T := effective_size corpus T0 in
  try_block fuel w variables initial_state
  = (read_buffer <- Buffer_alloc w B ;;
     built_contents <- sampling_loop fuel w (new_fd w) size B T bp read_buffer ;;
     r_return 200 (page built_contents)) (entry_state w path corpus B T).
Proof.
  intros Hv Hf Hne Hopen size B T.
  unfold try_block. unfold bind at 1. rewrite validate_run, Hv.
  unfold bind at 1. unfold statSync, bind at 1, record_call. rewrite Hf. unfold ret at 1.
  fold size.
  destruct (Z.eqb_spec size 0) as [E|_].
  { destruct corpus; [done|]. unfold size in E. simpl in E. lia. }
  unfold bind at 1, console_log at 1.
  unfold bind at 1, console_log at 1.
  unfold bind at 1, openSync, bind at 1, record_call. rewrite Hf, Hopen.
  unfold bind at 1, assign_fd.
  unfold bind at 1, console_log at 1.
  reflexivity.
Qed.

Lemma effective_size_cases (corpus : list Byte.byte) (n : jsnum) :
  corpus <> [] -> js_le n (Num 0) = false ->
  effective_size corpus n = NaN /\ n = NaN
  \/ exists c, effective_size corpus n = Num c /\ 0 < c <= Z.of_nat (length corpus).
Proof.
  intros Hne Hn. destruct (not_positive_cases n Hn) as [->|(c & -> & Hc)]; [by left|].
  right. exists (Z.min (Z.of_nat (length corpus)) c). split; [done|].
  destruct corpus; [done|]. simpl. lia.
Qed.

Lemma serve_opened (fuel : nat) (w : world) (variables : arguments)
    bp path B0 T0 corpus res st :
  validate_result variables = Ret (bp, path, B0, T0) ->
  files w path = Some corpus -> corpus <> [] -> open_fails w = false ->
  serve fuel w variables = (res, st) ->
  exit_path fuel w variables res st.
Proof.
  intros Hv Hf Hne Hopen Hrun.
  destruct (validate_result_ok _ _ _ _ _ Hv) as (_ & _ & _ & _ & HB0 & _ & HT0).
  unfold serve, random_content, try_finally, try_catch in Hrun.
  rewrite (try_block_opened fuel w variables bp path B0 T0 corpus Hv Hf Hne Hopen) in Hrun.
  set (B := effective_size corpus B0) in *. set (T := effective_size corpus T0) in *.
  set (st0 := entry_state w path corpus B T) in *.
  assert (Htab : fd_table st0 !! new_fd w = Some corpus) by apply lookup_insert_eq.
  unfold bind at 1 in Hrun.
  destruct (effective_size_cases corpus B0 Hne HB0) as [[EB EB0]|(b & EB & Hb)]; fold B in EB.
  - (* block_size is NaN *)
    rewrite EB in Hrun. unfold Buffer_alloc in Hrun.
    destruct (alloc_rejects_nan w) eqn:Hrej.
    + unfold throw, catch_block, bind, console_error, console_log, r_return in Hrun.
      erewrite finally_block_opened in Hrun; [|reflexivity|exact Htab].
      injection Hrun as <- <-.
      eapply Exit_alloc_error; try done.
      unfold observe, closed. simpl. fold B T. rewrite EB.
      by rewrite (closed_table_after w (new_fd w) corpus).
    + unfold ret at 1, sampling_loop, bind, r_return, ret in Hrun.
      erewrite finally_block_opened in Hrun; [|reflexivity|exact Htab].
      injection Hrun as <- <-.
      eapply Exit_no_pass; try done; [by left|].
      unfold observe, closed. simpl. fold B T. rewrite EB.
      by rewrite (closed_table_after w (new_fd w) corpus).
  - rewrite EB in Hrun. unfold Buffer_alloc in Hrun.
    destruct (Z.ltb_spec b 0); [lia|]. unfold ret at 1 in Hrun.
    destruct (effective_size_cases corpus T0 Hne HT0) as [[ET ET0]|(t & ET & Ht)]; fold T in ET.
    + (* total_size is NaN *)
      rewrite ET in Hrun. unfold sampling_loop, bind, r_return, ret in Hrun.
      erewrite finally_block_opened in Hrun; [|reflexivity|exact Htab].
      injection Hrun as <- <-.
      eapply Exit_no_pass; try done.
      { right. fold B T. rewrite EB, ET. done. }
      unfold observe, closed. simpl. fold B T. rewrite EB, ET.
      by rewrite (closed_table_after w (new_fd w) corpus).
    + rewrite ET in Hrun. unfold sampling_loop in Hrun. unfold bind at 1 2 in Hrun.
      set (v0 := {| built_contents := []; concatenated_text_length := 0;
                    loop_limiter := ceil_div t b * 2;
                    read_buffer := replicate (Z.to_nat b) Byte.x00 |}) in *.
      assert (Hinv : loop_inv w corpus b t bp st0 v0 st0).
      { exists []. split.
        - exists 0%nat, 0%nat, []. split; [constructor|]. reflexivity.
        - pose proof (ceil_div_pos t b). simpl.
          rewrite length_replicate. repeat split; try done; try lia. constructor. }
      pose proof (while_spec w (new_fd w) corpus b t bp st0 Hb Htab fuel v0 st0 Hinv) as Hloop.
      destruct (while _ _ _ _ _) as [[v'|e|] st'].
      * destruct Hloop as [(l & (n & d & rs & Hrs & ->) & _ & Hbuilt & Hacc & Hle & Hlim & Hpos & _ & Hp) Hcond].
        unfold ret, r_return in Hrun.
        erewrite finally_block_opened in Hrun; [|reflexivity|exact Htab].
        injection Hrun as <- <-.
        eapply (Exit_completed _ _ _ bp path B0 T0 corpus b t rs l); try done.
        -- lia.
        -- apply andb_false_iff in Hcond as [Hc%Z.ltb_ge|Hc%Z.ltb_ge]; lia.
        -- unfold observe, closed. simpl. rewrite Hbuilt, EB, ET.
           by rewrite (closed_table_after w (new_fd w) corpus).
      * destruct Hloop as [(l & (n & d & rs & Hrs & ->) & Hp & Hlen) Hq].
        unfold catch_block, bind, console_error, console_log, r_return in Hrun.
        erewrite finally_block_opened in Hrun; [|reflexivity|exact Htab].
        injection Hrun as <- <-.
        eapply (Exit_read_error _ _ _ bp path B0 T0 corpus b t rs l e); try done.
        unfold observe, closed. simpl. rewrite EB, ET.
        by rewrite (closed_table_after w (new_fd w) corpus).
      * injection Hrun as <- <-.
        destruct Hloop as [Hfuel (l & (n & d & rs & Hrs & ->) & Hp)].
        eapply (Exit_out_of_fuel _ _ _ bp path B0 T0 corpus b t rs l); try done.
        unfold observe. simpl. by rewrite EB, ET.
Qed.

Theorem serve_exit (fuel : nat) (w : world) (variables : arguments)
    (res : result unit) (st : state) :
  serve fuel w variables = (res, st) -> exit_path fuel w variables res st.
Proof.
  intros Hrun.
  destruct (validate_result variables) as [[[[bp path] B0] T0]|e|] eqn:Hv.
  - destruct (files w path) as [corpus|] eqn:Hf.
    + destruct corpus as [|x corpus'] eqn:Hc.
      * unfold serve, random_content, try_finally, try_catch, try_block in Hrun.
        unfold bind at 1 in Hrun. rewrite validate_run, Hv in Hrun.
        unfold bind at 1, statSync, bind at 1, record_call in Hrun.
        rewrite Hf in Hrun. simpl in Hrun. injection Hrun as <- <-.
        by eapply Exit_empty_corpus.
      * rewrite <- Hc in *.
        assert (Hne : corpus <> []) by (by rewrite Hc).
        destruct (open_fails w) eqn:Hopen.
        -- destruct (validate_result_ok _ _ _ _ _ Hv) as (_ & _ & _ & _ & HB0 & _ & HT0).
           unfold serve, random_content, try_finally, try_catch, try_block in Hrun.
           unfold bind at 1 in Hrun. rewrite validate_run, Hv in Hrun.
           unfold bind at 1, statSync, bind at 1, record_call in Hrun.
           rewrite Hf in Hrun. unfold ret at 1 in Hrun.
           destruct (Z.eqb_spec (Z.of_nat (length corpus)) 0) as [E|_].
           { rewrite Hc in E. simpl in E. lia. }
           unfold bind at 1, console_log at 1 in Hrun.
           unfold bind at 1, console_log at 1 in Hrun.
           unfold bind at 1, openSync, bind at 1, record_call in Hrun.
           rewrite Hf, Hopen in Hrun. simpl in Hrun. injection Hrun as <- <-.
           by eapply Exit_open_error.
        -- by eapply serve_opened.
    + unfold serve, random_content, try_finally, try_catch, try_block in Hrun.
      unfold bind at 1 in Hrun. rewrite validate_run, Hv in Hrun.
      unfold bind at 1, statSync, bind at 1, record_call in Hrun.
      rewrite Hf in Hrun. simpl in Hrun. injection Hrun as <- <-.
      by eapply Exit_stat_error.
  - unfold serve, random_content, try_finally, try_catch, try_block in Hrun.
    unfold bind at 1 in Hrun. rewrite validate_run, Hv in Hrun.
    simpl in Hrun. injection Hrun as <- <-.
    by eapply Exit_invalid.
  - by destruct (validate_result_total variables).
Qed.

(** ** Sample draws *)

Lemma sample_draw_wf (n : nat) : wf_draw (sample_draw n).
Proof.
  unfold wf_draw, sample_draw. simpl.
  pose proof (Nat.mod_upper_bound n 7 ltac:(lia)). lia.
Qed.

Lemma zero_draw_wf : wf_draw zero_draw.
Proof. unfold wf_draw, zero_draw. simpl. lia. Qed.

Lemma wrapping_draw_wf (n : nat) : wf_draw (wrapping_draw n).
Proof. unfold wf_draw, wrapping_draw. simpl. lia. Qed.

Lemma zero_second_draw_wf (n : nat) : wf_draw (zero_second_draw n).
Proof.
  unfold zero_second_draw. destruct (n =? 1)%nat; [apply zero_draw_wf|apply sample_draw_wf].
Qed.

Lemma undefined_second_draw_wf (n : nat) : wf_draw (undefined_second_draw n).
Proof.
  unfold undefined_second_draw. destruct (n =? 1)%nat; [|apply sample_draw_wf].
  unfold wf_draw, undefined_draw. simpl. lia.
Qed.

(** ** Reading the ways out *)

Lemma run_exit (fuel : nat) (w : world) (variables : arguments) :
  exit_path fuel w variables (outcome fuel w variables) (final_state fuel w variables).
Proof. apply serve_exit. unfold outcome, final_state. by destruct (serve _ _ _). Qed.

Lemma observe_fields (st : state) tb cl co re vf sa :
  observe st = (tb, cl, co, re, vf, sa) ->
  fd_table st = tb /\ calls st = cl /\ console st = co /\ response st = re
  /\ var_fd st = vf /\ samples st = sa.
Proof. unfold observe. intros [= <- <- <- <- <- <-]. done. Qed.

Lemma passes_split (w : world) (corpus : list Byte.byte) (b t : Z)
    (base_path : jsstring) (l pre post : list sample) (s : sample) :
  passes w corpus b t base_path l -> l = pre ++ s :: post ->
  total_text pre < t
  /\ pass_sample w corpus b t base_path (length pre) (total_text pre) s.
Proof.
  intros Hp. revert pre post. induction Hp as [|l x Hp IH Hlt Hx]; intros pre post E.
  - by destruct pre.
  - destruct post as [|y post'] using rev_ind.
    + apply (app_inj_tail l pre x s) in E as [-> ->]. done.
    + rewrite app_comm_cons, app_assoc in E.
      apply app_inj_tail in E as [-> _]. by apply (IH pre post').
Qed.

Lemma passes_total (w : world) (corpus : list Byte.byte) (b t : Z)
    (base_path : jsstring) (l pre post : list sample) (s : sample) :
  passes w corpus b t base_path l -> l = pre ++ s :: post ->
  total_text (pre ++ [s]) = t -> post = [].
Proof.
  intros Hp E Ht. destruct post as [|y post']; [done|].
  assert (E' : l = (pre ++ [s]) ++ y :: post') by (by rewrite <- app_assoc).
  destruct (passes_split _ _ _ _ _ _ _ _ _ Hp E') as [Hlt _]. lia.
Qed.

Lemma effective_sizes_of_run (w : world) (variables : arguments)
    bp path B0 T0 corpus :
  validate_result variables = Ret (bp, path, B0, T0) ->
  files w path = Some corpus ->
  corpus_bytes w variables = Some corpus
  /\ bp = base_path_of variables
  /\ B0 = configured_block_size variables
  /\ T0 = configured_total_size variables
  /\ effective_block_size w variables = effective_size corpus B0
  /\ effective_total_size w variables = effective_size corpus T0.
Proof.
  intros Hv Hf.
  destruct (validate_result_ok _ _ _ _ _ Hv) as (Hc & _ & -> & -> & _ & -> & _).
  unfold effective_block_size, effective_total_size, corpus_bytes.
  rewrite Hc, Hf. done.
Qed.


Lemma trim_cases (t acc : Z) (line : jsstring) :
  acc < t ->
  (t < acc + js_length line ->
     (trim_to_total t acc line).1 = take (Z.to_nat (t - acc)) line
     /\ acc + js_length (trim_to_total t acc line).1 = t)
  /\ (acc + js_length line <= t -> (trim_to_total t acc line).1 = line).
Proof.
  intros Hacc. pose proof (trim_to_total_spec t acc line Hacc) as H.
  destruct (trim_to_total t acc line) as [text acc']. simpl.
  destruct H as (H1 & H2 & H3 & H4). split; [|done].
  intros Hover. destruct (H3 Hover) as [-> ->]. split; [done|]. lia.
Qed.

(** C1: When a page is returned with status 200, its body is the page
    around the anchors of the passes made; the texts in those anchors,
    normalised and before the anchor is put around them, add up to at most
    the effective total size, and to exactly that size unless the loop made
    all the passes of its budget; a line that would go over the effective
    total size is cut to the characters still missing, which makes the
    total exact and ends the loop, and any other line is kept whole.
    When a size is not a number no pass is made. *)
Theorem accumulated_text_bounded (fuel : nat) (w : world)
    (variables : arguments) (body : jsstring) :
  response (final_state fuel w variables) = Some (200, body) ->
  let st := final_state fuel w variables in
  body = page (anchors (samples st))
  /\ match effective_block_size w variables, effective_total_size w variables with
     | Num b, Num t =>
         total_text (samples st) <= t
         /\ (total_text (samples st) = t
             \/ Z.of_nat (length (samples st)) = ceil_div t b * 2)
         /\ forall pre s post, samples st = pre ++ s :: post ->
              let line := normalize (toString_utf8 (s_block s)) in
              total_text pre < t
              /\ (t < total_text pre + js_length line ->
                    s_text s = take (Z.to_nat (t - total_text pre)) line
                    /\ total_text (pre ++ [s]) = t /\ post = [])
              /\ (total_text pre + js_length line <= t -> s_text s = line)
     | _, _ => samples st = []
     end.
Proof.
  intros Hresp st. subst st.
  exit_cases (run_exit fuel w variables);
    try (apply observe_fields in Hobs as (_ & _ & _ & Hr & _ & Hs);
         rewrite Hr in Hresp; try discriminate).
  - (* no pass *)
    injection Hresp as <-. rewrite Hs. split; [done|].
    destruct (effective_sizes_of_run w variables _ _ _ _ _ Hv Hf)
      as (_ & _ & _ & _ & -> & ->).
    destruct Hnan as [[-> _]|[Hb ->]]; [done|].
    by destruct (effective_size corpus B0).
  - (* the loop ended *)
    injection Hresp as <-. rewrite Hs. split; [done|].
    destruct (effective_sizes_of_run w variables _ _ _ _ _ Hv Hf)
      as (_ & _ & _ & _ & -> & ->).
    rewrite HB, HT. split; [done|]. split; [done|].
    intros pre s post E line.
    destruct (passes_split _ _ _ _ _ _ _ _ _ Hp E) as [Hlt (_ & _ & _ & Htext & _)].
    fold line in Htext.
    destruct (trim_cases t (total_text pre) line Hlt) as [Hover Hfit].
    split; [done|]. split.
    + intros H. destruct (Hover H) as [E1 E2]. rewrite <- Htext in *.
      assert (Ht : total_text (pre ++ [s]) = t) by (rewrite total_text_snoc; lia).
      split; [done|]. split; [done|]. by eapply passes_total.
    + intros H. by rewrite Htext, Hfit.
Qed.

Lemma accumulated_text_bounded_witness :
  let w := plain_world tears_in_rain sample_draw in
  let st := final_state 10 w ephi_request in
  response st = Some (200, page (anchors (samples st)))
  /\ effective_total_size w ephi_request = Num 12
  /\ total_text (samples st) <= 12.
Proof.
  intros w st.
  assert (H : response st = Some (200, page (anchors (samples st))))
    by (vm_compute; reflexivity).
  assert (EB : effective_block_size w ephi_request = Num 5)
    by (vm_compute; reflexivity).
  assert (ET : effective_total_size w ephi_request = Num 12)
    by (vm_compute; reflexivity).
  pose proof (accumulated_text_bounded 10 w ephi_request _ H) as [_ Hm].
  rewrite EB, ET in Hm.
  split; [exact H|]. split; [exact ET|exact (proj1 Hm)].
Defined.

Lemma healthy_validates (w : world) (variables : arguments) :
  healthy w variables ->
  exists bp path corpus b0 t0,
    validate_result variables = Ret (bp, path, Num b0, Num t0)
    /\ files w path = Some corpus /\ corpus <> [].
Proof.
  intros ((bp & Hbp & Hbpne) & (path & corpus & Hc & Hcne & Hf & Hne) & HB & HT & _).
  unfold configured_block_size, configured_total_size in HB, HT.
  unfold validate_result, validate, bind, ret, throw. rewrite Hbp, Hc.
  destruct (bool_decide_reflect (bp = lit "")); [done|].
  destruct (bool_decide_reflect (path = lit "")); [done|].
  assert (Hpos : forall n, js_gt n (Num 0) = true ->
            js_le n (Num 0) = false /\ exists c, n = Num c).
  { intros [|c]; [done|]. simpl. intros H%Z.ltb_lt. split; [by apply Z.leb_gt|eauto]. }
  destruct (own_property "block_size" variables) as [bs|].
  - destruct (Hpos _ HB) as [-> [b0 ->]].
    destruct (own_property "total_size" variables) as [ts|].
    + destruct (Hpos _ HT) as [-> [t0 ->]]. simpl. by eexists _, _, _, _, _.
    + simpl. by eexists _, _, _, _, _.
  - destruct (own_property "total_size" variables) as [ts|].
    + destruct (Hpos _ HT) as [-> [t0 ->]]. simpl. by eexists _, _, _, _, _.
    + simpl. by eexists _, _, _, _, _.
Qed.

Lemma iteration_budget_of_run (w : world) (variables : arguments)
    bp path B0 T0 corpus :
  validate_result variables = Ret (bp, path, B0, T0) ->
  files w path = Some corpus ->
  iteration_budget w variables
  = match effective_size corpus B0, effective_size corpus T0 with
    | Num b, Num t => ceil_div t b * 2
    | _, _ => 0
    end.
Proof.
  intros Hv Hf.
  destruct (effective_sizes_of_run w variables _ _ _ _ _ Hv Hf)
    as (_ & _ & _ & _ & EB & ET).
  unfold iteration_budget. by rewrite EB, ET.
Qed.

(** C2: With fuel for [ceil(effective_total_size / effective_block_size) * 2]
    passes the run ends, it has made at most that many passes, and when the
    request is valid and nothing fails in the file system the answer is the
    page around the anchors gathered, with status 200, whatever the corpus
    holds and whether or not the effective total size was reached. *)
Theorem loop_within_budget (fuel : nat) (w : world)
    (variables : arguments) :
  (Z.to_nat (iteration_budget w variables) <= fuel)%nat ->
  let st := final_state fuel w variables in
  outcome fuel w variables = Ret tt
  /\ (length (samples st) <= Z.to_nat (iteration_budget w variables))%nat
  /\ (healthy w variables ->
      response st = Some (200, page (anchors (samples st)))).
Proof.
  intros Hfuel st. subst st.
  exit_cases (run_exit fuel w variables);
    try (apply observe_fields in Hobs as (_ & _ & _ & Hr & _ & Hs); rewrite Hr, Hs);
    try (rewrite (iteration_budget_of_run w variables _ _ _ _ _ Hv Hf) in *).
  - (* the arguments are rejected *)
    split; [done|]. split; [simpl; lia|].
    intros Hh. destruct (healthy_validates w variables Hh) as (? & ? & ? & ? & ? & Hv' & _).
    congruence.
  - (* no corpus *)
    split; [done|]. split; [simpl; lia|].
    intros Hh. destruct (healthy_validates w variables Hh) as (? & ? & ? & ? & ? & Hv' & Hf' & _).
    congruence.
  - (* empty corpus *)
    split; [done|]. split; [simpl; lia|].
    intros Hh. destruct (healthy_validates w variables Hh) as (? & ? & ? & ? & ? & Hv' & Hf' & ?).
    congruence.
  - (* open fails *)
    split; [done|]. split; [simpl; lia|].
    intros (_ & _ & _ & _ & Hopen' & _). congruence.
  - (* no buffer *)
    split; [done|]. split; [simpl; lia|].
    intros Hh. destruct (healthy_validates w variables Hh) as (? & ? & ? & ? & ? & Hv' & Hf' & ?).
    rewrite Hv in Hv'. simplify_eq.
  - (* no pass *)
    split; [done|]. split; [simpl; lia|]. done.
  - (* a read fails *)
    split; [done|]. rewrite HB, HT. split; [lia|].
    intros (_ & _ & _ & _ & _ & Hq'). done.
  - (* the loop ended *)
    split; [done|]. rewrite HB, HT. split; [lia|]. done.
  - (* out of fuel *)
    rewrite HB, HT in Hfuel. lia.
Qed.

Lemma loop_within_budget_witness :
  let w := plain_world newline_corpus sample_draw in
  let st := final_state 6 w newline_request in
  iteration_budget w newline_request = 6
  /\ healthy w newline_request
  /\ outcome 6 w newline_request = Ret tt
  /\ length (samples st) = 6%nat
  /\ response st = Some (200, page (anchors (samples st)))
  /\ total_text (samples st) = 6
  /\ effective_total_size w newline_request = Num 20.
Proof.
  intros w st.
  assert (Hbudget : iteration_budget w newline_request = 6) by (vm_compute; reflexivity).
  assert (Hfuel : (Z.to_nat (iteration_budget w newline_request) <= 6)%nat)
    by (rewrite Hbudget; simpl; lia).
  assert (Hhealthy : healthy w newline_request).
  { split; [exists (lit "/ephi/"); split; [reflexivity|discriminate]|].
    split; [exists corpus_path, newline_corpus;
            split; [reflexivity|split; [discriminate|split; [reflexivity|discriminate]]]|].
    split; [reflexivity|]. split; [reflexivity|]. split; [reflexivity|].
    split; [reflexivity|]. intros n. apply (sample_draw_wf n). }
  destruct (loop_within_budget 6 w newline_request Hfuel) as (Hout & Hlen & Hresp).
  split; [exact Hbudget|]. split; [exact Hhealthy|]. split; [exact Hout|].
  split; [vm_compute; reflexivity|]. split; [exact (Hresp Hhealthy)|].
  split; vm_compute; reflexivity.
Defined.

Lemma effective_size_clamped (corpus : list Byte.byte) (n : jsnum) :
  let size := Z.of_nat (length corpus) in
  effective_size corpus n = Math_min (Num size) n
  /\ js_gt (effective_size corpus n) (Num size) = false
  /\ forall c, n = Num c ->
       effective_size corpus n = Num (Z.min size c) /\ Z.min size c <= size.
Proof.
  intros size. split; [done|]. split.
  - destruct n as [|c]; [done|]. cbn. apply Z.ltb_ge. lia.
  - intros c ->. split; [done|lia].
Qed.

(** C3: The block size and the total size the script reports as validated,
    and then uses, are [Math.min] of the length of the corpus and the
    configured size (the parsed argument, or 80 and 500); neither is greater
    than the length of the corpus, and for a configured number [c] the
    effective size is the number [min(length, c)]. *)
Theorem effective_sizes_clamped (fuel : nat) (w : world)
    (variables : arguments) (B T : jsnum) :
  let st := final_state fuel w variables in
  LogValidatedBlock B ∈ console st -> LogValidatedTotal T ∈ console st ->
  exists corpus,
    corpus_bytes w variables = Some corpus
    /\ let size := Z.of_nat (length corpus) in
       B = Math_min (Num size) (configured_block_size variables)
       /\ T = Math_min (Num size) (configured_total_size variables)
       /\ B = effective_block_size w variables
       /\ T = effective_total_size w variables
       /\ js_gt B (Num size) = false /\ js_gt T (Num size) = false
       /\ (forall c, configured_block_size variables = Num c ->
             B = Num (Z.min size c) /\ Z.min size c <= size)
       /\ (forall c, configured_total_size variables = Num c ->
             T = Num (Z.min size c) /\ Z.min size c <= size).
Proof.
  intros st HB' HT'. subst st.
  exit_cases (run_exit fuel w variables);
    apply observe_fields in Hobs as (_ & _ & Hco & _); rewrite Hco in HB', HT';
    unfold closing_line in HB', HT'; destruct (close_fails w);
    console_cases HB'; console_cases HT';
    destruct (effective_sizes_of_run w variables _ _ _ _ _ Hv Hf)
      as (Hcb & _ & EB0 & ET0 & EB & ET);
    exists corpus; (split; [done|]);
    injection HB' as HB'; injection HT' as HT';
    try rewrite <- HB in HB'; try rewrite <- HT in HT';
    subst B T; rewrite EB, ET; subst B0 T0;
    destruct (effective_size_clamped corpus (configured_block_size variables))
      as (E1 & G1 & N1);
    destruct (effective_size_clamped corpus (configured_total_size variables))
      as (E2 & G2 & N2);
    repeat split; auto;
    first [by destruct (N1 _ ltac:(eassumption)) | by destruct (N2 _ ltac:(eassumption))].
Qed.

Lemma effective_sizes_clamped_witness :
  let w := plain_world letters_corpus sample_draw in
  let st := final_state 14 w large_request in
  LogValidatedBlock (Num 80) ∈ console st
  /\ LogValidatedTotal (Num 500) ∈ console st
  /\ configured_total_size large_request = Num 10000
  /\ Num 500 = effective_total_size w large_request.
Proof.
  intros w st.
  assert (HB : LogValidatedBlock (Num 80) ∈ console st)
    by (apply list_elem_of_lookup; exists 0%nat; vm_compute; reflexivity).
  assert (HT : LogValidatedTotal (Num 500) ∈ console st)
    by (apply list_elem_of_lookup; exists 1%nat; vm_compute; reflexivity).
  destruct (effective_sizes_clamped 14 w large_request (Num 80) (Num 500) HB HT)
    as (corpus & _ & _ & _ & _ & HT' & _).
  split; [exact HB|]. split; [exact HT|]. split; [vm_compute; reflexivity|exact HT'].
Defined.

Lemma validated_base_path (variables : arguments) bp path B0 T0 :
  validate_result variables = Ret (bp, path, B0, T0) -> last bp = Some 47.
Proof.
  unfold validate_result, validate, bind, ret, throw.
  destruct (own_property "base_path" variables) as [v|]; [|done].
  destruct (bool_decide (v = lit "")); [done|].
  rewrite slice_last_slash.
  destruct (own_property "corpus" variables) as [c|]; [|done].
  destruct (bool_decide (c = lit "")); [done|].
  destruct (own_property "block_size" variables) as [bs|];
    [destruct (js_le (parseInt bs) (Num 0)); [done|] |];
    (destruct (own_property "total_size" variables) as [ts|];
     [destruct (js_le (parseInt ts) (Num 0)); [done|] |]);
    simpl; intros [= <- _ _ _];
    (destruct (bool_decide_reflect (last v = Some 47)); [done|apply last_snoc]).
Qed.

Lemma run_passes (fuel : nat) (w : world) (variables : arguments) :
  samples (final_state fuel w variables) <> [] ->
  exists corpus b t,
    corpus_bytes w variables = Some corpus
    /\ effective_block_size w variables = Num b
    /\ effective_total_size w variables = Num t
    /\ 0 < b <= Z.of_nat (length corpus)
    /\ 0 < t <= Z.of_nat (length corpus)
    /\ last (base_path_of variables) = Some 47
    /\ passes w corpus b t (base_path_of variables)
         (samples (final_state fuel w variables)).
Proof.
  intros Hs.
  exit_cases (run_exit fuel w variables);
    apply observe_fields in Hobs as (_ & _ & _ & _ & _ & Hsa);
    rewrite Hsa in *; try done.
  all: destruct (validate_result_ok _ _ _ _ _ Hv) as (_ & _ & _ & _ & HB0 & _ & HT0).
  all: pose proof (validated_base_path _ _ _ _ _ Hv) as Hslash.
  all: destruct (effective_sizes_of_run w variables _ _ _ _ _ Hv Hf)
         as (Hcb & <- & _ & _ & EB & ET).
  all: destruct (effective_size_cases corpus B0 Hne HB0) as [[? _]|(b' & Eb & Hb)];
         [congruence|].
  all: destruct (effective_size_cases corpus T0 Hne HT0) as [[? _]|(t' & Et & Ht)];
         [congruence|].
  all: assert (b' = b) by congruence; assert (t' = t) by congruence; subst b' t'.
  all: exists corpus, b, t; rewrite EB, ET; repeat split; try done; lia.
Qed.

Lemma passes_lookup (w : world) (corpus : list Byte.byte) (b t : Z)
    (base_path : jsstring) (l : list sample) (i : nat) (s : sample) :
  passes w corpus b t base_path l -> l !! i = Some s ->
  total_text (take i l) < t
  /\ pass_sample w corpus b t base_path i (total_text (take i l)) s.
Proof.
  intros Hp Hi.
  pose proof (take_drop_middle l i s Hi) as E. symmetry in E.
  destruct (passes_split _ _ _ _ _ _ _ _ _ Hp E) as [Hlt Hs].
  rewrite length_take_le in Hs; [done|].
  apply lookup_lt_Some in Hi. lia.
Qed.

Lemma floor_times_range (r : draw) (size : Z) :
  0 <= numer r < 2 ^ 53 -> 0 < size -> 0 <= floor_times r size < size.
Proof.
  intros Hr Hsize. split; [apply floor_times_nonneg; lia|].
  unfold floor_times. apply Z.div_lt_upper_bound; [lia|].
  apply round_double_below; nia.
Qed.

(** the floor is taken of the rounded product: 763321970740762 / 2^53 * 59
    is just below 5 and is rounded to 5 *)
Lemma floor_times_rounded :
  floor_times rounded_draw 59 = 5 /\ numer rounded_draw * 59 / 2 ^ 53 = 4.
Proof. split; vm_compute; reflexivity. Qed.

Lemma trim_to_total_prefix (t acc : Z) (line : jsstring) :
  (trim_to_total t acc line).1 `prefix_of` line.
Proof.
  unfold trim_to_total. destruct (t <? acc + js_length line); simpl; [|done].
  unfold slice0. apply prefix_take.
Qed.

(** C4: In every pass the offset is [floor(r * size)] for the draw [r] of
    that pass, the product being rounded as a double before the floor is
    taken; it lies in [0, size) for a draw in [0, 1); the buffer that
    is decoded holds exactly [effective_block_size] bytes: the bytes of the
    corpus from the offset on, up to the end of the file and at most the
    block size, followed by the bytes from the start of the corpus that
    make up the shortfall; the text of the pass is a prefix of that buffer
    decoded and normalised. *)
Theorem block_wraps_around (fuel : nat) (w : world)
    (variables : arguments) (i : nat) (s : sample) :
  wf_world w ->
  samples (final_state fuel w variables) !! i = Some s ->
  exists corpus b,
    corpus_bytes w variables = Some corpus
    /\ effective_block_size w variables = Num b
    /\ let size := Z.of_nat (length corpus) in
       let first := take (Z.to_nat b) (drop (Z.to_nat (s_offset s)) corpus) in
       s_offset s = floor_times (random w (2 * i)) size
       /\ 0 <= s_offset s < size
       /\ length first = Z.to_nat (Z.min b (size - s_offset s))
       /\ s_block s = first ++ take (Z.to_nat b - length first) corpus
       /\ length (s_block s) = Z.to_nat b
       /\ s_text s `prefix_of` normalize (toString_utf8 (s_block s)).
Proof.
  intros Hw Hi.
  destruct (run_passes fuel w variables) as (corpus & b & t & Hcb & EB & ET & Hb & Ht & Hslash & Hp).
  { intros E. by rewrite E in Hi. }
  destruct (passes_lookup _ _ _ _ _ _ _ _ Hp Hi) as [Hlt (Hoff & Hoff0 & Hblock & Htext & _)].
  exists corpus, b. split; [done|]. split; [done|].
  intros size first.
  assert (Hrange : 0 <= s_offset s < size).
  { rewrite Hoff. apply floor_times_range; [apply Hw|lia]. }
  split; [done|]. split; [done|]. split.
  { unfold first. rewrite length_take, length_drop. lia. }
  split; [done|]. split.
  { rewrite Hblock. by apply block_at_length. }
  rewrite Htext. apply trim_to_total_prefix.
Qed.

Lemma block_wraps_around_witness :
  let w := plain_world tears_in_rain wrapping_draw in
  let s := {| s_offset := 57; s_block := list_byte_of_string "n.All";
              s_text := lit "n.All"; s_id := lit "yvi";
              s_href := lit "/ephi/yvi.html" |} in
  wf_world w
  /\ samples (final_state 10 w ephi_request) !! 0%nat = Some s
  /\ 0 <= s_offset s < 59
  /\ drop 57 tears_in_rain = list_byte_of_string "n."
  /\ take 3 tears_in_rain = list_byte_of_string "All"
  /\ s_text s `prefix_of` normalize (toString_utf8 (s_block s))
  /\ floor_times rounded_draw 59 = 5.
Proof.
  intros w s.
  assert (Hw : wf_world w) by (intros n; apply wrapping_draw_wf).
  assert (Hs : samples (final_state 10 w ephi_request) !! 0%nat = Some s)
    by (vm_compute; reflexivity).
  destruct (block_wraps_around 10 w ephi_request 0 s Hw Hs)
    as (corpus & b & Hc & _ & _ & Hrange & _ & _ & _ & Hpre).
  assert (Hcorpus : corpus_bytes w ephi_request = Some tears_in_rain)
    by (vm_compute; reflexivity).
  rewrite Hcorpus in Hc. injection Hc as <-.
  split; [exact Hw|]. split; [exact Hs|]. split; [exact Hrange|].
  split; [vm_compute; reflexivity|]. split; [vm_compute; reflexivity|].
  split; [exact Hpre|vm_compute; reflexivity].
Defined.

(** ** The page name *)

(** one turn of the loop: the digit and the fraction that is left *)
Lemma radix_step (fraction : Z) :
  0 <= fraction < 2 ^ 53 ->
  let product := round_double (fraction * 36) in
  let digit := product / 2 ^ 53 in
  0 <= digit < 36 /\ 0 <= product - digit * 2 ^ 53 < 2 ^ 53.
Proof.
  intros HF product digit.
  assert (Hp : 0 <= product < 2 ^ 53 * 36).
  { split; [apply round_double_nonneg; lia|apply round_double_below; lia]. }
  pose proof (Z.div_mod product (2 ^ 53) ltac:(lia)) as Hdiv.
  pose proof (Z.mod_pos_bound product (2 ^ 53) ltac:(lia)) as Hrem.
  fold digit in Hdiv. split; [|lia]. split.
  - apply Z.div_pos; lia.
  - apply Z.div_lt_upper_bound; lia.
Qed.

Lemma carry_into_range (digit : Z) :
  0 <= digit < 36 -> Forall (fun d => 0 <= d < 36) (carry_into digit).1.
Proof.
  intros Hd. unfold carry_into. destruct (Z.ltb_spec (digit + 1) 36); simpl.
  - constructor; [lia|constructor].
  - constructor.
Qed.

Lemma radix_digits_range (fuel : nat) (fraction delta : Z) :
  0 <= fraction < 2 ^ 53 ->
  Forall (fun d => 0 <= d < 36) (radix_digits fuel fraction delta).1.
Proof.
  revert fraction delta. induction fuel as [|fuel IH]; intros F D HF; [constructor|].
  destruct (radix_step F HF) as [Hd HF']. cbn [radix_digits]. cbv zeta.
  destruct (_ && _); [by apply carry_into_range|].
  destruct (_ <=? _); [|constructor; [done|constructor]].
  specialize (IH _ (round_double (D * 36)) HF').
  destruct (radix_digits fuel _ _) as [rest [|]]; [by apply carry_into_range|].
  by constructor.
Qed.

(** a turn that does not carry into the digit before leaves a digit *)
Lemma radix_digits_some (fuel : nat) (fraction delta : Z) :
  (radix_digits (S fuel) fraction delta).2 = false ->
  (radix_digits (S fuel) fraction delta).1 <> [].
Proof.
  cbn [radix_digits]. cbv zeta. unfold carry_into.
  destruct (_ && _).
  { by destruct (_ <? 36). }
  destruct (_ <=? _); [|done].
  destruct (radix_digits fuel _ _) as [rest [|]]; [|done].
  by destruct (_ <? 36).
Qed.

(** Once every digit so far is the last digit [z], the fraction is short of
    1 by a multiple of [2^-47] and [delta] is at most that, and this stays
    so while the digits are [z]: the loop does not round up past them. *)
Lemma radix_digits_no_carry (fuel : nat) (fraction delta : Z) :
  0 <= fraction < 2 ^ 53 -> (64 | 2 ^ 53 - fraction) ->
  0 <= delta <= (2 ^ 53 - fraction) * 2 ^ 53 ->
  (radix_digits fuel fraction delta).2 = false.
Proof.
  revert fraction delta. induction fuel as [|fuel IH]; intros F D HF [g Hg] HD; [done|].
  destruct (radix_step F HF) as [Hd HF']. cbn [radix_digits]. cbv zeta.
  assert (Hexact : round_double (F * 36) = F * 36).
  { destruct (Z.eq_dec F 0) as [->|HF0]; [done|].
    apply (round_double_exact _ 6); [lia| |].
    - assert (Z.log2 (F * 36) < 59); [|lia].
      apply Z.log2_lt_pow2; lia.
    - exists (36 * 2 ^ 47 - g * 36). change (2 ^ 6) with 64. lia. }
  rewrite Hexact in *.
  set (digit := F * 36 / 2 ^ 53) in *.
  set (F' := F * 36 - digit * 2 ^ 53) in *.
  set (D' := round_double (D * 36)).
  destruct (Z.eq_dec digit 35) as [E35|Hless].
  - assert (Hgap : 2 ^ 53 - F' = 36 * (2 ^ 53 - F)) by (unfold F'; lia).
    assert (HD' : 0 <= D' <= (2 ^ 53 - F') * 2 ^ 53).
    { split; [apply round_double_nonneg; lia|].
      apply (round_double_le _ _ 59); [lia| |].
      - assert (Z.log2 (D * 36) < 112); [|lia].
        destruct (Z.eq_dec D 0) as [->|]; [done|].
        apply Z.log2_lt_pow2; [lia|]. nia.
      - exists (36 * g). rewrite Hgap, Hg. change (2 ^ 59) with (64 * 2 ^ 53). lia. }
    assert (Hsum : round_double (F' * 2 ^ 53 + D') <= 2 ^ 106).
    { apply (round_double_le _ _ 106); [lia| |by exists 1].
      assert (Z.log2 (F' * 2 ^ 53 + D') <= 106); [|lia].
      destruct (Z.eq_dec (F' * 2 ^ 53 + D') (2 ^ 106)) as [->|]; [done|].
      assert (Z.log2 (F' * 2 ^ 53 + D') < 106); [|lia].
      destruct (Z.eq_dec (F' * 2 ^ 53 + D') 0) as [->|]; [done|].
      apply Z.log2_lt_pow2; lia. }
    destruct (Z.ltb_spec (2 ^ 106) (round_double (F' * 2 ^ 53 + D'))); [lia|].
    rewrite andb_false_r.
    destruct (_ <=? _); [|done].
    assert (Hrec : (radix_digits fuel F' D').2 = false).
    { apply IH; [lia| |done]. exists (36 * g). lia. }
    destruct (radix_digits fuel F' D') as [rest carry]. simpl in Hrec. by rewrite Hrec.
  - unfold carry_into.
    destruct (Z.ltb_spec (digit + 1) 36); [|lia].
    destruct (_ && _); [done|].
    destruct (_ <=? _); [|done].
    by destruct (radix_digits fuel _ _) as [rest [|]].
Qed.

(** the digits of a fraction [numer / 2^53] other than 0 *)
Lemma radix_digits_first (fuel : nat) (numer : Z) :
  0 < numer < 2 ^ 53 ->
  (radix_digits (S fuel) numer (2 ^ Z.log2 numer)).2 = false.
Proof.
  intros Hn.
  destruct (radix_step numer ltac:(lia)) as [Hd HF']. cbn [radix_digits]. cbv zeta.
  set (product := round_double (numer * 36)) in *.
  set (digit := product / 2 ^ 53) in *.
  set (F' := product - digit * 2 ^ 53) in *.
  set (D' := round_double (2 ^ Z.log2 numer * 36)).
  destruct (Z.eq_dec digit 35) as [E35|Hless].
  - assert (Hlog : Z.log2 (numer * 36) = 58).
    { assert (Hlt : Z.log2 (numer * 36) < 59) by (apply Z.log2_lt_pow2; lia).
      destruct (Z.eq_dec (Z.log2 (numer * 36)) 58) as [|Hne]; [done|]. exfalso.
      assert (Hsmall : product <= 2 ^ 58).
      { apply (round_double_le _ _ 58); [|lia|by exists 1].
        split; [lia|].
        assert (numer * 36 < 2 ^ 58); [|lia].
        apply Z.log2_lt_pow2; lia. }
      assert (digit <= 32); [|lia].
      unfold digit. change 32 with (2 ^ 58 / 2 ^ 53). apply Z.div_le_mono; lia. }
    assert (Hgrid : (64 | product)).
    { pose proof (round_double_grid (numer * 36)) as H.
      rewrite Hlog in H. apply H. lia. }
    destruct Hgrid as [k Hk].
    assert (Hbelow : product < 2 ^ 53 * 36) by (apply round_double_below; lia).
    assert (Hgap : (64 | 2 ^ 53 - F')).
    { exists (36 * 2 ^ 47 - k). unfold F'. rewrite E35, Hk. lia. }
    assert (Hgap64 : 64 <= 2 ^ 53 - F').
    { destruct Hgap as [g Hg]. assert (0 < g) by lia. lia. }
    assert (Hlog2 : 2 ^ Z.log2 numer <= 2 ^ 52).
    { apply Z.pow_le_mono_r; [lia|].
      assert (Z.log2 numer < 53); [|lia]. apply Z.log2_lt_pow2; lia. }
    assert (Hpos : 0 < 2 ^ Z.log2 numer) by (apply Z.pow_pos_nonneg; [lia|apply Z.log2_nonneg]).
    assert (HD' : 0 <= D' <= (2 ^ 53 - F') * 2 ^ 53).
    { split; [apply round_double_nonneg; lia|].
      transitivity (2 ^ 58); [|nia].
      apply (round_double_le _ _ 58); [lia| |by exists 1].
      assert (Z.log2 (2 ^ Z.log2 numer * 36) < 58); [|lia].
      apply Z.log2_lt_pow2; lia. }
    assert (Hsum : round_double (F' * 2 ^ 53 + D') <= 2 ^ 106).
    { apply (round_double_le _ _ 106); [lia| |by exists 1].
      destruct (Z.eq_dec (F' * 2 ^ 53 + D') (2 ^ 106)) as [->|]; [done|].
      assert (Z.log2 (F' * 2 ^ 53 + D') < 106); [|lia].
      destruct (Z.eq_dec (F' * 2 ^ 53 + D') 0) as [->|]; [done|].
      apply Z.log2_lt_pow2; lia. }
    destruct (Z.ltb_spec (2 ^ 106) (round_double (F' * 2 ^ 53 + D'))); [lia|].
    rewrite andb_false_r.
    destruct (_ <=? _); [|done].
    pose proof (radix_digits_no_carry fuel F' D' ltac:(lia) Hgap HD') as Hrec.
    destruct (radix_digits fuel F' D') as [rest carry]. simpl in Hrec. by rewrite Hrec.
  - unfold carry_into.
    destruct (Z.ltb_spec (digit + 1) 36); [|lia].
    destruct (_ && _); [done|].
    destruct (_ <=? _); [|done].
    by destruct (radix_digits fuel _ _) as [rest [|]].
Qed.

(** [delta] at least doubles in every turn, so the loop ends within 107
    turns and more fuel changes nothing *)
Lemma radix_digits_fuel (fuel1 fuel2 : nat) (fraction delta : Z) :
  0 <= fraction < 2 ^ 53 -> 0 <= delta ->
  2 ^ 106 <= delta * 2 ^ Z.of_nat fuel1 ->
  2 ^ 106 <= delta * 2 ^ Z.of_nat fuel2 ->
  radix_digits (S fuel1) fraction delta = radix_digits (S fuel2) fraction delta.
Proof.
  revert fuel2 fraction delta.
  induction fuel1 as [|fuel1 IH]; intros fuel2 F D HF HD H1 H2.
  - destruct (radix_step F HF) as [Hd HF']. cbn [radix_digits]. cbv zeta.
    pose proof (round_double_half (D * 36) ltac:(lia)) as Hhalf.
    change (2 ^ Z.of_nat 0) with 1 in H1.
    destruct (Z.leb_spec (round_double (D * 36))
                ((round_double (F * 36) - round_double (F * 36) / 2 ^ 53 * 2 ^ 53) * 2 ^ 53));
      [nia|done].
  - destruct (radix_step F HF) as [Hd HF']. 
    pose proof (round_double_half (D * 36) ltac:(lia)) as Hhalf.
    destruct fuel2 as [|fuel2].
    + cbn [radix_digits]. cbv zeta. change (2 ^ Z.of_nat 0) with 1 in H2.
      destruct (Z.leb_spec (round_double (D * 36))
                  ((round_double (F * 36) - round_double (F * 36) / 2 ^ 53 * 2 ^ 53) * 2 ^ 53));
        [nia|done].
    + remember (S fuel1) as f1. remember (S fuel2) as f2.
      cbn [radix_digits]. cbv zeta. subst f1 f2.
      rewrite (IH fuel2); [done|done|lia| |].
      * rewrite Nat2Z.inj_succ, Z.pow_succ_r in H1 by lia. nia.
      * rewrite Nat2Z.inj_succ, Z.pow_succ_r in H2 by lia. nia.
Qed.

Lemma digit36_base36 (d : Z) : 0 <= d < 36 -> is_base36_char (digit36 d).
Proof.
  intros Hd. unfold digit36, is_base36_char.
  destruct (Z.ltb_spec d 10); lia.
Qed.

(** the rendering of a draw is ["0"] for 0 and ["0."] with at least one
    digit behind it otherwise: the rounding never carries into the integer
    part *)
Lemma toString36_shape (r : draw) :
  wf_draw r ->
  numer r = 0 /\ toString36 r = lit "0"
  \/ 0 < numer r
     /\ exists ds, ds <> [] /\ Forall (fun d => 0 <= d < 36) ds
          /\ toString36 r = lit "0." ++ map digit36 ds.
Proof.
  destruct r as [n]. unfold wf_draw, toString36. cbn [numer]. intros Hn.
  destruct (Z.eq_dec n 0) as [->|Hn0]; [by left|right]. split; [lia|].
  assert (Hpos : 0 < n) by lia.
  pose proof (Z.log2_spec n Hpos) as [Hlog _].
  destruct (Z.leb_spec (2 ^ Z.log2 n) (n * 2 ^ 53)); [|nia].
  pose proof (radix_digits_first 109 n ltac:(lia)) as Hcarry.
  pose proof (radix_digits_some 109 n (2 ^ Z.log2 n) Hcarry) as Hsome.
  pose proof (radix_digits_range 110 n (2 ^ Z.log2 n) ltac:(lia)) as Hrange.
  destruct (radix_digits 110 n (2 ^ Z.log2 n)) as [ds carry].
  simpl in Hcarry, Hsome, Hrange. subst carry.
  exists ds. split; [done|]. split; [done|]. by destruct ds.
Qed.

(** C6, as stated, fails twice.  When the second draw of a pass is 0 its
    rendering is ["0"], nothing is left behind the first two characters,
    and the anchor points to [/ephi/.html].  When it is
    7668436476503526 / 2^53 its rendering is ["0.undefined"], and the
    anchor points to [/ephi/undefined.html]. *)
Lemma page_name_empty_or_undefined :
  (let w := plain_world tears_in_rain zero_second_draw in
   wf_world w
   /\ exists s, samples (final_state 10 w ephi_request) !! 0%nat = Some s
        /\ s_id s = lit "" /\ s_href s = lit "/ephi/.html")
  /\ (let w := plain_world tears_in_rain undefined_second_draw in
      wf_world w
      /\ toString36 undefined_draw = lit "0.undefined"
      /\ exists s, samples (final_state 10 w ephi_request) !! 0%nat = Some s
           /\ s_id s = lit "undefined" /\ s_href s = lit "/ephi/undefined.html").
Proof.
  split; intros w.
  - split; [intros n; apply zero_second_draw_wf|].
    eexists. split; [vm_compute; reflexivity|]. split; vm_compute; reflexivity.
  - split; [intros n; apply undefined_second_draw_wf|].
    split; [vm_compute; reflexivity|].
    eexists. split; [vm_compute; reflexivity|]. split; vm_compute; reflexivity.
Qed.

(** C6 (amended): The target of the anchor of every pass is the base path,
    ending in a slash, followed by the page name and [.html]; the page name
    is what follows the first two characters of the radix-36 rendering of
    the second draw of the pass.  For a draw other than 0 the rendering is
    ["0."] and the page name, which is not empty; for the draw 0 the
    rendering is ["0"] and the page name is empty.  The page name is made
    of digits and lower-case letters only, so it holds no slash and no
    point; it can be any such word the rendering gives, [undefined]
    included. *)
Theorem link_target_shape (fuel : nat) (w : world)
    (variables : arguments) (i : nat) (s : sample) :
  wf_world w ->
  samples (final_state fuel w variables) !! i = Some s ->
  let r := random w (2 * i + 1) in
  s_href s = base_path_of variables ++ s_id s ++ lit ".html"
  /\ last (base_path_of variables) = Some 47
  /\ s_id s = substring_from 2 (toString36 r)
  /\ (numer r = 0 -> toString36 r = lit "0")
  /\ (numer r <> 0 -> toString36 r = lit "0." ++ s_id s)
  /\ Forall is_base36_char (s_id s)
  /\ (47 ∉ s_id s) /\ (46 ∉ s_id s)
  /\ (s_id s = [] <-> numer r = 0).
Proof.
  intros Hw Hi r.
  destruct (run_passes fuel w variables) as (corpus & b & t & Hcb & EB & ET & Hb & Ht & Hslash & Hp).
  { intros E. by rewrite E in Hi. }
  destruct (passes_lookup _ _ _ _ _ _ _ _ Hp Hi) as [Hlt (_ & _ & _ & _ & Hid & Hhref)].
  fold r in Hid. unfold page_name in Hid.
  split; [done|]. split; [done|]. split; [done|].
  destruct (toString36_shape r (Hw (2 * i + 1)%nat))
    as [[Hzero Hshape]|(Hpos & ds & Hne & Hrange & Hshape)];
    rewrite Hshape in Hid.
  - change (substring_from 2 (lit "0")) with (@nil Z) in Hid. rewrite Hid.
    split; [done|]. split; [done|]. split; [constructor|].
    split; [apply not_elem_of_nil|]. split; [apply not_elem_of_nil|done].
  - change (substring_from 2 (lit "0." ++ map digit36 ds)) with (map digit36 ds) in Hid.
    assert (Hall : Forall is_base36_char (s_id s)).
    { rewrite Hid. apply Forall_fmap. eapply Forall_impl; [exact Hrange|].
      intros d Hd. by apply digit36_base36. }
    split; [lia|]. split; [by rewrite Hid|]. split; [done|]. split.
    { intros Hin. rewrite Forall_forall in Hall. destruct (Hall _ Hin); lia. }
    split.
    { intros Hin. rewrite Forall_forall in Hall. destruct (Hall _ Hin); lia. }
    rewrite Hid. split; [|lia]. intros E%fmap_nil_inv. done.
Qed.

Lemma link_target_shape_witness :
  let w := plain_world tears_in_rain sample_draw in
  let s := {| s_offset := 14; s_block := list_byte_of_string "nts w";
              s_text := lit "nts w"; s_id := lit "di00000000d";
              s_href := lit "/ephi/di00000000d.html" |} in
  wf_world w
  /\ samples (final_state 10 w ephi_request) !! 1%nat = Some s
  /\ s_href s = base_path_of ephi_request ++ s_id s ++ lit ".html"
  /\ toString36 (sample_draw 3) = lit "0." ++ s_id s
  /\ Forall is_base36_char (s_id s).
Proof.
  intros w s.
  assert (Hw : wf_world w) by (intros n; apply sample_draw_wf).
  assert (Hs : samples (final_state 10 w ephi_request) !! 1%nat = Some s)
    by (vm_compute; reflexivity).
  destruct (link_target_shape 10 w ephi_request 1 s Hw Hs)
    as (Hhref & _ & _ & _ & Hshape & Hall & _).
  split; [exact Hw|]. split; [exact Hs|]. split; [exact Hhref|].
  split; [apply Hshape; vm_compute; discriminate|exact Hall].
Defined.

Lemma attempt_close_flag (flag : bool) (fuel : nat) (w : world)
    (variables : arguments) :
  attempt fuel (with_close_fails flag w) variables = attempt fuel w variables.
Proof. reflexivity. Qed.

Lemma finally_block_keeps (w : world) (st : state) :
  exists st', finally_block w st = (Ret tt, st')
    /\ response st' = response st /\ samples st' = samples st.
Proof.
  unfold finally_block. destruct (var_fd st) as [fd|]; [|by exists st].
  unfold try_catch, bind, closeSync.
  destruct (fd_table st !! fd); [destruct (close_fails w)|]; by eexists.
Qed.

Lemma serve_after_attempt (fuel : nat) (w : world)
    (variables : arguments) :
  exists st,
    (serve fuel w variables).1 = (attempt fuel w variables).1
    /\ (serve fuel w variables).2 = st
    /\ response st = response (attempt fuel w variables).2
    /\ samples st = samples (attempt fuel w variables).2.
Proof.
  unfold serve, random_content, try_finally. fold (attempt fuel w variables).
  destruct (attempt fuel w variables) as [[[]|e|] st1]; simpl.
  - destruct (finally_block_keeps w st1) as (st' & -> & Hr & Hs). by exists st'.
  - destruct (finally_block_keeps w st1) as (st' & -> & Hr & Hs). by exists st'.
  - by exists st1.
Qed.

(** C9: A run that ends either never assigned [fd], and then nothing is
    open and [closeSync] was not called, or it opened the corpus, and then
    the last call to the file system is the one [closeSync] on that
    descriptor, after which no descriptor is open unless the close failed;
    the last line on the console says which.  Whether the close fails
    changes neither the outcome nor the response nor the passes made. *)
Theorem descriptor_closed (fuel : nat) (w : world)
    (variables : arguments) :
  (Z.to_nat (iteration_budget w variables) <= fuel)%nat ->
  let st := final_state fuel w variables in
  match var_fd st with
  | None =>
      fd_table st = ∅ /\ (LogOpened ∉ console st)
      /\ Forall (fun c => ~ is_close c /\ ~ is_read c) (calls st)
  | Some fd =>
      exists path rs,
        calls st = [StatSync path; OpenSync path] ++ rs ++ [CloseSync fd]
        /\ Forall is_read rs
        /\ LogOpened ∈ console st
        /\ last (console st)
           = Some (if close_fails w
                   then ErrUnableToClose (SystemError "close") else LogClosed)
        /\ (close_fails w = false -> fd_table st = ∅)
  end
  /\ forall flag,
       outcome fuel (with_close_fails flag w) variables = outcome fuel w variables
       /\ response (final_state fuel (with_close_fails flag w) variables)
          = response st
       /\ samples (final_state fuel (with_close_fails flag w) variables)
          = samples st.
Proof.
  intros Hfuel st. split.
  - subst st.
    exit_cases (run_exit fuel w variables);
      try (rewrite (iteration_budget_of_run w variables _ _ _ _ _ Hv Hf), HB, HT in Hfuel; lia);
      apply observe_fields in Hobs as (Htb & Hca & Hco & _ & Hfd & _);
      rewrite Hfd, Htb, Hca, Hco.
    1-4: split; [done|]; split;
         [intros Hin; console_cases Hin | repeat constructor; simpl; tauto].
    all: eexists path, _; (split; [reflexivity || (by instantiate (1 := []))|]).
    all: split; [done || constructor|].
    all: split; [apply list_elem_of_lookup; by exists 2%nat|].
    all: unfold closing_line, closed_table; destruct (close_fails w); done.
  - intros flag. unfold outcome, final_state. subst st. unfold final_state.
    destruct (serve_after_attempt fuel (with_close_fails flag w) variables)
      as (st1 & -> & -> & -> & ->).
    destruct (serve_after_attempt fuel w variables) as (st2 & -> & -> & -> & ->).
    by rewrite attempt_close_flag.
Qed.

Lemma descriptor_closed_witness :
  let w := with_close_fails true (plain_world tears_in_rain sample_draw) in
  let st := final_state 10 w ephi_request in
  (Z.to_nat (iteration_budget w ephi_request) <= 10)%nat
  /\ var_fd st = Some 3
  /\ last (console st) = Some (ErrUnableToClose (SystemError "close"))
  /\ response (final_state 10 (with_close_fails false w) ephi_request) = response st
  /\ response st = Some (200, page (anchors (samples st))).
Proof.
  intros w st.
  assert (Hfuel : (Z.to_nat (iteration_budget w ephi_request) <= 10)%nat)
    by (vm_compute; lia).
  assert (Hfd : var_fd st = Some 3) by (vm_compute; reflexivity).
  destruct (descriptor_closed 10 w ephi_request Hfuel) as [Hshape Hflag].
  fold st in Hshape. rewrite Hfd in Hshape.
  destruct Hshape as (path & rs & _ & _ & _ & Hlast & _).
  destruct (Hflag false) as (_ & Hresp & _).
  split; [exact Hfuel|]. split; [exact Hfd|]. split; [exact Hlast|].
  split; [exact Hresp|vm_compute; reflexivity].
Defined.

(** ** Two runs *)

(** C10: Text of the corpus reaches the page as it is: the characters
    [<], [>], [&] and the double quote of the corpus are in the text of the
    anchor and in the body, not replaced by character references. *)
Theorem corpus_markup_not_escaped :
  let w := plain_world markup_corpus sample_draw in
  let text := lit "<b>Tom & Jerry</b> said " ++ [DQUOTE] ++ lit "hi" ++ [DQUOTE] in
  toString_utf8 markup_corpus = text
  /\ response (final_state 10 w default_request)
     = Some (200, page (anchor (lit "/ephi/4i00000000d.html") text))
  /\ exists before after,
       page (anchor (lit "/ephi/4i00000000d.html") text)
       = before ++ lit ">" ++ text ++ lit "</a>" ++ after.
Proof.
  intros w text. split; [vm_compute; reflexivity|]. split; [vm_compute; reflexivity|].
  exists (page_head ++ lit "<a href=" ++ [DQUOTE] ++ lit "/ephi/4i00000000d.html"
            ++ [DQUOTE]),
    page_tail.
  vm_compute. reflexivity.
Qed.

(** What the validation does reject: a size that parses to a number that is
    not positive, before any call to the file system. *)
Lemma nonpositive_block_size_rejected (variables : arguments) (bp path v : jsstring) :
  own_property "base_path" variables = Some bp -> bp <> [] ->
  own_property "corpus" variables = Some path -> path <> [] ->
  own_property "block_size" variables = Some v ->
  js_le (parseInt v) (Num 0) = true ->
  validate_result variables
  = Throw (RangeError
      "random_content() error: block_size argument is not a positive integer").
Proof.
  intros Hbp Hbpne Hc Hcne Hv Hle.
  unfold validate_result, validate, bind, ret, throw. rewrite Hbp, Hc, Hv.
  destruct (bool_decide_reflect (bp = lit "")); [done|].
  destruct (bool_decide_reflect (path = lit "")); [done|].
  by rewrite Hle.
Qed.

Lemma rejected_before_file_access (fuel : nat) (w : world) (variables : arguments)
    (err : error) :
  validate_result variables = Throw err ->
  calls (final_state fuel w variables) = []
  /\ console (final_state fuel w variables) = [ErrCaught err]
  /\ response (final_state fuel w variables) = Some (500, generic_message).
Proof.
  intros He.
  exit_cases (run_exit fuel w variables); try congruence.
  apply observe_fields in Hobs as (_ & Hca & Hco & Hr & _).
  rewrite Hv in He. injection He as ->. by rewrite Hca, Hco, Hr.
Qed.

(** C5: A [block_size] that is not a number is not rejected: [parseInt]
    gives [NaN], [NaN <= 0] is false, no [RangeError] is thrown by the
    validation and the script goes on to [statSync] and [openSync]; the
    request then fails in [Buffer.alloc], or, where [Buffer.alloc] lets
    [NaN] through, is answered with an empty page.  A [total_size] that is
    not a number is answered with an empty page as well. *)
Theorem unparsable_block_size_accepted :
  let w := plain_world tears_in_rain sample_draw in
  let w' := lenient_world tears_in_rain sample_draw in
  parseInt (lit "abc") = NaN
  /\ validate_result unparsable_request
     = Ret (lit "/ephi/", corpus_path, NaN, Num 500)
  /\ calls (final_state 10 w unparsable_request)
     = [StatSync corpus_path; OpenSync corpus_path; CloseSync 3]
  /\ console (final_state 10 w unparsable_request)
     = [LogValidatedBlock NaN; LogValidatedTotal (Num 59); LogOpened;
        ErrCaught (RangeError "invalid size"); LogClosed]
  /\ response (final_state 10 w' unparsable_request) = Some (200, page [])
  /\ validate_result unparsable_total_request
     = Ret (lit "/ephi/", corpus_path, Num 80, NaN)
  /\ response (final_state 10 w unparsable_total_request) = Some (200, page []).
Proof.
  intros w w'. repeat split; vm_compute; reflexivity.
Qed.

(** * Further properties *)

(** ** The arguments and the ways out *)

Lemma serve_validate_ext (fuel : nat) (w : world) (v1 v2 : arguments) :
  validate_result v1 = validate_result v2 ->
  serve fuel w v1 = serve fuel w v2.
Proof.
  intros E. unfold serve, random_content, try_finally, try_catch.
  assert (Ht : forall st, try_block fuel w v1 st = try_block fuel w v2 st).
  { intros st. unfold try_block. unfold bind at 1. symmetry. unfold bind at 1.
    by rewrite !validate_run, E. }
  by rewrite Ht.
Qed.

Lemma run_refused (fuel : nat) (w : world) (variables : arguments) (err : error) :
  validate_result variables = Throw err ->
  outcome fuel w variables = Ret tt
  /\ observe (final_state fuel w variables)
     = (∅, [], [ErrCaught err], Some (500, generic_message), None, []).
Proof.
  intros He.
  exit_cases (run_exit fuel w variables); try congruence.
  rewrite Hv in He. injection He as ->. done.
Qed.

(** X1: When [base_path] or [corpus] is missing or empty the request is
    refused before anything else is done: the error is a [SyntaxError] for
    a missing argument and a [RangeError] for an empty one, [base_path]
    being examined first; it is written to the console, the file system is
    not touched, no descriptor is assigned, and the answer is status 500
    with the generic message. *)
Theorem required_arguments_enforced (fuel : nat) (w : world)
    (variables : arguments) :
  ~ (exists bp path, own_property "base_path" variables = Some bp /\ bp <> []
       /\ own_property "corpus" variables = Some path /\ path <> []) ->
  let e :=
    match own_property "base_path" variables, own_property "corpus" variables with
    | None, _ => SyntaxError "random_content() error: base_path argument missing"
    | Some [], _ => RangeError "random_content() error: base_path argument is empty"
    | Some _, None => SyntaxError "random_content() error: corpus argument missing"
    | Some _, Some _ => RangeError "random_content() error: corpus argument is empty"
    end in
  outcome fuel w variables = Ret tt
  /\ observe (final_state fuel w variables)
     = (∅, [], [ErrCaught e], Some (500, generic_message), None, []).
Proof.
  intros Hno e. apply run_refused. subst e.
  unfold validate_result, validate, bind, ret, throw.
  destruct (own_property "base_path" variables) as [[|x bp]|]; [done| |done].
  change (bool_decide (x :: bp = lit "")) with false. cbv iota.
  destruct (own_property "corpus" variables) as [[|y path]|]; [done| |done].
  destruct Hno. by exists (x :: bp), (y :: path).
Qed.

Lemma required_arguments_enforced_witness :
  let st := final_state 10 (plain_world tears_in_rain sample_draw) corpus_only_request in
  calls st = []
  /\ console st
     = [ErrCaught (SyntaxError "random_content() error: base_path argument missing")]
  /\ response st = Some (500, generic_message).
Proof.
  intros st.
  assert (Hno : ~ (exists bp path,
             own_property "base_path" corpus_only_request = Some bp /\ bp <> []
             /\ own_property "corpus" corpus_only_request = Some path /\ path <> [])).
  { intros (bp & path & Hbp & _). vm_compute in Hbp. discriminate Hbp. }
  destruct (required_arguments_enforced 10 (plain_world tears_in_rain sample_draw)
              corpus_only_request Hno) as [_ Hobs].
  apply observe_fields in Hobs as (_ & Hca & Hco & Hr & _).
  split; [exact Hca|]. split; [exact Hco|exact Hr].
Defined.

(** X2: When both required arguments are there and [block_size] or
    [total_size] parses to a number that is zero or negative, the request
    is refused with a [RangeError] that names the argument, [block_size]
    first, before any call to the file system; the answer is status 500
    with the generic message. *)
Theorem nonpositive_size_refused (fuel : nat) (w : world)
    (variables : arguments) (bp path : jsstring) :
  own_property "base_path" variables = Some bp -> bp <> [] ->
  own_property "corpus" variables = Some path -> path <> [] ->
  js_le (configured_block_size variables) (Num 0) = true
  \/ js_le (configured_total_size variables) (Num 0) = true ->
  let e :=
    if js_le (configured_block_size variables) (Num 0)
    then RangeError "random_content() error: block_size argument is not a positive integer"
    else RangeError "random_content() error: total_size argument is not a positive integer" in
  outcome fuel w variables = Ret tt
  /\ observe (final_state fuel w variables)
     = (∅, [], [ErrCaught e], Some (500, generic_message), None, []).
Proof.
  intros Hbp Hbpne Hc Hcne Hle e. apply run_refused. subst e.
  unfold configured_block_size, configured_total_size in *.
  unfold validate_result, validate, bind, ret, throw. rewrite Hbp, Hc.
  destruct (bool_decide_reflect (bp = lit "")); [done|].
  destruct (bool_decide_reflect (path = lit "")); [done|].
  destruct (own_property "block_size" variables) as [bs|].
  - destruct (js_le (parseInt bs) (Num 0)); [done|].
    destruct Hle as [Hle|Hle]; [done|].
    destruct (own_property "total_size" variables) as [ts|]; [|done].
    by rewrite Hle.
  - destruct Hle as [Hle|Hle]; [done|]. simpl.
    destruct (own_property "total_size" variables) as [ts|]; [|done].
    by rewrite Hle.
Qed.

Lemma nonpositive_size_refused_witness :
  let st := final_state 10 (plain_world tears_in_rain sample_draw) zero_block_request in
  configured_block_size zero_block_request = Num 0
  /\ configured_total_size zero_block_request = Num (-5)
  /\ calls st = []
  /\ console st
     = [ErrCaught (RangeError
          "random_content() error: block_size argument is not a positive integer")]
  /\ response st = Some (500, generic_message).
Proof.
  intros st.
  destruct (nonpositive_size_refused 10 (plain_world tears_in_rain sample_draw)
              zero_block_request (lit "/ephi/") corpus_path)
    as [_ Hobs];
    [reflexivity|discriminate|reflexivity|discriminate|left; reflexivity|].
  apply observe_fields in Hobs as (_ & Hca & Hco & Hr & _).
  split; [reflexivity|]. split; [reflexivity|].
  split; [exact Hca|]. split; [exact Hco|exact Hr].
Defined.

Lemma own_property_cons (name n : string) (v : jsstring) (variables : arguments) :
  own_property name ((n, v) :: variables)
  = if String.eqb name n then Some v else own_property name variables.
Proof. reflexivity. Qed.

(** X3: A request without [block_size] runs exactly as the same request
    with [block_size] set to 80, and a request without [total_size] exactly
    as with [total_size] set to 500: same outcome, same calls, same
    console, same response. *)
Theorem default_sizes (fuel : nat) (w : world) (variables : arguments) :
  (own_property "block_size" variables = None ->
   serve fuel w variables = serve fuel w (("block_size"%string, lit "80") :: variables))
  /\ (own_property "total_size" variables = None ->
      serve fuel w variables = serve fuel w (("total_size"%string, lit "500") :: variables)).
Proof.
  split; intros Hnone; apply serve_validate_ext;
    unfold validate_result, validate; rewrite !own_property_cons; simpl String.eqb;
    cbv iota; rewrite Hnone; reflexivity.
Qed.

(** X4: A base path that does not end with a slash runs exactly as the
    same base path with the slash appended. *)
Theorem trailing_slash_optional (fuel : nat) (w : world)
    (variables : arguments) (bp : jsstring) :
  own_property "base_path" variables = Some bp -> bp <> [] ->
  last bp <> Some 47 ->
  serve fuel w variables
  = serve fuel w (("base_path"%string, bp ++ lit "/") :: variables).
Proof.
  intros Hbp Hne Hlast. apply serve_validate_ext.
  unfold validate_result, validate. rewrite !own_property_cons. simpl String.eqb.
  cbv iota. rewrite Hbp.
  destruct (bool_decide_reflect (bp = lit "")) as [|_]; [done|].
  destruct (bool_decide_reflect (bp ++ lit "/" = lit "")) as [E|_].
  { by destruct bp. }
  unfold bind at 1. symmetry. unfold bind at 1. unfold ret at 1. symmetry. unfold ret at 1.
  rewrite !slice_last_slash.
  destruct (bool_decide_reflect (last bp = Some 47)) as [|_]; [done|].
  destruct (bool_decide_reflect (last (bp ++ lit "/") = Some 47)) as [_|Hn]; [done|].
  destruct Hn. apply last_snoc.
Qed.

Lemma trailing_slash_optional_witness :
  let w := plain_world tears_in_rain sample_draw in
  serve 10 w ephi_request
  = serve 10 w (("base_path"%string, lit "/ephi" ++ lit "/") :: ephi_request)
  /\ own_property "base_path" ephi_request = Some (lit "/ephi").
Proof.
  intros w. split; [|reflexivity].
  apply (trailing_slash_optional 10 w ephi_request (lit "/ephi"));
    [reflexivity|discriminate|vm_compute; discriminate].
Defined.

(** X5: When the arguments are valid and the corpus file does not exist
    or is empty, [statSync] is the only call to the file system: the file
    is never opened, no descriptor is assigned, the error ([statSync]'s
    own, or "corpus file size is empty") is written to the console and the
    answer is status 500 with the generic message. *)
Theorem unreadable_corpus_never_opened (fuel : nat) (w : world)
    (variables : arguments) (base file : jsstring) (B T : jsnum) :
  validate_result variables = Ret (base, file, B, T) ->
  files w file = None \/ files w file = Some [] ->
  let e := match files w file with
           | None => SystemError "stat"
           | Some _ => Error "random_content() error: corpus file size is empty"
           end in
  outcome fuel w variables = Ret tt
  /\ observe (final_state fuel w variables)
     = (∅, [StatSync file], [ErrCaught e], Some (500, generic_message), None, []).
Proof.
  intros Hval Hfile e. subst e.
  exit_cases (run_exit fuel w variables);
    rewrite Hv in Hval; try discriminate Hval;
    injection Hval as <- <- <- <-; try (rewrite Hf; by split);
    destruct Hfile as [Hfile|Hfile]; congruence.
Qed.

Lemma unreadable_corpus_never_opened_witness :
  let w := plain_world [] sample_draw in
  let st := final_state 10 w ephi_request in
  files w corpus_path = Some []
  /\ calls st = [StatSync corpus_path]
  /\ console st
     = [ErrCaught (Error "random_content() error: corpus file size is empty")]
  /\ response st = Some (500, generic_message)
  /\ var_fd st = None.
Proof.
  intros w st.
  assert (Hf : files w corpus_path = Some []) by reflexivity.
  destruct (unreadable_corpus_never_opened 10 w ephi_request
              (lit "/ephi/") corpus_path (Num 5) (Num 12))
    as [_ Hobs]; [vm_compute; reflexivity|right; exact Hf|].
  apply observe_fields in Hobs as (_ & Hca & Hco & Hr & Hfd & _).
  split; [exact Hf|]. split; [exact Hca|]. split; [exact Hco|].
  split; [exact Hr|exact Hfd].
Defined.

(** X6: When the corpus is there and not empty but [openSync] fails, the
    two validated sizes have been logged, the file system saw [statSync]
    and [openSync] only, no descriptor is assigned, so nothing is read and
    nothing is closed, and the answer is status 500 with the generic
    message. *)
Theorem open_failure_leaves_nothing_open (fuel : nat) (w : world)
    (variables : arguments) (base file : jsstring) (B T : jsnum)
    (bytes : list Byte.byte) :
  validate_result variables = Ret (base, file, B, T) ->
  files w file = Some bytes -> bytes <> [] ->
  open_fails w = true ->
  outcome fuel w variables = Ret tt
  /\ observe (final_state fuel w variables)
     = (∅, [StatSync file; OpenSync file],
        [LogValidatedBlock (effective_size bytes B);
         LogValidatedTotal (effective_size bytes T);
         ErrCaught (SystemError "open")],
        Some (500, generic_message), None, []).
Proof.
  intros Hval Hfile Hbytes Hfails.
  exit_cases (run_exit fuel w variables);
    rewrite Hv in Hval; try discriminate Hval;
    injection Hval as <- <- <- <-; try congruence.
  assert (corpus = bytes) by congruence. subst corpus. by split.
Qed.

Lemma open_failure_leaves_nothing_open_witness :
  let w := locked_world tears_in_rain sample_draw in
  let st := final_state 10 w ephi_request in
  calls st = [StatSync corpus_path; OpenSync corpus_path]
  /\ console st = [LogValidatedBlock (Num 5); LogValidatedTotal (Num 12);
                   ErrCaught (SystemError "open")]
  /\ response st = Some (500, generic_message)
  /\ var_fd st = None /\ fd_table st = ∅.
Proof.
  intros w st.
  destruct (open_failure_leaves_nothing_open 10 w ephi_request
              (lit "/ephi/") corpus_path (Num 5) (Num 12) tears_in_rain)
    as [_ Hobs]; [vm_compute; reflexivity|reflexivity|discriminate|reflexivity|].
  apply observe_fields in Hobs as (Htb & Hca & Hco & Hr & Hfd & _).
  split; [exact Hca|]. split; [exact Hco|]. split; [exact Hr|].
  split; [exact Hfd|exact Htb].
Defined.

(** X7: No exception leaves [random_content].  A run that ends has
    answered in one of two ways: with status 200 and the page around the
    anchors gathered, and then the catch block did not run; or with status
    500 and the generic message, whatever the error was, and then the error
    caught is on the console.  A run that is out of fuel has not
    answered. *)
Theorem response_page_or_generic_error (fuel : nat) (w : world)
    (variables : arguments) :
  let st := final_state fuel w variables in
  (forall e, outcome fuel w variables <> Throw e)
  /\ match outcome fuel w variables with
     | OutOfFuel => response st = None
     | _ =>
         response st = Some (200, page (anchors (samples st)))
         /\ (forall e, ErrCaught e ∉ console st)
         \/ response st = Some (500, generic_message)
            /\ (exists e, ErrCaught e ∈ console st)
     end.
Proof.
  intros st. subst st.
  exit_cases (run_exit fuel w variables);
    apply observe_fields in Hobs as (_ & _ & Hco & Hr & _ & Hs);
    rewrite ?Hco, ?Hr, ?Hs; (split; [done|]); try done.
  1-5, 7: right; split; [done|]; eexists; apply list_elem_of_lookup.
  - by exists 0%nat.
  - by exists 0%nat.
  - by exists 0%nat.
  - by exists 2%nat.
  - by exists 3%nat.
  - by exists 3%nat.
  - left. split; [done|]. intros err Hin. unfold closing_line in Hin.
    destruct (close_fails w); console_cases Hin.
  - left. split; [done|]. intros err Hin. unfold closing_line in Hin.
    destruct (close_fails w); console_cases Hin.
Qed.

(** ** The text of the fragments *)

Section ReplaceLength.
Variable m : matcher.
Variable rep : jsstring.
Hypothesis m_shrinks : forall s r, m s = Some r -> (length r < length s)%nat.
Hypothesis rep_one : length rep = 1%nat.

Lemma js_replace_bounds (s : jsstring) :
  (length (js_replace m rep s) <= length s)%nat
  /\ (s <> [] -> js_replace m rep s <> []).
Proof.
  length_induction s IH.
  destruct s as [|c t]; [done|].
  destruct (m (c :: t)) as [r|] eqn:Hm.
  - rewrite (js_replace_match m rep m_shrinks (c :: t) r) by done.
    pose proof (m_shrinks _ _ Hm) as Hlt.
    destruct (IH _ Hlt r eq_refl) as [Hr _]. split.
    + rewrite length_app. lia.
    + intros _ E. apply (f_equal length) in E. rewrite length_app in E. simpl in E. lia.
  - rewrite js_replace_skip by done.
    destruct (IH (length t) ltac:(simpl; lia) t eq_refl) as [Ht _].
    split; [simpl; lia|done].
Qed.

End ReplaceLength.

Lemma normalize_bounds (s : jsstring) :
  (length (normalize s) <= length s)%nat /\ (s <> [] -> normalize s <> []).
Proof.
  unfold normalize, strip_spaces, strip_newlines.
  destruct (js_replace_bounds re_newlines (lit " ") re_newlines_shrinks eq_refl s) as [H1 H2].
  destruct (js_replace_bounds re_spaces (lit " ") re_spaces_shrinks eq_refl
              (js_replace re_newlines (lit " ") s)) as [H3 H4].
  split; [lia|auto].
Qed.

Lemma crlf_run_consumes (s : jsstring) (c : option jsstring) (r : jsstring) :
  crlf_run c s = Some r ->
  c = Some r \/ exists p, s = p ++ r /\ Forall (fun x => x = CR \/ x = LF) p.
Proof.
  revert c. induction s as [|x t IH]; intros c H; simpl in H; [by left|].
  destruct (Z.eqb_spec x CR) as [->|_].
  - destruct (IH _ H) as [E|(p & -> & Hp)]; [by left|right].
    exists (CR :: p). split; [done|]. constructor; [by left|done].
  - destruct (Z.eqb_spec x LF) as [->|_]; [|by left]. right.
    destruct (IH _ H) as [E|(p & -> & Hp)].
    + injection E as ->. exists [LF]. split; [done|]. constructor; [by right|constructor].
    + exists (LF :: p). split; [done|]. constructor; [by right|done].
Qed.

Lemma skip_spaces_consumes (s : jsstring) :
  exists p, s = p ++ skip_spaces s /\ Forall (fun x => x = SP) p.
Proof.
  induction s as [|x t (p & IH & Hp)]; [by exists []|]. simpl.
  destruct (Z.eqb_spec x SP) as [->|_].
  - exists (SP :: p). split; [by rewrite IH at 1|]. by constructor.
  - by exists [].
Qed.

Lemma filter_visible_none (p : jsstring) :
  Forall (fun x => x = CR \/ x = LF \/ x = SP) p -> filter is_visible p = [].
Proof.
  induction 1 as [|x p Hx _ IH]; [done|].
  rewrite filter_cons_False; [done|]. unfold is_visible. intros (? & ? & ?).
  destruct Hx as [|[|]]; done.
Qed.

Lemma strip_newlines_visible (s : jsstring) :
  filter is_visible (strip_newlines s) = filter is_visible s.
Proof.
  length_induction s IH.
  destruct s as [|c t]; [done|].
  destruct (re_newlines (c :: t)) as [r|] eqn:Hm.
  - rewrite (strip_newlines_match (c :: t) r) by done.
    rewrite filter_cons_False by (unfold is_visible; tauto).
    rewrite (IH _ (re_newlines_shrinks _ _ Hm) r eq_refl).
    destruct (crlf_run_consumes _ _ _ Hm) as [E|(p & -> & Hp)]; [done|].
    rewrite filter_app, (filter_visible_none p); [done|].
    eapply Forall_impl; [exact Hp|]. simpl. tauto.
  - rewrite strip_newlines_skip by done.
    rewrite !filter_cons, (IH (length t) ltac:(simpl; lia) t eq_refl). done.
Qed.

Lemma strip_spaces_visible (s : jsstring) :
  filter is_visible (strip_spaces s) = filter is_visible s.
Proof.
  length_induction s IH.
  destruct s as [|c t]; [done|].
  destruct (re_spaces (c :: t)) as [r|] eqn:Hm.
  - rewrite (strip_spaces_match (c :: t) r) by done.
    rewrite filter_cons_False by (unfold is_visible; tauto).
    rewrite (IH _ (re_spaces_shrinks _ _ Hm) r eq_refl).
    simpl in Hm. destruct (Z.eqb_spec c SP) as [->|_]; [|done].
    injection Hm as <-.
    rewrite filter_cons_False by (unfold is_visible; tauto).
    destruct (skip_spaces_consumes t) as (p & E & Hp).
    rewrite E at 2. rewrite filter_app, (filter_visible_none p); [done|].
    eapply Forall_impl; [exact Hp|]. simpl. tauto.
  - rewrite strip_spaces_skip by done.
    rewrite !filter_cons, (IH (length t) ltac:(simpl; lia) t eq_refl). done.
Qed.

(** X8: The two replacements touch carriage returns, line feeds and
    spaces only: every other character of the line comes out unchanged and
    in the same order; the line never gets longer, and it comes out empty
    only when it was empty. *)
Theorem normalize_keeps_visible_text (s : jsstring) :
  filter is_visible (normalize s) = filter is_visible s
  /\ (length (normalize s) <= length s)%nat
  /\ (normalize s = [] <-> s = []).
Proof.
  split; [unfold normalize; by rewrite strip_spaces_visible, strip_newlines_visible|].
  destruct (normalize_bounds s) as [Hle Hne]. split; [done|]. split.
  - intros E. destruct s; [done|]. by destruct Hne.
  - by intros ->.
Qed.

(** ** Decoding *)

Lemma utf16_length (cp : Z) : (1 <= length (utf16 cp) <= 2)%nat.
Proof. unfold utf16. destruct (cp <? 65536); simpl; lia. Qed.

Lemma utf16_small (cp : Z) : cp < 65536 -> utf16 cp = [cp].
Proof. intros H. unfold utf16. by destruct (Z.ltb_spec cp 65536); [|lia]. Qed.

Lemma units_cons (cp : Z) (l : list Z) :
  units (cp :: l) = (length (utf16 cp) + units l)%nat.
Proof. unfold units. simpl. by rewrite length_app. Qed.

Lemma units_app (l1 l2 : list Z) : units (l1 ++ l2) = (units l1 + units l2)%nat.
Proof. unfold units. by rewrite map_app, concat_app, length_app. Qed.

Lemma lead_byte_units (b : Z) :
  let '(out, d) := lead_byte b in
  (units out + pending d = 1)%nat.
Proof.
  unfold lead_byte.
  destruct (Z.leb_spec b 127).
  { rewrite units_cons, utf16_small by lia. reflexivity. }
  repeat (destruct (_ && _); [reflexivity|]). reflexivity.
Qed.

Lemma decode_byte_units (d : decoder) (b : Z) :
  let '(out, d') := decode_byte d b in
  (1 <= units out + pending d' <= 1 + pending d)%nat.
Proof.
  unfold decode_byte. destruct (bytes_needed d) as [|k] eqn:Hk.
  - assert (Hp : pending d = 0%nat) by (unfold pending; by rewrite Hk).
    pose proof (lead_byte_units b) as H. destruct (lead_byte b) as [out d'].
    rewrite Hp. lia.
  - assert (Hp : pending d = 1%nat) by (unfold pending; by rewrite Hk).
    rewrite Hp.
    destruct (_ && _).
    + destruct k.
      * rewrite units_cons. pose proof (utf16_length
          (Z.lor (Z.shiftl (code_point d) 6) (Z.land b 63))).
        unfold units, pending. simpl. lia.
      * unfold units, pending. simpl. lia.
    + pose proof (lead_byte_units b) as H. destruct (lead_byte b) as [out d'].
      rewrite units_cons. change (length (utf16 65533)) with 1%nat. lia.
Qed.

Lemma decode_from_bounds (bs : list Byte.byte) (d : decoder) :
  (units (decode_from d bs) <= length bs + pending d)%nat
  /\ (bs <> [] \/ pending d = 1%nat -> (1 <= units (decode_from d bs))%nat).
Proof.
  revert d. induction bs as [|b t IH]; intros d; simpl.
  - unfold pending. destruct (bytes_needed d); simpl.
    + split; [unfold units; simpl; lia|]. intros [|]; done.
    + split; [unfold units; simpl; lia|]. intros _. unfold units. simpl. lia.
  - pose proof (decode_byte_units d (byte_value b)) as H.
    destruct (decode_byte d (byte_value b)) as [out d'].
    rewrite units_app. destruct (IH d') as [IH1 IH2]. split; [lia|].
    intros _.
    assert (Hp : pending d' = 0%nat \/ pending d' = 1%nat)
      by (unfold pending; destruct (bytes_needed d'); auto).
    destruct Hp as [Hp|Hp]; [lia|]. specialize (IH2 (or_intror Hp)). lia.
Qed.

Lemma toString_utf8_bounds (bs : list Byte.byte) :
  (length (toString_utf8 bs) <= length bs)%nat
  /\ (bs <> [] -> toString_utf8 bs <> []).
Proof.
  destruct (decode_from_bounds bs idle) as [H1 H2].
  unfold toString_utf8. fold (units (decode_from idle bs)).
  change (pending idle) with 0%nat in *. split; [lia|].
  intros Hne E. specialize (H2 (or_introl Hne)).
  unfold units in H2. rewrite E in H2. simpl in H2. lia.
Qed.

(** ** The text of a pass *)

Lemma pass_text_bounds (w : world) (corpus : list Byte.byte) (b t : Z)
    (base_path : jsstring) (i : nat) (acc : Z) (s : sample) :
  0 < b <= Z.of_nat (length corpus) -> acc < t ->
  pass_sample w corpus b t base_path i acc s ->
  let line := normalize (toString_utf8 (s_block s)) in
  1 <= js_length line <= b
  /\ 1 <= js_length (s_text s) <= js_length line
  /\ (acc + js_length (s_text s) < t -> s_text s = line).
Proof.
  intros Hb Hacc (_ & _ & Hblock & Htext & _) line. fold line in Htext.
  pose proof (block_at_length corpus b (s_offset s) Hb) as Hlen.
  rewrite <- Hblock in Hlen.
  destruct (toString_utf8_bounds (s_block s)) as [Hd1 Hd2].
  destruct (normalize_bounds (toString_utf8 (s_block s))) as [Hn1 Hn2].
  fold line in Hn1, Hn2.
  assert (Hline : 1 <= js_length line <= b).
  { unfold js_length. split; [|lia].
    destruct line; [|simpl; lia]. destruct Hn2; [|done].
    apply Hd2. intros E. rewrite E in Hlen. simpl in Hlen. lia. }
  split; [done|].
  destruct (trim_cases t acc line Hacc) as [Hover Hfit]. rewrite <- Htext in *.
  destruct (Z.lt_ge_cases t (acc + js_length line)) as [H|H].
  - destruct (Hover H) as [_ E]. split; lia.
  - rewrite (Hfit H). split; [lia|done].
Qed.

Lemma passes_text_bounds (w : world) (corpus : list Byte.byte) (b t : Z)
    (base_path : jsstring) (l : list sample) :
  0 < b <= Z.of_nat (length corpus) ->
  passes w corpus b t base_path l ->
  Z.of_nat (length l) <= total_text l <= Z.of_nat (length l) * b.
Proof.
  intros Hb. induction 1 as [|l s Hp IH Hlt Hs]; [simpl; lia|].
  destruct (pass_text_bounds _ _ _ _ _ _ _ _ Hb Hlt Hs) as (H1 & H2 & _).
  rewrite total_text_snoc, length_app. simpl. nia.
Qed.

Lemma passes_untrimmed (w : world) (corpus : list Byte.byte) (b t : Z)
    (base_path : jsstring) (l : list sample) :
  0 < b <= Z.of_nat (length corpus) ->
  passes w corpus b t base_path l ->
  total_text l < t ->
  Forall (fun s => s_text s = normalize (toString_utf8 (s_block s))) l.
Proof.
  intros Hb. induction 1 as [|l s Hp IH Hlt Hs]; [constructor|].
  rewrite total_text_snoc. intros Htot.
  destruct (pass_text_bounds _ _ _ _ _ _ _ _ Hb Hlt Hs) as (_ & H2 & Hwhole).
  apply Forall_app. split; [apply IH; lia|]. constructor; [|constructor].
  apply Hwhole. lia.
Qed.

Lemma ceil_div_le (t b n : Z) : 0 < b -> t <= n * b -> ceil_div t b <= n.
Proof.
  intros Hb H. unfold ceil_div.
  assert (- n <= - t / b) by (apply Z.div_le_lower_bound; lia). lia.
Qed.

Lemma ceil_div_ge (t b : Z) : 0 < b -> t <= ceil_div t b * b.
Proof.
  intros Hb. unfold ceil_div.
  pose proof (Z.mul_div_le (- t) b Hb). lia.
Qed.

(** X9: In every pass the line decoded and normalised has at least one
    character and at most as many characters as the effective block size
    has bytes, and so has the text put in the anchor. *)
Theorem fragment_length_bounds (fuel : nat) (w : world)
    (variables : arguments) (i : nat) (s : sample) :
  samples (final_state fuel w variables) !! i = Some s ->
  exists b, effective_block_size w variables = Num b
    /\ 1 <= js_length (normalize (toString_utf8 (s_block s))) <= b
    /\ 1 <= js_length (s_text s) <= b.
Proof.
  intros Hi.
  destruct (run_passes fuel w variables)
    as (corpus & b & t & Hcb & EB & ET & Hb & Ht & Hslash & Hp).
  { intros E. by rewrite E in Hi. }
  destruct (passes_lookup _ _ _ _ _ _ _ _ Hp Hi) as [Hlt Hs].
  destruct (pass_text_bounds _ _ _ _ _ _ _ _ Hb Hlt Hs) as (H1 & H2 & _).
  exists b. split; [done|]. split; [done|lia].
Qed.

Lemma fragment_length_bounds_witness :
  let w := plain_world newline_corpus sample_draw in
  let s := {| s_offset := 0; s_block := replicate 8 Byte.x0a;
              s_text := lit " "; s_id := lit "4i00000000d";
              s_href := lit "/ephi/4i00000000d.html" |} in
  samples (final_state 6 w newline_request) !! 0%nat = Some s
  /\ effective_block_size w newline_request = Num 8
  /\ 1 <= js_length (s_text s) <= 8.
Proof.
  intros w s.
  assert (Hs : samples (final_state 6 w newline_request) !! 0%nat = Some s)
    by (vm_compute; reflexivity).
  assert (EB' : effective_block_size w newline_request = Num 8)
    by (vm_compute; reflexivity).
  destruct (fragment_length_bounds 6 w newline_request 0 s Hs) as (b & EB & _ & Hlen).
  rewrite EB' in EB. injection EB as <-.
  split; [exact Hs|]. split; [exact EB'|exact Hlen].
Defined.

(** X10: A page returned with status 200 for numeric sizes has at least
    [ceil(total_size / block_size)] anchors and at most twice as many, and
    its texts add up to at least one character and at most [block_size]
    characters per anchor. *)
Theorem link_count_bounds (fuel : nat) (w : world)
    (variables : arguments) (body : jsstring) (B T : Z) :
  response (final_state fuel w variables) = Some (200, body) ->
  effective_block_size w variables = Num B ->
  effective_total_size w variables = Num T ->
  let n := Z.of_nat (length (samples (final_state fuel w variables))) in
  ceil_div T B <= n <= ceil_div T B * 2
  /\ n <= total_text (samples (final_state fuel w variables)) <= n * B.
Proof.
  intros Hresp EB' ET' n. subst n.
  exit_cases (run_exit fuel w variables);
    apply observe_fields in Hobs as (_ & _ & _ & Hr & _ & Hs);
    rewrite Hr in Hresp; try discriminate Hresp; rewrite Hs;
    destruct (effective_sizes_of_run w variables _ _ _ _ _ Hv Hf)
      as (_ & _ & _ & _ & EB & ET);
    destruct (validate_result_ok _ _ _ _ _ Hv) as (_ & _ & _ & _ & HB0 & _ & HT0).
  - (* a size is not a number *)
    rewrite EB in EB'. rewrite ET in ET'.
    destruct Hnan as [[E _]|[_ E]]; congruence.
  - rewrite EB, HB in EB'. rewrite ET, HT in ET'.
    injection EB' as ->. injection ET' as ->.
    destruct (effective_size_cases corpus B0 Hne HB0) as [[? _]|(b' & Eb & Hb)];
      [congruence|].
    assert (b' = B) by congruence. subst b'.
    pose proof (passes_text_bounds _ _ _ _ _ _ Hb Hp) as Htext.
    split; [|done]. split; [|done].
    destruct Hend as [Hend|Hend].
    + apply ceil_div_le; lia.
    + pose proof (ceil_div_ge T B ltac:(lia)).
      destruct (effective_size_cases corpus T0 Hne HT0) as [[? _]|(t' & Et & Ht)];
        [congruence|].
      assert (t' = T) by congruence. subst t'.
      pose proof (ceil_div_pos T B ltac:(lia) ltac:(lia)). lia.
Qed.

Lemma link_count_bounds_witness :
  let w := plain_world tears_in_rain sample_draw in
  let st := final_state 10 w ephi_request in
  response st = Some (200, page (anchors (samples st)))
  /\ ceil_div 12 5 = 3
  /\ 3 <= Z.of_nat (length (samples st)) <= 6
  /\ Z.of_nat (length (samples st)) <= total_text (samples st).
Proof.
  intros w st.
  assert (Hr : response st = Some (200, page (anchors (samples st))))
    by (vm_compute; reflexivity).
  destruct (link_count_bounds 10 w ephi_request _ 5 12 Hr)
    as [Hn Htext]; [vm_compute; reflexivity|vm_compute; reflexivity|].
  split; [exact Hr|]. split; [reflexivity|].
  split; [exact Hn|exact (proj1 Htext)].
Defined.

(** X11: The assumption behind the loop limiter (lines 228-233): when the
    normalised line of every pass keeps at least half of the block size,
    a page returned with status 200 holds exactly [total_size] characters
    of text. *)
Theorem half_full_blocks_reach_total (fuel : nat) (w : world)
    (variables : arguments) (body : jsstring) (B T : Z) :
  response (final_state fuel w variables) = Some (200, body) ->
  effective_block_size w variables = Num B ->
  effective_total_size w variables = Num T ->
  Forall (fun s => B <= 2 * js_length (normalize (toString_utf8 (s_block s))))
         (samples (final_state fuel w variables)) ->
  total_text (samples (final_state fuel w variables)) = T.
Proof.
  intros Hresp EB' ET' Hhalf.
  exit_cases (run_exit fuel w variables);
    apply observe_fields in Hobs as (_ & _ & _ & Hr & _ & Hs);
    rewrite Hr in Hresp; try discriminate Hresp; rewrite Hs in *;
    destruct (effective_sizes_of_run w variables _ _ _ _ _ Hv Hf)
      as (_ & _ & _ & _ & EB & ET);
    destruct (validate_result_ok _ _ _ _ _ Hv) as (_ & _ & _ & _ & HB0 & _ & HT0).
  - rewrite EB in EB'. rewrite ET in ET'.
    destruct Hnan as [[E _]|[_ E]]; congruence.
  - rewrite EB, HB in EB'. rewrite ET, HT in ET'.
    injection EB' as ->. injection ET' as ->.
    destruct Hend as [Hend|Hend]; [done|].
    destruct (Z.eq_dec (total_text l) T) as [|Hneq]; [done|]. exfalso.
    destruct (effective_size_cases corpus B0 Hne HB0) as [[? _]|(b' & Eb & Hb)];
      [congruence|].
    assert (b' = B) by congruence. subst b'.
    pose proof (passes_untrimmed _ _ _ _ _ _ Hb Hp ltac:(lia)) as Hwhole.
    assert (Hsum : Z.of_nat (length l) * B <= 2 * total_text l).
    { clear -Hhalf Hwhole. induction l as [|s l IH]; [simpl; lia|].
      apply Forall_cons in Hhalf as [H1 H2]. apply Forall_cons in Hwhole as [H3 H4].
      specialize (IH H2 H4). simpl total_text. rewrite H3.
      change (length (s :: l)) with (S (length l)). lia. }
    pose proof (ceil_div_ge T B ltac:(lia)). nia.
Qed.

Lemma half_full_blocks_reach_total_witness :
  let w := plain_world letters_corpus sample_draw in
  let st := final_state 14 w default_request in
  response st = Some (200, page (anchors (samples st)))
  /\ length (samples st) = 7%nat
  /\ total_text (samples st) = 500.
Proof.
  intros w st.
  assert (Hr : response st = Some (200, page (anchors (samples st))))
    by (vm_compute; reflexivity).
  assert (Hhalf : Forall (fun s => 80 <= 2 * js_length (normalize (toString_utf8 (s_block s))))
                         (samples st))
    by (apply (bool_decide_unpack _); vm_compute; exact I).
  split; [exact Hr|]. split; [vm_compute; reflexivity|].
  apply (half_full_blocks_reach_total 14 w default_request _ 80 500 Hr);
    [vm_compute; reflexivity|vm_compute; reflexivity|exact Hhalf].
Defined.

(** ** The calls to the file system *)

Lemma taken_length (corpus : list Byte.byte) (b off : Z) :
  0 <= off < Z.of_nat (length corpus) -> 0 < b ->
  Z.of_nat (length (take (Z.to_nat b) (drop (Z.to_nat off) corpus)))
  = Z.min b (Z.of_nat (length corpus) - off).
Proof. intros Hoff Hb. rewrite length_take, length_drop. lia. Qed.

Lemma read_block_trace (w : world) (fd : Z) (corpus buffer : list Byte.byte)
    (b : Z) (st : state) :
  0 < b <= Z.of_nat (length corpus) ->
  fd_table st !! fd = Some corpus ->
  length buffer = Z.to_nat b ->
  draws_in_range w ->
  let size := Z.of_nat (length corpus) in
  let off := floor_times (random w (draws st)) size in
  match read_block w fd size b buffer st with
  | (Ret _, st') => calls st' = calls st ++ block_reads fd size b off
  | (Throw e, st') =>
      e = SystemError "read"
      /\ exists k, calls st' = calls st ++ take (S k) (block_reads fd size b off)
  | (OutOfFuel, _) => False
  end.
Proof.
  intros Hb Hfd Hbuf Hw size off. unfold read_block, bind, Math_random.
  fold size. fold off.
  assert (Hoff : 0 <= off < size).
  { apply floor_times_range; [apply Hw|unfold size; lia]. }
  set (st1 := with_draws (S (draws st)) st).
  assert (Hn1 := taken_length corpus b off Hoff ltac:(lia)). fold size in Hn1.
  unfold readSync at 1.
  change (fd_table st1) with (fd_table st). rewrite Hfd.
  change (reads st1) with (reads st). change (calls st1) with (calls st).
  destruct (read_fails w (reads st)).
  { split; [done|]. exists 0%nat. reflexivity. }
  destruct (Z.ltb_spec off 0); [lia|].
  change (0 <? 0) with false. destruct (Z.ltb_spec b 0); [lia|].
  destruct (Z.ltb_spec (Z.of_nat (length buffer)) (0 + b)); [lia|]. cbv [orb].
  cbv iota beta. rewrite Hn1.
  set (st2 := with_reads _ _).
  unfold block_reads.
  destruct (Z.ltb_spec (Z.min b (size - off)) b) as [Hshort|Hfull].
  - unfold readSync. change (fd_table st2) with (fd_table st). rewrite Hfd.
    change (calls st2) with (calls st ++ [ReadSync fd 0 b off]).
    destruct (read_fails w (reads st2)).
    { split; [done|]. exists 1%nat. simpl. by rewrite <- app_assoc. }
    change (0 <? 0) with false.
    destruct (Z.ltb_spec (Z.min b (size - off)) 0); [lia|].
    destruct (Z.ltb_spec (b - Z.min b (size - off)) 0); [lia|].
    match goal with |- context [Z.of_nat (length ?x) <? _] =>
      assert (Hl : length x = Z.to_nat b)
    end.
    { change (Z.to_nat 0) with 0%nat. rewrite take_0. simpl.
      rewrite length_app, length_drop, length_take, length_drop. lia. }
    rewrite Hl.
    destruct (Z.ltb_spec (Z.of_nat (Z.to_nat b))
                (Z.min b (size - off) + (b - Z.min b (size - off)))); [lia|].
    simpl. by rewrite <- app_assoc.
  - reflexivity.
Qed.

Lemma pass_trace (w : world) (fd : Z) (corpus : list Byte.byte) (b t : Z)
    (base_path : jsstring) (v : loop_vars) (st : state) :
  0 < b <= Z.of_nat (length corpus) ->
  fd_table st !! fd = Some corpus ->
  length (read_buffer v) = Z.to_nat b ->
  draws_in_range w ->
  let size := Z.of_nat (length corpus) in
  let off := floor_times (random w (draws st)) size in
  match pass w fd size b t base_path v st with
  | (Ret _, st') =>
      exists s, samples st' = samples st ++ [s]
        /\ calls st' = calls st ++ block_reads fd size b (s_offset s)
  | (Throw e, st') =>
      e = SystemError "read" /\ samples st' = samples st
      /\ exists k, calls st' = calls st ++ take (S k) (block_reads fd size b off)
  | (OutOfFuel, _) => False
  end.
Proof.
  intros Hb Hfd Hbuf Hw size off. subst size off.
  pose proof (read_block_trace w fd corpus (read_buffer v) b st Hb Hfd Hbuf Hw) as H.
  cbv zeta in H.
  destruct (read_block_spec w fd corpus (read_buffer v) b st Hb Hfd Hbuf)
    as (res & n & rs & E & _ & Hres).
  unfold pass, bind. rewrite E in H |- *.
  destruct res as [[o buf]|e|]; [|by destruct H|done].
  destruct Hres as (-> & _).
  destruct (trim_to_total _ _ _) as [text acc'].
  unfold Math_random, note_sample, ret.
  eexists. split; [reflexivity|]. exact H.
Qed.

Section Trace.

Context (w : world) (fd : Z) (corpus : list Byte.byte) (b t : Z)
  (base_path : jsstring) (st0 : state).
Hypothesis Hb : 0 < b <= Z.of_nat (length corpus).
Hypothesis Hfd : fd_table st0 !! fd = Some corpus.
Hypothesis Hw : draws_in_range w.

Lemma loop_state_fields (l : list sample) (st : state) :
  loop_state st0 l st -> fd_table st = fd_table st0 /\ samples st = l.
Proof. intros (n & d & rs & _ & ->). done. Qed.

Lemma reads_of_snoc (l : list sample) (s : sample) :
  reads_of fd (Z.of_nat (length corpus)) b (l ++ [s])
  = reads_of fd (Z.of_nat (length corpus)) b l ++ block_reads fd (Z.of_nat (length corpus)) b (s_offset s).
Proof. unfold reads_of. rewrite flat_map_app. simpl. by rewrite app_nil_r. Qed.

Lemma while_trace (fuel : nat) (v : loop_vars) (st : state) :
  loop_inv w corpus b t base_path st0 v st ->
  calls st = calls st0 ++ reads_of fd (Z.of_nat (length corpus)) b (samples st) ->
  match while fuel (loop_condition t) (pass w fd (Z.of_nat (length corpus)) b t base_path) v st with
  | (Throw e, st') =>
      e = SystemError "read"
      /\ exists k,
           calls st' = calls st0 ++ reads_of fd (Z.of_nat (length corpus)) b (samples st')
             ++ take (S k) (block_reads fd (Z.of_nat (length corpus)) b
                  (floor_times (random w (2 * length (samples st')))
                     (Z.of_nat (length corpus))))
  | (_, st') => calls st' = calls st0 ++ reads_of fd (Z.of_nat (length corpus)) b (samples st')
  end.
Proof.
  revert v st. induction fuel as [|fuel IH]; intros v st Hinv Hcalls; simpl.
  - by destruct (loop_condition t v).
  - destruct (loop_condition t v) eqn:Hc; [|done].
    pose proof (pass_spec w fd corpus b t base_path st0 Hb Hfd v st Hinv Hc) as Hspec.
    destruct Hinv as (l & Hl & Hd & _ & _ & _ & _ & _ & Hbuf & Hp).
    pose proof (loop_state_fields l st Hl) as [Htab Hsam].
    pose proof (pass_trace w fd corpus b t base_path v st Hb
                  ltac:(by rewrite Htab) Hbuf Hw) as Htrace.
    cbv zeta in Htrace. unfold bind.
    destruct (pass w fd (Z.of_nat (length corpus)) b t base_path v st) as [[v'|e|] st']; [| |done].
    + destruct Hspec as [Hinv' _]. destruct Htrace as (s & Hs & Htrace).
      apply IH; [done|].
      by rewrite Htrace, Hcalls, Hs, reads_of_snoc, <- app_assoc.
    + destruct Htrace as (-> & Hs & k & Htrace). split; [done|]. exists k.
      rewrite Htrace, Hcalls, Hs, Hsam, Hd, <- app_assoc. done.
Qed.

End Trace.

Lemma serve_trace (fuel : nat) (w : world) (variables : arguments)
    bp path B0 T0 corpus b t res st :
  validate_result variables = Ret (bp, path, B0, T0) ->
  files w path = Some corpus -> corpus <> [] -> open_fails w = false ->
  effective_size corpus B0 = Num b -> effective_size corpus T0 = Num t ->
  draws_in_range w ->
  serve fuel w variables = (res, st) ->
  let size := Z.of_nat (length corpus) in
  let gathered :=
    [StatSync path; OpenSync path] ++ reads_of (new_fd w) size b (samples st) in
  res = Ret tt /\ response st = Some (200, page (anchors (samples st)))
    /\ calls st = gathered ++ [CloseSync (new_fd w)]
  \/ res = Ret tt /\ response st = Some (500, generic_message)
     /\ ErrCaught (SystemError "read") ∈ console st
     /\ (exists k,
          calls st
          = gathered
            ++ take (S k) (block_reads (new_fd w) size b
                 (floor_times (random w (2 * length (samples st))) size))
            ++ [CloseSync (new_fd w)])
  \/ res = OutOfFuel /\ calls st = gathered.
Proof.
  intros Hv Hf Hne Hopen EB ET Hw Hrun size gathered. subst gathered.
  destruct (validate_result_ok _ _ _ _ _ Hv) as (_ & _ & _ & _ & HB0 & _ & HT0).
  destruct (effective_size_cases corpus B0 Hne HB0) as [[? _]|(b' & Eb & Hb)];
    [congruence|].
  assert (b' = b) by congruence. subst b'.
  destruct (effective_size_cases corpus T0 Hne HT0) as [[? _]|(t' & Et & Ht)];
    [congruence|].
  assert (t' = t) by congruence. subst t'.
  unfold serve, random_content, try_finally, try_catch in Hrun.
  rewrite (try_block_opened fuel w variables bp path B0 T0 corpus Hv Hf Hne Hopen) in Hrun.
  rewrite EB, ET in Hrun.
  set (st0 := entry_state w path corpus (Num b) (Num t)) in *.
  assert (Htab : fd_table st0 !! new_fd w = Some corpus) by apply lookup_insert_eq.
  unfold bind at 1 in Hrun. unfold Buffer_alloc in Hrun.
  destruct (Z.ltb_spec b 0); [lia|]. unfold ret at 1 in Hrun.
  unfold sampling_loop in Hrun. unfold bind at 1 2 in Hrun.
  set (v0 := {| built_contents := []; concatenated_text_length := 0;
                loop_limiter := ceil_div t b * 2;
                read_buffer := replicate (Z.to_nat b) Byte.x00 |}) in *.
  assert (Hinv : loop_inv w corpus b t bp st0 v0 st0).
  { exists []. split.
    - exists 0%nat, 0%nat, []. split; [constructor|]. reflexivity.
    - pose proof (ceil_div_pos t b). simpl.
      rewrite length_replicate. repeat split; try done; try lia. constructor. }
  pose proof (while_spec w (new_fd w) corpus b t bp st0 Hb Htab fuel v0 st0 Hinv) as Hloop.
  pose proof (while_trace w (new_fd w) corpus b t bp st0 Hb Htab Hw fuel v0 st0 Hinv
                ltac:(by rewrite app_nil_r)) as Htrace.
  fold size in Hloop, Htrace, Hrun.
  destruct (while _ _ _ _ _) as [[v'|e|] st'].
  - destruct Hloop as [(l & (n & d & rs & Hrs & E) & _ & Hbuilt & _) _].
    subst st'. unfold ret, r_return in Hrun.
    erewrite finally_block_opened in Hrun; [|reflexivity|exact Htab].
    injection Hrun as <- <-. left. split; [done|]. split.
    + simpl. by rewrite Hbuilt.
    + simpl in *. by injection Htrace as ->.
  - destruct Htrace as [-> (k & Htrace)].
    destruct Hloop as [(l & (n & d & rs & Hrs & E) & _) _].
    subst st'. unfold catch_block, bind, console_error, console_log, r_return in Hrun.
    erewrite finally_block_opened in Hrun; [|reflexivity|exact Htab].
    injection Hrun as <- <-. right. left. split; [done|].
    split; [done|]. split.
    + apply list_elem_of_lookup. by exists 3%nat.
    + exists k. simpl in *. injection Htrace as ->. by rewrite <- !app_assoc.
  - injection Hrun as <- <-. right. right. split; [done|]. exact Htrace.
Qed.

Lemma run_pair (fuel : nat) (w : world) (variables : arguments) :
  serve fuel w variables = (outcome fuel w variables, final_state fuel w variables).
Proof. unfold outcome, final_state. by destruct (serve fuel w variables). Qed.

(** X12: When every draw is in [0, 1), the calls made to the file system
    by a run answered with status 200 are exactly: [statSync] and
    [openSync] of the corpus, then for every pass, in order, the read of a
    block at the offset of that pass, followed, when the file ends before
    the block is full, by one read of the remainder of the block from the
    start of the file, and last [closeSync] of the descriptor. *)
Theorem file_system_trace (fuel : nat) (w : world)
    (variables : arguments) (body : jsstring) :
  draws_in_range w ->
  response (final_state fuel w variables) = Some (200, body) ->
  exists path corpus,
    own_property "corpus" variables = Some path /\ files w path = Some corpus
    /\ let st := final_state fuel w variables in
       let block_size :=
         match effective_block_size w variables with Num b => b | NaN => 0 end in
       calls st
       = [StatSync path; OpenSync path]
         ++ reads_of (new_fd w) (Z.of_nat (length corpus)) block_size (samples st)
         ++ [CloseSync (new_fd w)].
Proof.
  intros Hw Hresp.
  pose proof (run_pair fuel w variables) as Hrun.
  exit_cases (run_exit fuel w variables);
    pose proof Hobs as Hobs';
    apply observe_fields in Hobs' as (_ & Hca & _ & Hr & _ & Hs);
    rewrite Hr in Hresp; try discriminate Hresp;
    destruct (effective_sizes_of_run w variables _ _ _ _ _ Hv Hf)
      as (_ & _ & _ & _ & EB & _);
    destruct (validate_result_ok _ _ _ _ _ Hv) as (Hpath & _);
    exists path, corpus; (split; [done|]); (split; [done|]); cbv zeta.
  - by rewrite Hca, Hs.
  - rewrite EB, HB.
    destruct (serve_trace fuel w variables _ _ _ _ _ _ _ _ _ Hv Hf Hne Hopen HB HT Hw Hrun)
      as [(_ & _ & Hcalls)|[(_ & Hr' & _)|(Hout & _)]].
    + exact Hcalls.
    + rewrite Hr in Hr'. discriminate Hr'.
    + discriminate Hout.
Qed.

Lemma file_system_trace_witness :
  let w := plain_world tears_in_rain wrapping_draw in
  let st := final_state 10 w ephi_request in
  draws_in_range w
  /\ response st = Some (200, page (anchors (samples st)))
  /\ calls st
     = [StatSync corpus_path; OpenSync corpus_path;
        ReadSync 3 0 5 57; ReadSync 3 2 3 0;
        ReadSync 3 0 5 57; ReadSync 3 2 3 0;
        ReadSync 3 0 5 57; ReadSync 3 2 3 0;
        CloseSync 3].
Proof.
  intros w st.
  assert (Hw : draws_in_range w) by (intros n; apply (wrapping_draw_wf n)).
  assert (Hr : response st = Some (200, page (anchors (samples st))))
    by (vm_compute; reflexivity).
  destruct (file_system_trace 10 w ephi_request _ Hw Hr)
    as (path & corpus & Hpath & Hfile & Hcalls).
  assert (E : Some path = Some corpus_path)
    by (rewrite <- Hpath; vm_compute; reflexivity).
  injection E as ->.
  assert (E : Some corpus = Some tears_in_rain)
    by (rewrite <- Hfile; vm_compute; reflexivity).
  injection E as ->.
  split; [exact Hw|]. split; [exact Hr|].
  etransitivity; [exact Hcalls|]. vm_compute. reflexivity.
Defined.

Lemma block_reads_bounds (fd size b off : Z) (c : fs_call) :
  0 < b <= size -> 0 <= off < size ->
  c ∈ block_reads fd size b off ->
  exists o len pos, c = ReadSync fd o len pos
    /\ 0 <= o /\ 0 < len /\ o + len = b /\ 0 <= pos < size
    /\ (o = 0 \/ pos = 0).
Proof.
  intros Hb Hoff Hin. unfold block_reads in Hin.
  apply elem_of_cons in Hin as [->|Hin].
  { exists 0, b, off. split; [done|]. lia. }
  destruct (Z.ltb_spec (Z.min b (size - off)) b); [|by apply elem_of_nil in Hin].
  apply list_elem_of_singleton in Hin as ->.
  eexists _, _, 0. split; [reflexivity|]. lia.
Qed.

Lemma reads_of_bounds (w : world) (corpus : list Byte.byte) (b t : Z)
    (base_path : jsstring) (l : list sample) (fd : Z) (c : fs_call) :
  draws_in_range w ->
  0 < b <= Z.of_nat (length corpus) ->
  passes w corpus b t base_path l ->
  c ∈ reads_of fd (Z.of_nat (length corpus)) b l ->
  exists o len pos, c = ReadSync fd o len pos
    /\ 0 <= o /\ 0 < len /\ o + len = b /\ 0 <= pos < Z.of_nat (length corpus)
    /\ (o = 0 \/ pos = 0).
Proof.
  intros Hw Hb Hp Hin. unfold reads_of in Hin.
  apply list_elem_of_In, in_flat_map in Hin as (s & Hs & Hin).
  apply list_elem_of_In in Hin. apply list_elem_of_In, list_elem_of_lookup in Hs as [i Hi].
  destruct (passes_lookup _ _ _ _ _ _ _ _ Hp Hi) as [_ (Hoff & _)].
  eapply block_reads_bounds; [exact Hb| |exact Hin].
  rewrite Hoff. apply floor_times_range; [apply Hw|lia].
Qed.

(** X13: When every draw is in [0, 1), every [readSync] of a run, however
    the run ends, is on the descriptor the run opened, writes to a range of
    the buffer that is not empty and ends where the buffer ends, and reads
    from a position inside the corpus; it either fills the buffer from its
    start or reads from the start of the corpus. *)
Theorem reads_stay_in_bounds (fuel : nat) (w : world)
    (variables : arguments) (fd offset len position : Z) :
  draws_in_range w ->
  ReadSync fd offset len position ∈ calls (final_state fuel w variables) ->
  exists corpus block_size,
    corpus_bytes w variables = Some corpus
    /\ effective_block_size w variables = Num block_size
    /\ var_fd (final_state fuel w variables) = Some fd
    /\ 0 <= offset /\ 0 < len /\ offset + len = block_size
    /\ 0 <= position < Z.of_nat (length corpus)
    /\ (offset = 0 \/ position = 0).
Proof.
  intros Hw Hin.
  pose proof (run_pair fuel w variables) as Hrun.
  exit_cases (run_exit fuel w variables);
    pose proof Hobs as Hobs';
    apply observe_fields in Hobs' as (_ & Hca & _ & _ & Hfd & Hs);
    try (rewrite Hca in Hin;
         repeat (apply elem_of_cons in Hin as [Hin|Hin]; [discriminate Hin|]);
         by apply elem_of_nil in Hin).
  all: destruct (effective_sizes_of_run w variables _ _ _ _ _ Hv Hf)
         as (Hcb & _ & _ & _ & EB & _).
  all: destruct (validate_result_ok _ _ _ _ _ Hv) as (_ & _ & _ & _ & HB0 & _).
  all: destruct (effective_size_cases corpus B0 Hne HB0) as [[? _]|(b' & Eb & Hb)];
         [congruence|].
  all: assert (b' = b) by congruence; subst b'.
  all: exists corpus, b; rewrite EB, Hfd; (split; [done|]); (split; [done|]).
  all: destruct (serve_trace fuel w variables _ _ _ _ _ _ _ _ _ Hv Hf Hne Hopen HB HT Hw Hrun)
         as [(_ & _ & Hcalls)|[(_ & _ & _ & k & Hcalls)|(_ & Hcalls)]];
         cbv zeta in Hcalls; rewrite Hcalls, Hs in Hin.
  all: repeat (apply elem_of_cons in Hin as [Hin|Hin]; [discriminate Hin|]).
  all: repeat (apply elem_of_app in Hin as [Hin|Hin]).
  all: try (apply list_elem_of_singleton in Hin; discriminate Hin).
  all: try (destruct (reads_of_bounds _ _ _ _ _ _ _ _ Hw Hb Hp Hin)
              as (o & n & p & [= -> -> -> ->] & H); by split).
  all: apply elem_of_take in Hin as (j & Hin & _);
       apply (list_elem_of_lookup_2 _ j) in Hin;
       apply block_reads_bounds in Hin as (o & n & p & [= -> -> -> ->] & H);
       [by split|done|apply floor_times_range; [apply Hw|lia]].
Qed.

Lemma reads_stay_in_bounds_witness :
  let w := plain_world tears_in_rain wrapping_draw in
  let st := final_state 10 w ephi_request in
  draws_in_range w
  /\ ReadSync 3 2 3 0 ∈ calls st
  /\ effective_block_size w ephi_request = Num (2 + 3)
  /\ var_fd st = Some 3.
Proof.
  intros w st.
  assert (Hw : draws_in_range w) by (intros n; apply (wrapping_draw_wf n)).
  assert (Hin : ReadSync 3 2 3 0 ∈ calls st)
    by (apply list_elem_of_lookup; exists 3%nat; vm_compute; reflexivity).
  destruct (reads_stay_in_bounds 10 w ephi_request 3 2 3 0 Hw Hin)
    as (corpus & b & _ & EB & Hfd & _ & _ & <- & _).
  split; [exact Hw|]. split; [exact Hin|]. split; [exact EB|exact Hfd].
Defined.

(** X19: When every draw is in [0, 1), the sizes are numbers and the corpus
    was opened, an answer with status 500 means that a [readSync] failed:
    the error caught is that of the read, the calls to the file system are
    the reads of the passes completed, the reads of the next pass up to the
    one that failed, and then [closeSync] at once; what was gathered is not
    sent. *)
Theorem read_failure_ends_the_run (fuel : nat) (w : world)
    (variables : arguments) (block_size total_size : Z) :
  draws_in_range w ->
  effective_block_size w variables = Num block_size ->
  effective_total_size w variables = Num total_size ->
  LogOpened ∈ console (final_state fuel w variables) ->
  response (final_state fuel w variables) = Some (500, generic_message) ->
  let st := final_state fuel w variables in
  exists path corpus k,
    own_property "corpus" variables = Some path /\ files w path = Some corpus
    /\ ErrCaught (SystemError "read") ∈ console st
    /\ ~ (forall n, read_fails w n = false)
    /\ let size := Z.of_nat (length corpus) in
       calls st
       = [StatSync path; OpenSync path]
         ++ reads_of (new_fd w) size block_size (samples st)
         ++ take (S k) (block_reads (new_fd w) size block_size
              (floor_times (random w (2 * length (samples st))) size))
         ++ [CloseSync (new_fd w)].
Proof.
  intros Hw EB' ET' Hlog Hresp st. subst st.
  pose proof (run_pair fuel w variables) as Hrun.
  exit_cases (run_exit fuel w variables);
    pose proof Hobs as Hobs';
    apply observe_fields in Hobs' as (_ & _ & Hco & Hr & _ & _);
    rewrite Hr in Hresp; try discriminate Hresp;
    rewrite Hco in Hlog; try (by console_cases Hlog).
  - (* no buffer *)
    destruct (effective_sizes_of_run w variables _ _ _ _ _ Hv Hf)
      as (_ & _ & _ & _ & EB & _). congruence.
  - (* a read fails *)
    destruct (effective_sizes_of_run w variables _ _ _ _ _ Hv Hf)
      as (_ & _ & _ & _ & EB & ET).
    destruct (validate_result_ok _ _ _ _ _ Hv) as (Hpath & _).
    assert (b = block_size) by congruence. subst b.
    destruct (serve_trace fuel w variables _ _ _ _ _ _ _ _ _ Hv Hf Hne Hopen HB HT Hw Hrun)
      as [(_ & Hr' & _)|[(_ & _ & Hcaught & k & Hcalls)|(Hout & _)]].
    + rewrite Hr in Hr'. discriminate Hr'.
    + exists path, corpus, k. split; [done|]. split; [done|]. split; [done|].
      split; [|exact Hcalls].
      intros Hreads. apply Hq. split; [done|]. intros n. apply Hw.
    + discriminate Hout.
Qed.

Lemma read_failure_ends_the_run_witness :
  let w := failing_read_world 2 tears_in_rain wrapping_draw in
  let st := final_state 10 w ephi_request in
  response st = Some (500, generic_message)
  /\ length (samples st) = 1%nat
  /\ calls st
     = [StatSync corpus_path; OpenSync corpus_path;
        ReadSync 3 0 5 57; ReadSync 3 2 3 0;
        ReadSync 3 0 5 57; CloseSync 3]
  /\ ErrCaught (SystemError "read") ∈ console st.
Proof.
  intros w st.
  assert (Hw : draws_in_range w) by (intros n; apply (wrapping_draw_wf n)).
  assert (Hr : response st = Some (500, generic_message)) by (vm_compute; reflexivity).
  assert (Hlog : LogOpened ∈ console st)
    by (apply list_elem_of_lookup; exists 2%nat; vm_compute; reflexivity).
  destruct (read_failure_ends_the_run 10 w ephi_request 5 12 Hw)
    as (path & corpus & k & _ & _ & Hcaught & _ & _);
    [vm_compute; reflexivity|vm_compute; reflexivity|exact Hlog|exact Hr|].
  split; [exact Hr|]. split; [vm_compute; reflexivity|].
  split; [vm_compute; reflexivity|exact Hcaught].
Defined.

(** ** The labyrinth location *)

Lemma nginx_validates :
  validate_result nginx_variables = Ret (lit "/ephi/", corpus_path, Num 80, Num 500).
Proof. vm_compute. reflexivity. Qed.



Lemma completed_count (w : world) (corpus : list Byte.byte) (b t : Z)
    (base_path : jsstring) (l : list sample) :
  0 < b <= Z.of_nat (length corpus) -> 0 < t ->
  passes w corpus b t base_path l ->
  total_text l = t \/ Z.of_nat (length l) = ceil_div t b * 2 ->
  ceil_div t b <= Z.of_nat (length l).
Proof.
  intros Hb Ht Hp Hend.
  pose proof (passes_text_bounds _ _ _ _ _ _ Hb Hp) as Htext.
  destruct Hend as [Hend|Hend].
  - apply ceil_div_le; lia.
  - pose proof (ceil_div_pos t b ltac:(lia) ltac:(lia)). lia.
Qed.

(** X15: Under the shipped configuration, when the corpus can be read and
    is not empty, a request is answered with status 200 and a page of at
    least one and at most 14 anchors holding at most 500 characters of
    text; when the corpus has at least 500 bytes there are at least 7
    anchors and the validated sizes logged are 80 and 500. *)
Theorem nginx_request_served (fuel : nat) (w : world) (bytes : list Byte.byte) :
  files w corpus_path = Some bytes -> bytes <> [] ->
  open_fails w = false -> quiet w ->
  (14 <= fuel)%nat ->
  let st := final_state fuel w nginx_variables in
  outcome fuel w nginx_variables = Ret tt
  /\ response st = Some (200, page (anchors (samples st)))
  /\ (1 <= length (samples st) <= 14)%nat
  /\ total_text (samples st) <= 500
  /\ (500 <= Z.of_nat (length bytes) ->
      (7 <= length (samples st))%nat
      /\ LogValidatedBlock (Num 80) ∈ console st
      /\ LogValidatedTotal (Num 500) ∈ console st).
Proof.
  intros Hfile Hbytes Hopens Hquiet Hfuel st. subst st.
  pose proof nginx_validates as Hval.
  exit_cases (run_exit fuel w nginx_variables);
    rewrite Hv in Hval; try discriminate Hval;
    injection Hval as -> -> -> ->; try congruence.
  all: assert (corpus = bytes) by congruence; subst corpus.
  all: unfold effective_size, Math_min in *.
  all: try (destruct Hrej; congruence).
  all: try (by destruct Hnan as [[? _]|[_ ?]]).
  all: injection HB as <-; injection HT as <-.
  all: set (n := Z.of_nat (length bytes)) in *.
  all: assert (Hn : 0 < n) by (destruct bytes; [done|unfold n; simpl; lia]).
  all: assert (Hceil : ceil_div (Z.min n 500) (Z.min n 80) <= 7)
         by (apply ceil_div_le; lia).
  - apply observe_fields in Hobs as (_ & _ & Hco & Hr & _ & Hs).
    rewrite Hr, Hs, Hco. split; [done|]. split; [done|].
    pose proof (completed_count w bytes (Z.min n 80) (Z.min n 500) _ l
                  ltac:(unfold n in *; lia) ltac:(lia) Hp Hend) as Hcount.
    pose proof (ceil_div_pos (Z.min n 500) (Z.min n 80) ltac:(lia) ltac:(lia)).
    split; [lia|]. split; [lia|]. intros Hbig.
    replace (Z.min n 80) with 80 in * by lia.
    replace (Z.min n 500) with 500 in * by lia.
    change (ceil_div 500 80) with 7 in Hcount.
    split; [lia|]. split; apply list_elem_of_lookup; [by exists 0%nat|by exists 1%nat].
  - lia.
Qed.


Lemma nginx_request_served_witness :
  let w := plain_world letters_corpus sample_draw in
  let st := final_state 14 w nginx_variables in
  quiet w
  /\ response st = Some (200, page (anchors (samples st)))
  /\ (7 <= length (samples st) <= 14)%nat
  /\ total_text (samples st) <= 500.
Proof.
  intros w st.
  assert (Hq : quiet w).
  { split; [reflexivity|]. intros n. apply (sample_draw_wf n). }
  destruct (nginx_request_served 14 w letters_corpus)
    as (_ & Hr & Hlen & Htext & Hbig);
    [reflexivity|discriminate|reflexivity|exact Hq|lia|].
  destruct Hbig as (Hseven & _); [vm_compute; discriminate|].
  split; [exact Hq|]. split; [exact Hr|].
  split; [exact (conj Hseven (proj2 Hlen))|exact Htext].
Defined.

(** ** What the script reads *)



Lemma decode_ascii (bs : list Byte.byte) :
  Forall (fun x => byte_value x <= 127) bs ->
  toString_utf8 bs = map byte_value bs.
Proof.
  intros H. unfold toString_utf8.
  assert (E : decode_from idle bs = map byte_value bs).
  { induction H as [|x bs Hx _ IH]; [done|].
    cbn [decode_from map]. unfold decode_byte. cbn [bytes_needed idle].
    unfold lead_byte. destruct (Z.leb_spec (byte_value x) 127); [|lia].
    by rewrite IH. }
  rewrite E. clear E. induction H as [|x bs Hx _ IH]; [done|].
  cbn [map concat]. rewrite IH, utf16_small by lia. done.
Qed.

Lemma block_at_Forall (P : Byte.byte -> Prop) (corpus : list Byte.byte) (b off : Z) :
  Forall P corpus -> Forall P (block_at corpus b off).
Proof.
  intros H. unfold block_at. apply Forall_app. split.
  - by apply Forall_take, Forall_drop.
  - by apply Forall_take.
Qed.

(** X17: When the corpus holds bytes below 128 only, the buffer of every
    pass is decoded byte by byte: the line has exactly as many characters
    as the effective block size has bytes, and the text of the anchor is a
    prefix of the normalised bytes. *)
Theorem ascii_corpus_read_bytewise (fuel : nat) (w : world)
    (variables : arguments) (bytes : list Byte.byte) (i : nat) (s : sample) :
  corpus_bytes w variables = Some bytes ->
  Forall (fun x => byte_value x <= 127) bytes ->
  samples (final_state fuel w variables) !! i = Some s ->
  toString_utf8 (s_block s) = map byte_value (s_block s)
  /\ effective_block_size w variables = Num (js_length (toString_utf8 (s_block s)))
  /\ s_text s `prefix_of` normalize (map byte_value (s_block s)).
Proof.
  intros Hbytes Hascii Hi.
  destruct (run_passes fuel w variables)
    as (corpus & b & t & Hcb & EB & ET & Hb & Ht & _ & Hp).
  { intros E. by rewrite E in Hi. }
  assert (corpus = bytes) by congruence. subst corpus.
  destruct (passes_lookup _ _ _ _ _ _ _ _ Hp Hi) as [_ (_ & _ & Hblock & Htext & _)].
  assert (Hdec : toString_utf8 (s_block s) = map byte_value (s_block s)).
  { apply decode_ascii. rewrite Hblock. by apply block_at_Forall. }
  split; [done|]. split.
  - rewrite EB, Hdec. f_equal. unfold js_length.
    rewrite length_map, Hblock, block_at_length by done. lia.
  - rewrite <- Hdec, Htext. apply trim_to_total_prefix.
Qed.

Lemma ascii_corpus_read_bytewise_witness :
  let w := plain_world tears_in_rain sample_draw in
  let s := {| s_offset := 14; s_block := list_byte_of_string "nts w";
              s_text := lit "nts w"; s_id := lit "di00000000d";
              s_href := lit "/ephi/di00000000d.html" |} in
  samples (final_state 10 w ephi_request) !! 1%nat = Some s
  /\ toString_utf8 (s_block s) = map byte_value (s_block s)
  /\ effective_block_size w ephi_request = Num (js_length (toString_utf8 (s_block s))).
Proof.
  intros w s.
  assert (Hs : samples (final_state 10 w ephi_request) !! 1%nat = Some s)
    by (vm_compute; reflexivity).
  assert (Hascii : Forall (fun x => byte_value x <= 127) tears_in_rain)
    by (apply (bool_decide_unpack _); vm_compute; exact I).
  destruct (ascii_corpus_read_bytewise 10 w ephi_request tears_in_rain 1 s)
    as (Hdec & Hsize & _); [reflexivity|exact Hascii|exact Hs|].
  split; [exact Hs|]. split; [exact Hdec|exact Hsize].
Defined.

Lemma digit_value_digit (c : Z) : is_digit c -> digit_value c = Some (c - 48).
Proof.
  intros [H1 H2]. unfold digit_value.
  destruct (Z.leb_spec 48 c); [|lia]. destruct (Z.leb_spec c 57); [done|lia].
Qed.

Lemma digit_value_other (c : Z) : ~ is_digit c -> digit_value c = None.
Proof.
  intros H. unfold digit_value, is_digit in *.
  destruct (Z.leb_spec 48 c); [|done]. destruct (Z.leb_spec c 57); [lia|done].
Qed.

Lemma digit_not_white_space (c : Z) : is_digit c -> is_white_space c = false.
Proof.
  intros [H1 H2]. unfold is_white_space.
  repeat match goal with
  | |- context [c =? ?k] => rewrite (proj2 (Z.eqb_neq c k)) by lia
  end.
  rewrite (proj2 (Z.leb_gt 8192 c)) by lia. reflexivity.
Qed.

Lemma leading_digits_app (ds rest : jsstring) (acc : option Z) :
  Forall is_digit ds ->
  (forall c, head rest = Some c -> ~ is_digit c) ->
  leading_digits acc (ds ++ rest) = leading_digits acc ds.
Proof.
  intros Hds Hrest. revert acc.
  induction Hds as [|d ds Hd _ IH]; intros acc; simpl.
  - destruct rest as [|c rest']; [done|]. simpl.
    by rewrite digit_value_other by (by apply Hrest).
  - rewrite (digit_value_digit d Hd). apply IH.
Qed.

Lemma trim_start_white_space (ws s : jsstring) :
  Forall (fun c => is_white_space c = true) ws ->
  trim_start (ws ++ s) = trim_start s.
Proof. induction 1 as [|c ws Hc _ IH]; [done|]. simpl. by rewrite Hc. Qed.

Lemma parseInt_leading_digits (ws ds rest : jsstring) :
  Forall (fun c => is_white_space c = true) ws ->
  ds <> [] -> Forall is_digit ds ->
  (forall c, head rest = Some c -> ~ is_digit c) ->
  parseInt (ws ++ ds ++ rest) = parseInt ds
  /\ exists n, parseInt ds = Num n /\ 0 <= n.
Proof.
  intros Hws Hne Hds Hrest.
  destruct ds as [|d ds]; [done|]. apply Forall_cons in Hds as [Hd Hds].
  assert (Hstart : forall s, trim_start (d :: s) = d :: s).
  { intros s. simpl. by rewrite (digit_not_white_space d Hd). }
  assert (Hsign : (d =? 45) = false /\ (d =? 43) = false).
  { destruct Hd. split; apply Z.eqb_neq; lia. }
  destruct Hsign as [H45 H43].
  assert (E : forall s, parseInt (d :: s)
            = match leading_digits None (d :: s) with
              | Some n => Num (1 * n) | None => NaN end).
  { intros s. unfold parseInt. rewrite Hstart, H45, H43. reflexivity. }
  split.
  - unfold parseInt at 1. rewrite trim_start_white_space by done.
    fold (parseInt ((d :: ds) ++ rest)). change ((d :: ds) ++ rest) with (d :: (ds ++ rest)).
    rewrite !E.
    change (d :: ds ++ rest) with ((d :: ds) ++ rest).
    rewrite leading_digits_app; [done|by constructor|done].
  - rewrite E. cbn [leading_digits]. rewrite (digit_value_digit d Hd).
    assert (Hacc : forall l a, Forall is_digit l -> 0 <= a ->
              exists n, leading_digits (Some a) l = Some n /\ 0 <= n).
    { clear. intros l a Hl. revert a.
      induction Hl as [|x l Hx _ IH]; intros a Ha; simpl; [eauto|].
      rewrite (digit_value_digit x Hx). apply IH. destruct Hx. simpl. lia. }
    destruct (Hacc ds (10 * default 0 None + (d - 48)) Hds) as (n & -> & Hn).
    { destruct Hd. simpl. lia. }
    exists n. split; [f_equal; lia|done].
Qed.

(** X18: A size is read as [parseInt] reads it: white space before the
    digits and whatever follows the digits are ignored, so a size written
    with a unit or a fraction runs exactly as the digits alone. *)
Theorem size_read_by_leading_digits (fuel : nat) (w : world)
    (variables : arguments) (name : string) (ws ds rest : jsstring) :
  name = "block_size"%string \/ name = "total_size"%string ->
  Forall (fun c => is_white_space c = true) ws ->
  ds <> [] -> Forall is_digit ds ->
  (forall c, head rest = Some c -> ~ is_digit c) ->
  serve fuel w ((name, ws ++ ds ++ rest) :: variables)
  = serve fuel w ((name, ds) :: variables).
Proof.
  intros Hname Hws Hne Hds Hrest. apply serve_validate_ext.
  destruct (parseInt_leading_digits ws ds rest Hws Hne Hds Hrest) as [E _].
  unfold validate_result, validate. rewrite !own_property_cons.
  destruct Hname as [->| ->]; simpl String.eqb; cbv iota; by rewrite E.
Qed.

Lemma size_read_by_leading_digits_witness :
  let w := plain_world tears_in_rain sample_draw in
  serve 10 w (("block_size"%string, lit " " ++ lit "5" ++ lit " bytes") :: ephi_request)
  = serve 10 w (("block_size"%string, lit "5") :: ephi_request)
  /\ validate_result units_request = Ret (lit "/ephi/", corpus_path, Num 5, Num 12).
Proof.
  intros w. split; [|vm_compute; reflexivity].
  apply (size_read_by_leading_digits 10 w ephi_request "block_size"
           (lit " ") (lit "5") (lit " bytes")).
  - by left.
  - by constructor.
  - discriminate.
  - constructor; [unfold is_digit; vm_compute; split; discriminate|constructor].
  - intros c Hc. vm_compute in Hc. injection Hc as <-. unfold is_digit. lia.
Defined.
